(** * DriveBeforeYouGo: route analysis and rehearsal playback

    A shallow embedding of the two algorithmic modules of the application:
    - [RouteAnalyzer] (the junction scorer and selector), and
    - [RehearsalPlayer] (the playback sequencer),
    and of the ranking the application builds on their results
    ([App.getMostLingered]), together with the properties of the design
    document that can be settled on them and further properties read off
    the code.

    Conventions of the embedding.
    - Integers of the program (indices, metres, scores, milliseconds) are [Z].
    - Quantities the program computes with [/] (delays, dwell seconds, the
      progress percentage, kilometres) are exact rationals [Q]; the values of
      the program are the doubles nearest to them.  The stress score of
      the ranking is compared with others, so there the rounding is kept:
      it is a product of doubles ([App.doubleTimes]).
    - Coordinates and headings are finite doubles, hence rationals: [Q].
      The trigonometry of the program (the haversine distance, the bearing)
      and the browser's text extraction are not computed here: they are
      parameters of the analysis, and the spacing property is proved for
      every distance that is symmetric in its two points.
    - Strings are [string]; a character is one 8-bit code unit.
    - A JavaScript exception is the [Throw] outcome of the [Result] type.
    - The clock is an argument: [now] is what [Date.now()] returns during a
      call of the player (a call reads the same millisecond throughout).
    - The arrays of decision points live in a heap, since the player writes
      into the array its caller holds; pending timers and the calls of the
      update callback are part of the player's state.  The callback is
      taken not to call back into the player. *)

From Stdlib Require Import ZArith QArith Qround Qabs List String Ascii Bool Lia.
From Stdlib Require Import Permutation Sorted.
Import ListNotations.

Set Implicit Arguments.

Open Scope Z_scope.

(* ===================================================================== *)
(** * Outcomes of calls that may throw *)
(* ===================================================================== *)

Inductive Error : Type :=
| TypeError    (* property access on [undefined] or [null] *)
| OutOfFuel.   (* recursion budget of the model exhausted; never reached *)

Inductive Result (A : Type) : Type :=
| Ok (a : A)
| Throw (e : Error).

Arguments Ok {A} a.
Arguments Throw {A} e.

Definition bind {A B : Type} (r : Result A) (k : A -> Result B) : Result B :=
  match r with
  | Ok a => k a
  | Throw e => Throw e
  end.

Notation "x <- r ;; k" := (bind r (fun x => k))
  (at level 61, r at next level, right associativity).

Definition returns {A : Type} (r : Result A) : bool :=
  match r with Ok _ => true | Throw _ => false end.

(** Array indexing with a JavaScript number that holds an integer:
    [arr[i]] is [undefined] below 0 and past the end. *)
Definition nth_Z {A : Type} (l : list A) (i : Z) : option A :=
  if i <? 0 then None else nth_error l (Z.to_nat i).

Definition len {A : Type} (l : list A) : Z := Z.of_nat (List.length l).

(** [Array.prototype.sort] with a comparator: the sort is stable; an
    insertion sort that puts an element before the first later element it
    does not exceed is stable. *)
Section Sorting.
Variable A : Type.
Variable cmp : A -> A -> Z.

Fixpoint insertBy (x : A) (l : list A) : list A :=
  match l with
  | [] => [x]
  | y :: ys => if cmp x y <=? 0 then x :: y :: ys else y :: insertBy x ys
  end.

Fixpoint sortBy (l : list A) : list A :=
  match l with
  | [] => []
  | x :: xs => insertBy x (sortBy xs)
  end.
End Sorting.

(* ===================================================================== *)
(** * Regular expressions of the pattern tables *)
(* ===================================================================== *)

Module Regex.

(** Character sets that occur in the patterns.  Every pattern of the
    program carries the [i] flag, so a literal matches both cases. *)
Inductive charset : Type :=
| CLit (c : ascii)           (* a literal character, case-insensitive *)
| CSpace                     (* \s *)
| CDigit                     (* \d *)
| CSet (cs : list ascii).    (* [..], case-insensitive *)

Inductive regex : Type :=
| Chr (c : charset)
| Plus (c : charset)         (* c+ ; the program repeats only \s and \d *)
| WordB                      (* \b *)
| Cat (r1 r2 : regex)
| Alt (r1 r2 : regex)
| Opt (r : regex).

Definition code (c : ascii) : N := N_of_ascii c.

Definition isUpper (c : ascii) : bool := ((65 <=? code c) && (code c <=? 90))%N.
Definition isLowerLetter (c : ascii) : bool := ((97 <=? code c) && (code c <=? 122))%N.
Definition isDigit (c : ascii) : bool := ((48 <=? code c) && (code c <=? 57))%N.

Definition lowerChar (c : ascii) : ascii :=
  if isUpper c then ascii_of_N (code c + 32) else c.

(** [\s]: tab, line feed, vertical tab, form feed, carriage return, space
    and the no-break space. *)
Definition isSpace (c : ascii) : bool :=
  (((9 <=? code c) && (code c <=? 13)) || (code c =? 32) || (code c =? 160))%N.

(** Word characters of [\b]: letters, digits and the underscore. *)
Definition isWordChar (c : ascii) : bool :=
  (isUpper c || isLowerLetter c || isDigit c || (code c =? 95))%N.

Definition eqbI (a b : ascii) : bool := Ascii.eqb (lowerChar a) (lowerChar b).

Definition inSet (s : charset) (c : ascii) : bool :=
  match s with
  | CLit a => eqbI a c
  | CSpace => isSpace c
  | CDigit => isDigit c
  | CSet cs => existsb (fun a => eqbI a c) cs
  end.

Definition isWordOpt (c : option ascii) : bool :=
  match c with Some a => isWordChar a | None => false end.

(** Continuation of a match: the character before the current position
    (for [\b]) and the rest of the input. *)
Definition cont : Type := option ascii -> list ascii -> bool.

(** [c+] after one character [last] of the set was consumed: take more
    first (greedy), then hand over to the continuation. *)
Fixpoint more (c : charset) (last : ascii) (s : list ascii) (k : cont) : bool :=
  match s with
  | x :: s' =>
      if inSet c x
      then (if more c x s' k then true else k (Some last) s)
      else k (Some last) s
  | [] => k (Some last) s
  end.

(** Backtracking matcher anchored at the current position. *)
Fixpoint matchAt (r : regex) (prev : option ascii) (s : list ascii) (k : cont) : bool :=
  match r with
  | Chr c =>
      match s with
      | x :: s' => if inSet c x then k (Some x) s' else false
      | [] => false
      end
  | Plus c =>
      match s with
      | x :: s' => if inSet c x then more c x s' k else false
      | [] => false
      end
  | WordB =>
      if xorb (isWordOpt prev) (isWordOpt (hd_error s)) then k prev s else false
  | Cat r1 r2 => matchAt r1 prev s (fun p t => matchAt r2 p t k)
  | Alt r1 r2 => if matchAt r1 prev s k then true else matchAt r2 prev s k
  | Opt r1 => if matchAt r1 prev s k then true else k prev s
  end.

(** Unanchored search from every start position, left to right. *)
Fixpoint searchFrom (r : regex) (prev : option ascii) (s : list ascii) : bool :=
  if matchAt r prev s (fun _ _ => true) then true
  else match s with
       | x :: s' => searchFrom r (Some x) s'
       | [] => false
       end.

(** [pattern.test(text)] *)
Definition test (r : regex) (text : string) : bool :=
  searchFrom r None (list_ascii_of_string text).

(** Builders for the pattern literals. *)
Fixpoint litChars (cs : list ascii) : regex :=
  match cs with
  | [] => Opt (Chr (CSet []))          (* the empty pattern *)
  | [c] => Chr (CLit c)
  | c :: rest => Cat (Chr (CLit c)) (litChars rest)
  end.

Definition lit (s : string) : regex := litChars (list_ascii_of_string s).

Fixpoint seq (rs : list regex) : regex :=
  match rs with
  | [] => Opt (Chr (CSet []))
  | [r] => r
  | r :: rest => Cat r (seq rest)
  end.

Definition sp : regex := Plus CSpace.           (* \s+ *)
Definition digits : regex := Plus CDigit.       (* \d+ *)

(** Words separated by [\s+], as in [/keep\s+left/]. *)
Fixpoint words (ws : list string) : regex :=
  match ws with
  | [] => Opt (Chr (CSet []))
  | [w] => lit w
  | w :: rest => Cat (lit w) (Cat sp (words rest))
  end.

(** [String.prototype.toLowerCase] on the 8-bit alphabet of the model
    (Latin-1): the letters A-Z and the accented capitals 192-222, the
    multiplication sign 215 excepted, move 32 places up. *)
Definition toLowerChar (c : ascii) : ascii :=
  if isUpper c
     || ((192 <=? code c) && (code c <=? 222) && negb (code c =? 215))%N
  then ascii_of_N (code c + 32) else c.

Definition toLowerCase (s : string) : string :=
  string_of_list_ascii (map toLowerChar (list_ascii_of_string s)).

End Regex.

(* ===================================================================== *)
(** * The data exchanged between the two modules *)
(* ===================================================================== *)

Inductive JunctionType : Type :=
| TRoundabout | TMerge | TFork | TSharpTurn | TUturn | TComplex.

(** Reason tags pushed by the scorer and the selector. *)
Inductive Reason : Type :=
| RMotorwayCruise     (* 'motorway-cruise' *)
| RLaneCommitment     (* 'lane-commitment' *)
| RRoundabout         (* 'roundabout' *)
| RRoundaboutExit     (* 'roundabout-exit' *)
| RSmallRoundabout    (* 'small-roundabout' *)
| RShortWindow        (* 'short-window' *)
| RSignage            (* 'signage' *)
| RPressure           (* 'pressure' *)
| RLeadIn.            (* 'lead-in' *)

Definition reason_eqb (a b : Reason) : bool :=
  match a, b with
  | RMotorwayCruise, RMotorwayCruise | RLaneCommitment, RLaneCommitment
  | RRoundabout, RRoundabout | RRoundaboutExit, RRoundaboutExit
  | RSmallRoundabout, RSmallRoundabout | RShortWindow, RShortWindow
  | RSignage, RSignage | RPressure, RPressure | RLeadIn, RLeadIn => true
  | _, _ => false
  end.

(** [reasons.includes(r)] *)
Definition includes (reasons : list Reason) (r : Reason) : bool :=
  existsb (reason_eqb r) reasons.

Inductive CommitmentLevel : Type := High | Medium | Low.

(** The object literal built by [analyze]; [dwellSeconds] is the field the
    player adds later ([None] while it is undefined). *)
Record DecisionPoint : Type := {
  dp_index : Z;
  dp_stepIndex : Z;
  dp_legIndex : Z;
  dp_lat : Q;
  dp_lng : Q;
  dp_heading : Q;
  dp_instruction : string;
  dp_type : JunctionType;
  dp_typeLabel : string;
  dp_isPrimary : bool;
  dp_isLeadIn : bool;
  dp_isDecisionPoint : bool;
  dp_commitmentLevel : CommitmentLevel;
  dp_score : Z;
  dp_reasons : list Reason;
  dp_distanceMeters : Z;
  dp_distance : string;
  dp_maneuver : option string;
  dwellSeconds : option Q
}.

(* ===================================================================== *)
(** * RouteAnalyzer *)
(* ===================================================================== *)

Module RouteAnalyzer.
Import Regex.
Open Scope string_scope.
Open Scope list_scope.
Open Scope Z_scope.

(** ** Input of the Directions service *)

Record LatLng : Type := { lat_of : Q; lng_of : Q }.

Record Distance : Type := { value : Z; text : string }.

(** A step; a field the service left out is [None]. *)
Record RawStep : Type := {
  instructions : option string;
  maneuver : option string;
  distance : option Distance;
  start_location : option LatLng;
  end_location : option LatLng
}.

(** A leg; [leg_distance] is [Some v] when [leg.distance] is present and
    [leg.distance.value] is a number. *)
Record Leg : Type := {
  leg_distance : option Z;
  steps : list RawStep
}.

Record Route : Type := { legs : list Leg }.

(** ** Pattern tables *)

Definition COMPLEX_MANEUVERS : list (string * JunctionType) :=
  [ ("roundabout-left", TRoundabout);
    ("roundabout-right", TRoundabout);
    ("merge", TMerge);
    ("fork-left", TFork);
    ("fork-right", TFork);
    ("ramp-left", TMerge);
    ("ramp-right", TMerge);
    ("turn-sharp-left", TSharpTurn);
    ("turn-sharp-right", TSharpTurn);
    ("uturn-left", TUturn);
    ("uturn-right", TUturn) ].

Fixpoint lookup (k : string) (table : list (string * JunctionType)) : option JunctionType :=
  match table with
  | [] => None
  | (k', v) :: rest => if String.eqb k k' then Some v else lookup k rest
  end.

(** [step.maneuver && COMPLEX_MANEUVERS[step.maneuver]], for maneuver
    codes of the service's vocabulary. *)
Definition complexManeuver (m : option string) : option JunctionType :=
  match m with
  | Some code => if String.eqb code "" then None else lookup code COMPLEX_MANEUVERS
  | None => None
  end.

(** (st|nd|rd|th) *)
Definition ordinalSuffix : regex :=
  Alt (lit "st") (Alt (lit "nd") (Alt (lit "rd") (lit "th"))).

Definition leftOrRight : regex := Alt (lit "left") (lit "right").

Definition ROUNDABOUT_PATTERNS : list regex :=
  [ lit "roundabout";
    words ["exit"; "the"; "roundabout"];
    words ["traffic"; "circle"];
    lit "gyratory";
    lit "rotary";
    seq [lit "take"; sp; lit "the"; sp; digits; ordinalSuffix; sp; lit "exit"] ].

Definition LANE_COMMITMENT_PATTERNS : list regex :=
  [ words ["keep"; "left"];
    words ["keep"; "right"];
    words ["use"; "the"; "left"; "lane"];
    words ["use"; "the"; "right"; "lane"];
    words ["stay"; "in"; "the"; "left"];
    words ["stay"; "in"; "the"; "right"];
    lit "merge";
    words ["slip"; "road"];
    lit "exit";
    words ["take"; "the"; "ramp"];
    words ["keep"; "to"] ].

Definition PREPARE_PATTERNS : list regex :=
  [ lit "prepare"; lit "keep"; lit "merge"; lit "exit";
    words ["take"; "the"; "ramp"] ].

(** /\bX\d+\b/i *)
Definition roadNumber (letter : string) : regex :=
  seq [WordB; lit letter; digits; WordB].

Definition VISUAL_OVERLOAD_PATTERNS : list regex :=
  [ Cat (lit "sign") (Opt (lit "s"));
    lit "towards";
    roadNumber "A";
    roadNumber "M";
    roadNumber "B";
    lit "destination";
    lit "follow" ].

Definition SOCIAL_PRESSURE_PATTERNS : list regex :=
  [ words ["city"; "centre"]; lit "airport"; lit "hospital" ].

Definition COMPLEXITY_KEYWORDS : list (regex * JunctionType) :=
  [ (words ["merge"; "onto"], TMerge);
    (words ["take"; "the"; "ramp"], TMerge);
    (seq [lit "keep"; sp; leftOrRight], TFork);
    (lit "fork", TFork);
    (seq [lit "sharp"; sp; leftOrRight], TSharpTurn);
    (lit "u-turn", TUturn);
    (lit "lane", TComplex);
    (words ["slip"; "road"], TMerge) ].

Definition SPACING_METERS : Z := 150.
Definition MIN_TARGET_POINTS : Z := 6.
Definition MAX_TARGET_POINTS : Z := 12.
Definition DECISION_SCORE_THRESHOLD : Z := 8.

(** ** Predicates on instruction text *)

Definition matchesAny (patterns : list regex) (text : string) : bool :=
  existsb (fun pattern => test pattern text) patterns.

(** [s || ''] for a string that may be missing. *)
Definition orEmpty (s : option string) : string :=
  match s with
  | Some v => v
  | None => ""
  end.

(** [a || b || ''] on strings: the empty string is falsy. *)
Definition orElse (a : string) (b : option string) : string :=
  if String.eqb a "" then orEmpty b else a.

(** [m || null] for a maneuver code. *)
Definition orNull (m : option string) : option string :=
  match m with
  | Some code => if String.eqb code "" then None else Some code
  | None => None
  end.

Definition isRoundaboutStep (step : RawStep) (instructionHtml : string) : bool :=
  let instruction := orElse instructionHtml (instructions step) in
  match complexManeuver (maneuver step) with
  | Some TRoundabout => true
  | _ => existsb (fun pattern => test pattern instruction) ROUNDABOUT_PATTERNS
  end.

Definition hasComplexitySignal (step : RawStep) (instructionHtml : string) : bool :=
  let instruction := orElse instructionHtml (instructions step) in
  existsb (fun kw => test (fst kw) instruction) COMPLEXITY_KEYWORDS
  || existsb (fun pattern => test pattern instruction) ROUNDABOUT_PATTERNS
  || existsb (fun pattern => test pattern instruction) LANE_COMMITMENT_PATTERNS.

Definition isPrepareStep (instruction : string) : bool :=
  existsb (fun pattern => test pattern instruction) PREPARE_PATTERNS.

Definition isTurn (m : option string) : bool :=
  match m with
  | Some code => String.eqb code "turn-left" || String.eqb code "turn-right"
  | None => false
  end.

Definition isMajorManeuver (step : RawStep) : bool :=
  match complexManeuver (maneuver step) with
  | Some _ => true
  | None =>
      if isTurn (maneuver step) then true
      else hasComplexitySignal step (orEmpty (instructions step))
  end.

(** /(\d+)(st|nd|rd|th)\s+exit/i *)
Definition hasExitOrdinal (instruction : string) : bool :=
  test (seq [digits; ordinalSuffix; sp; lit "exit"]) instruction.

Definition isMotorwayCruise (instruction : string) : bool :=
  let isCruise :=
    test (seq [lit "continue"; sp; lit "on"; sp; Chr (CSet ["a"%char; "m"%char]); digits]) instruction
    || test (seq [lit "continue"; sp; lit "for"; sp; digits]) instruction
    || test (words ["continue"; "straight"]) instruction in
  let hasLaneCue :=
    matchesAny LANE_COMMITMENT_PATTERNS instruction
    || test (lit "exit") instruction
    || test (lit "merge") instruction in
  isCruise && negb hasLaneCue.

Fixpoint firstKeyword (kws : list (regex * JunctionType)) (instructionHtml : string)
  : option JunctionType :=
  match kws with
  | [] => None
  | (pattern, ty) :: rest =>
      if test pattern instructionHtml then Some ty else firstKeyword rest instructionHtml
  end.

Definition deriveType (step : RawStep) (instructionHtml : string) : JunctionType :=
  if isRoundaboutStep step instructionHtml then TRoundabout
  else match complexManeuver (maneuver step) with
       | Some ty => ty
       | None =>
           match firstKeyword COMPLEXITY_KEYWORDS instructionHtml with
           | Some ty => ty
           | None => TComplex
           end
       end.

Definition formatTypeLabel (ty : JunctionType) : string :=
  match ty with
  | TRoundabout => "Roundabout"
  | TMerge => "Merge"
  | TFork => "Fork / Lane Split"
  | TSharpTurn => "Sharp Turn"
  | TUturn => "U-Turn"
  | TComplex => "Tricky Junction"
  end.

(** ** Flattened and scored steps *)

Record FlatStep : Type := {
  orderIndex : Z;
  legIndex : Z;
  stepIndex : Z;
  step : RawStep;
  heading : Q;
  lat : Q;
  lng : Q;
  instructionHtml : string;
  instruction : string;
  distanceMeters : Z;
  distanceText : string;
  entry_maneuver : option string
}.

(** What [scoreStep] returns. *)
Record Score : Type := {
  score : Z;
  reasons : list Reason;
  exclude : bool;
  type : JunctionType;
  isPrimary : bool
}.

(** [{ ...entry, ...scored }] *)
Record ScoredStep : Type := {
  entry : FlatStep;
  scored : Score
}.

(** [{ next, prev }] *)
Record Context : Type := {
  next : option FlatStep;
  prev : option FlatStep
}.

(** The running [(score, reasons)] pair of [scoreStep]. *)
Definition Tally : Type := (Z * list Reason)%type.

Definition bump (t : Tally) (delta : Z) (r : Reason) : Tally :=
  (fst t + delta, snd t ++ [r]).

Definition scoreStep (e : FlatStep) (context : Context) : Score :=
  let instruction := instruction e in
  let instructionHtml := instructionHtml e in
  let lower := toLowerCase instruction in
  if isMotorwayCruise lower then
    {| score := 0; reasons := [RMotorwayCruise]; exclude := true;
       type := deriveType (step e) instructionHtml; isPrimary := false |}
  else
    let t : Tally := (0, []) in
    let t := if matchesAny LANE_COMMITMENT_PATTERNS lower
             then bump t 6 RLaneCommitment else t in
    let isRoundabout := isRoundaboutStep (step e) instructionHtml in
    let t := if isRoundabout then
               let t := bump t 4 RRoundabout in
               if hasExitOrdinal lower then bump t 2 RRoundaboutExit
               else if (distanceMeters e >? 0) && (distanceMeters e <? 120)
                    then bump t (-3) RSmallRoundabout
                    else t
             else t in
    let t := match next context with
             | Some nxt =>
                 if isPrepareStep lower && isMajorManeuver (step nxt) then
                   let nextDistance := distanceMeters nxt in
                   if (nextDistance >? 0) && (nextDistance <=? 120)
                   then bump t 6 RShortWindow
                   else if (nextDistance >? 0) && (nextDistance <=? 250)
                        then bump t 4 RShortWindow
                        else t
                 else t
             | None => t
             end in
    let t := if matchesAny VISUAL_OVERLOAD_PATTERNS instructionHtml
                || matchesAny VISUAL_OVERLOAD_PATTERNS lower
             then bump t 2 RSignage else t in
    let t := if matchesAny SOCIAL_PRESSURE_PATTERNS lower
             then bump t 1 RPressure else t in
    if negb (hasComplexitySignal (step e) instructionHtml) && (fst t =? 0) then
      {| score := 0; reasons := snd t; exclude := true;
         type := deriveType (step e) instructionHtml; isPrimary := false |}
    else
      {| score := fst t; reasons := snd t; exclude := false;
         type := deriveType (step e) instructionHtml; isPrimary := isRoundabout |}.

(** [arr.map((x, idx) => f(x, idx))] *)
Fixpoint mapi {A B : Type} (f : A -> Z -> B) (idx : Z) (l : list A) : list B :=
  match l with
  | [] => []
  | x :: xs => f x idx :: mapi f (idx + 1) xs
  end.

Definition scoreSteps (steps : list FlatStep) : list ScoredStep :=
  mapi (fun e idx =>
          let context := {| next := nth_Z steps (idx + 1);
                            prev := nth_Z steps (idx - 1) |} in
          {| entry := e; scored := scoreStep e context |})
       0 steps.

Definition getCommitmentLevel (reasons : list Reason) : CommitmentLevel :=
  let hasLaneCommitment := includes reasons RLaneCommitment in
  let hasShortWindow := includes reasons RShortWindow in
  let hasRoundaboutExit := includes reasons RRoundaboutExit in
  if (hasLaneCommitment && hasShortWindow) || (hasRoundaboutExit && hasLaneCommitment)
  then High
  else if hasLaneCommitment || hasShortWindow || hasRoundaboutExit
       then Medium
       else Low.

(** ** Target count *)

Definition clamp (v lo hi : Z) : Z := Z.max lo (Z.min hi v).

(** [Math.round]: the nearest integer, halves upwards. *)
Definition round (x : Q) : Z := Qfloor (x + (1 # 2))%Q.

Definition totalMeters (route : Route) : Z :=
  fold_left (fun total leg =>
               match leg_distance leg with
               | Some v => total + v
               | None => total
               end)
            (legs route) 0.

Definition getTargetCount (route : Route) : Z :=
  let total := totalMeters route in
  if total =? 0 then 8
  else
    let totalKm := (inject_Z total / inject_Z 1000)%Q in
    let target := round (totalKm / inject_Z 7)%Q + 5 in
    clamp target MIN_TARGET_POINTS MAX_TARGET_POINTS.

(** ** The selection map

    [selected] is a [Map] keyed by order index; its iteration order is the
    insertion order, and [set] on a present key keeps the key's place. *)

Section JsMap.
Variable V : Type.

Definition map_has (k : Z) (m : list (Z * V)) : bool :=
  existsb (fun kv => fst kv =? k) m.

Fixpoint map_set (k : Z) (v : V) (m : list (Z * V)) : list (Z * V) :=
  match m with
  | [] => [(k, v)]
  | (k', v') :: rest =>
      if k' =? k then (k, v) :: rest else (k', v') :: map_set k v rest
  end.

Definition map_values (m : list (Z * V)) : list V := map snd m.
End JsMap.

(** A selected step: the scored step (with the reasons it carries in the
    selection) and the [isLeadIn] mark. *)
Record Selected : Type := {
  sel : ScoredStep;
  isLeadIn : bool
}.

Definition sel_orderIndex (p : Selected) : Z := orderIndex (entry (sel p)).
Definition sel_score (p : Selected) : Z := score (scored (sel p)).

(** [{ ...step, isLeadIn: false }] *)
Definition asMain (s : ScoredStep) : Selected :=
  {| sel := s; isLeadIn := false |}.

(** [{ ...leadIn, isLeadIn: true, reasons: [...leadIn.reasons, 'lead-in'] }] *)
Definition asLeadIn (s : ScoredStep) : Selected :=
  {| sel := {| entry := entry s;
               scored := {| score := score (scored s);
                            reasons := reasons (scored s) ++ [RLeadIn];
                            exclude := exclude (scored s);
                            type := type (scored s);
                            isPrimary := isPrimary (scored s) |} |};
     isLeadIn := true |}.

Definition getLeadInStep (s : ScoredStep) (steps : list ScoredStep) : option ScoredStep :=
  match nth_Z steps (orderIndex (entry s) - 1) with
  | None => None
  | Some prev =>
      if (distanceMeters (entry prev) >? 40)
         || isPrepareStep (toLowerCase (instruction (entry prev)))
      then Some prev
      else None
  end.

(** The two [while] loops of [trimToMaxPoints]: take the head of the
    queue and drop its order index from the result while the result is
    over the cap and the queue is not empty. *)
Fixpoint dropWhileOver (queue result : list Selected) : list Selected :=
  match queue with
  | [] => result
  | toRemove :: rest =>
      if len result >? MAX_TARGET_POINTS then
        dropWhileOver rest
          (filter (fun pt => negb (sel_orderIndex pt =? sel_orderIndex toRemove)) result)
      else result
  end.

Definition byScore (a b : Selected) : Z := sel_score a - sel_score b.
Definition byOrder (a b : Selected) : Z := sel_orderIndex a - sel_orderIndex b.

Definition trimToMaxPoints (points : list Selected) : list Selected :=
  let result := points in
  let leadIns := sortBy byScore (filter isLeadIn result) in
  let result := dropWhileOver leadIns result in
  let result :=
    if len result >? MAX_TARGET_POINTS then
      let nonLead := sortBy byScore (filter (fun pt => negb (isLeadIn pt)) result) in
      dropWhileOver nonLead result
    else result in
  sortBy byOrder result.

Definition Qltb (x y : Q) : bool := negb (Qle_bool y x).

Section Pipeline.
(** The environment of the analyzer: the browser's text extraction, the
    bearing computation (the Maps geometry library when it is loaded,
    the trigonometric fallback otherwise) and the haversine formula. *)
Variable stripHtml : string -> string.
Variable computeHeading : option LatLng -> option LatLng -> Result Q.
Variable haversineDistance : Q -> Q -> Q -> Q -> Q.

(** The body of the inner [forEach] of [flattenSteps]. *)
Definition flattenStep (orderIndex legIndex stepIndex : Z) (s : RawStep)
  : Result FlatStep :=
  heading <- computeHeading (start_location s) (end_location s) ;;
  let instructionHtml := orEmpty (instructions s) in
  let instructionText := stripHtml instructionHtml in
  start <- match start_location s with
           | Some loc => Ok loc
           | None => Throw TypeError
           end ;;
  Ok {| orderIndex := orderIndex;
        legIndex := legIndex;
        stepIndex := stepIndex;
        step := s;
        heading := heading;
        lat := lat_of start;
        lng := lng_of start;
        instructionHtml := instructionHtml;
        instruction := instructionText;
        distanceMeters := match distance s with Some d => value d | None => 0 end;
        distanceText := match distance s with Some d => text d | None => "" end;
        entry_maneuver := orNull (maneuver s) |}.

(** [arr.forEach((x, i) => ...)] over a state, stopping at a throw. *)
Fixpoint forEach {S A : Type} (f : S -> A -> Z -> Result S) (i : Z) (l : list A) (st : S)
  : Result S :=
  match l with
  | [] => Ok st
  | x :: xs => st' <- f st x i ;; forEach f (i + 1) xs st'
  end.

(** The state of [flattenSteps]: [flat] and [orderIndex]. *)
Definition flattenSteps (route : Route) : Result (list FlatStep) :=
  out <- forEach
           (fun st leg legIndex =>
              forEach
                (fun (st : list FlatStep * Z) s stepIndex =>
                   let '(flat, orderIndex) := st in
                   e <- flattenStep orderIndex legIndex stepIndex s ;;
                   Ok (flat ++ [e], orderIndex + 1))
                0 (steps leg) st)
           0 (legs route) ([], 0) ;;
  Ok (fst out).

Definition isTooClose (candidate : ScoredStep) (selected : list ScoredStep)
           (thresholdMeters : Z) : bool :=
  existsb (fun existing =>
             let dist := haversineDistance (lat (entry candidate)) (lng (entry candidate))
                                           (lat (entry existing)) (lng (entry existing)) in
             Qltb dist (inject_Z thresholdMeters))
          selected.

(** The comparator of the candidate sort. *)
Definition byScoreThenOrder (a b : ScoredStep) : Z :=
  if negb (score (scored b) =? score (scored a))
  then score (scored b) - score (scored a)
  else orderIndex (entry a) - orderIndex (entry b).

(** The [for ... of sorted] loop. *)
Fixpoint pickMain (target : Z) (sorted selectedMain : list ScoredStep) : list ScoredStep :=
  match sorted with
  | [] => selectedMain
  | candidate :: rest =>
      if len selectedMain >=? target then selectedMain
      else if isTooClose candidate selectedMain SPACING_METERS
           then pickMain target rest selectedMain
           else pickMain target rest (selectedMain ++ [candidate])
  end.

Definition addLeadIn (steps : list ScoredStep) (selected : list (Z * Selected))
           (s : ScoredStep) : list (Z * Selected) :=
  match getLeadInStep s steps with
  | None => selected
  | Some leadIn =>
      if negb (map_has (orderIndex (entry leadIn)) selected)
      then map_set (orderIndex (entry leadIn)) (asLeadIn leadIn) selected
      else selected
  end.

Definition selectMain (steps : list ScoredStep) (route : Route) : list ScoredStep :=
  let target := getTargetCount route in
  let candidates :=
    filter (fun s => (score (scored s) >? 0) && negb (exclude (scored s))) steps in
  let sorted := sortBy byScoreThenOrder candidates in
  pickMain target sorted [].

Definition selectedMap (steps : list ScoredStep) (selectedMain : list ScoredStep)
  : list (Z * Selected) :=
  let selected :=
    fold_left (fun m s => map_set (orderIndex (entry s)) (asMain s) m) selectedMain [] in
  fold_left (addLeadIn steps) selectedMain selected.

Definition selectRehearsalSteps (steps : list ScoredStep) (route : Route) : list Selected :=
  let selectedMain := selectMain steps route in
  let selected := selectedMap steps selectedMain in
  let result := sortBy byOrder (map_values selected) in
  if len result >? MAX_TARGET_POINTS then trimToMaxPoints result else result.

Definition toDecisionPoint (s : Selected) (idx : Z) : DecisionPoint :=
  let e := entry (sel s) in
  let sc := scored (sel s) in
  {| dp_index := idx;
     dp_stepIndex := stepIndex e;
     dp_legIndex := legIndex e;
     dp_lat := lat e;
     dp_lng := lng e;
     dp_heading := heading e;
     dp_instruction := instruction e;
     dp_type := type sc;
     dp_typeLabel := formatTypeLabel (type sc);
     dp_isPrimary := isPrimary sc;
     dp_isLeadIn := isLeadIn s;
     dp_isDecisionPoint := score sc >=? DECISION_SCORE_THRESHOLD;
     dp_commitmentLevel := getCommitmentLevel (reasons sc);
     dp_score := score sc;
     dp_reasons := reasons sc;
     dp_distanceMeters := distanceMeters e;
     dp_distance := distanceText e;
     dp_maneuver := orNull (entry_maneuver e);
     dwellSeconds := None |}.

(** The steps [analyze] selects on the first route, before they are
    turned into decision points. *)
Definition selectedSteps (route : Route) : Result (list Selected) :=
  flatSteps <- flattenSteps route ;;
  let scoredSteps := scoreSteps flatSteps in
  Ok (selectRehearsalSteps scoredSteps route).

(** [result] is [None] when the result or its [routes] is missing. *)
Definition analyze (result : option (list Route)) : Result (list DecisionPoint) :=
  match result with
  | None => Ok []
  | Some [] => Ok []
  | Some (route :: _) =>
      selectedSteps <- selectedSteps route ;;
      Ok (mapi toDecisionPoint 0 selectedSteps)
  end.

End Pipeline.

End RouteAnalyzer.

(* ===================================================================== *)
(** * RehearsalPlayer *)
(* ===================================================================== *)

Module RehearsalPlayer.
Open Scope list_scope.
Open Scope Z_scope.

(** What the panorama was last told to show. *)
Record Panorama : Type := {
  position : Q * Q;
  pov_heading : Q
}.

(** The object built by [getState]. *)
Record Snapshot : Type := {
  s_currentIndex : Z;
  total : Z;
  point : option DecisionPoint;
  s_isPlaying : bool;
  s_speed : Q;
  progress : Q;
  isFirst : bool;
  isLast : bool
}.

(** The module-level variables, and the part of the environment they act
    on.

    [points] is a reference: [Some a] is the array at address [a] of
    [heap], the array the caller passed to [init] and still holds;
    [None] is the module's own empty array literal.  [timers] are the
    pending [setTimeout] calls (handle, delay in ms); handles are positive,
    hence truthy.  [emitted] logs the snapshots passed to the update
    callback; [onUpdate] tells whether a callback is registered. *)
Record Player : Type := {
  heap : list (list DecisionPoint);
  panorama : option Panorama;
  points : option nat;
  currentIndex : Z;
  isPlaying : bool;
  playTimer : option nat;
  speed : Q;
  onUpdate : bool;
  lastShownAt : option Z;
  timers : list (nat * Q);
  nextHandle : nat;
  emitted : list Snapshot
}.

Definition BASE_DWELL : Q := inject_Z 5000.
Definition DECISION_DWELL_MULTIPLIER : Q := 16 # 10.

(** The module as loaded, over a heap of caller-owned arrays. *)
Definition loaded (h : list (list DecisionPoint)) : Player :=
  {| heap := h; panorama := None; points := None; currentIndex := 0;
     isPlaying := false; playTimer := None; speed := 1; onUpdate := false;
     lastShownAt := None; timers := []; nextHandle := 1; emitted := [] |}.

(** ** Field updates *)

Definition set_heap (v : list (list DecisionPoint)) (st : Player) : Player :=
  {| heap := v; panorama := panorama st; points := points st;
     currentIndex := currentIndex st; isPlaying := isPlaying st;
     playTimer := playTimer st; speed := speed st; onUpdate := onUpdate st;
     lastShownAt := lastShownAt st; timers := timers st;
     nextHandle := nextHandle st; emitted := emitted st |}.

Definition set_panorama (v : option Panorama) (st : Player) : Player :=
  {| heap := heap st; panorama := v; points := points st;
     currentIndex := currentIndex st; isPlaying := isPlaying st;
     playTimer := playTimer st; speed := speed st; onUpdate := onUpdate st;
     lastShownAt := lastShownAt st; timers := timers st;
     nextHandle := nextHandle st; emitted := emitted st |}.

Definition set_points (v : option nat) (st : Player) : Player :=
  {| heap := heap st; panorama := panorama st; points := v;
     currentIndex := currentIndex st; isPlaying := isPlaying st;
     playTimer := playTimer st; speed := speed st; onUpdate := onUpdate st;
     lastShownAt := lastShownAt st; timers := timers st;
     nextHandle := nextHandle st; emitted := emitted st |}.

Definition set_currentIndex (v : Z) (st : Player) : Player :=
  {| heap := heap st; panorama := panorama st; points := points st;
     currentIndex := v; isPlaying := isPlaying st;
     playTimer := playTimer st; speed := speed st; onUpdate := onUpdate st;
     lastShownAt := lastShownAt st; timers := timers st;
     nextHandle := nextHandle st; emitted := emitted st |}.

Definition set_isPlaying (v : bool) (st : Player) : Player :=
  {| heap := heap st; panorama := panorama st; points := points st;
     currentIndex := currentIndex st; isPlaying := v;
     playTimer := playTimer st; speed := speed st; onUpdate := onUpdate st;
     lastShownAt := lastShownAt st; timers := timers st;
     nextHandle := nextHandle st; emitted := emitted st |}.

Definition set_playTimer (v : option nat) (st : Player) : Player :=
  {| heap := heap st; panorama := panorama st; points := points st;
     currentIndex := currentIndex st; isPlaying := isPlaying st;
     playTimer := v; speed := speed st; onUpdate := onUpdate st;
     lastShownAt := lastShownAt st; timers := timers st;
     nextHandle := nextHandle st; emitted := emitted st |}.

Definition set_speed (v : Q) (st : Player) : Player :=
  {| heap := heap st; panorama := panorama st; points := points st;
     currentIndex := currentIndex st; isPlaying := isPlaying st;
     playTimer := playTimer st; speed := v; onUpdate := onUpdate st;
     lastShownAt := lastShownAt st; timers := timers st;
     nextHandle := nextHandle st; emitted := emitted st |}.

Definition set_onUpdate (v : bool) (st : Player) : Player :=
  {| heap := heap st; panorama := panorama st; points := points st;
     currentIndex := currentIndex st; isPlaying := isPlaying st;
     playTimer := playTimer st; speed := speed st; onUpdate := v;
     lastShownAt := lastShownAt st; timers := timers st;
     nextHandle := nextHandle st; emitted := emitted st |}.

Definition set_lastShownAt (v : option Z) (st : Player) : Player :=
  {| heap := heap st; panorama := panorama st; points := points st;
     currentIndex := currentIndex st; isPlaying := isPlaying st;
     playTimer := playTimer st; speed := speed st; onUpdate := onUpdate st;
     lastShownAt := v; timers := timers st;
     nextHandle := nextHandle st; emitted := emitted st |}.

Definition set_timers (v : list (nat * Q)) (st : Player) : Player :=
  {| heap := heap st; panorama := panorama st; points := points st;
     currentIndex := currentIndex st; isPlaying := isPlaying st;
     playTimer := playTimer st; speed := speed st; onUpdate := onUpdate st;
     lastShownAt := lastShownAt st; timers := v;
     nextHandle := nextHandle st; emitted := emitted st |}.

Definition set_nextHandle (v : nat) (st : Player) : Player :=
  {| heap := heap st; panorama := panorama st; points := points st;
     currentIndex := currentIndex st; isPlaying := isPlaying st;
     playTimer := playTimer st; speed := speed st; onUpdate := onUpdate st;
     lastShownAt := lastShownAt st; timers := timers st;
     nextHandle := v; emitted := emitted st |}.

Definition set_emitted (v : list Snapshot) (st : Player) : Player :=
  {| heap := heap st; panorama := panorama st; points := points st;
     currentIndex := currentIndex st; isPlaying := isPlaying st;
     playTimer := playTimer st; speed := speed st; onUpdate := onUpdate st;
     lastShownAt := lastShownAt st; timers := timers st;
     nextHandle := nextHandle st; emitted := v |}.

(** ** The environment: arrays and timers *)

(** The array [points] refers to. *)
Definition thePoints (st : Player) : list DecisionPoint :=
  match points st with
  | Some a => nth a (heap st) []
  | None => []
  end.

Fixpoint update {A : Type} (i : nat) (f : A -> A) (l : list A) : list A :=
  match l, i with
  | [], _ => []
  | x :: xs, O => f x :: xs
  | x :: xs, S j => x :: update j f xs
  end.

Definition set_dwellSeconds (v : Q) (p : DecisionPoint) : DecisionPoint :=
  {| dp_index := dp_index p; dp_stepIndex := dp_stepIndex p;
     dp_legIndex := dp_legIndex p; dp_lat := dp_lat p; dp_lng := dp_lng p;
     dp_heading := dp_heading p; dp_instruction := dp_instruction p;
     dp_type := dp_type p; dp_typeLabel := dp_typeLabel p;
     dp_isPrimary := dp_isPrimary p; dp_isLeadIn := dp_isLeadIn p;
     dp_isDecisionPoint := dp_isDecisionPoint p;
     dp_commitmentLevel := dp_commitmentLevel p; dp_score := dp_score p;
     dp_reasons := dp_reasons p; dp_distanceMeters := dp_distanceMeters p;
     dp_distance := dp_distance p; dp_maneuver := dp_maneuver p;
     dwellSeconds := Some v |}.

(** [points[i].dwellSeconds = v]: a write into the shared array. *)
Definition writeDwell (i : Z) (v : Q) (st : Player) : Player :=
  match points st with
  | Some a => set_heap (update a (update (Z.to_nat i) (set_dwellSeconds v)) (heap st)) st
  | None => st
  end.

(** [clearTimeout(h)] *)
Definition clearTimeout (h : nat) (st : Player) : Player :=
  set_timers (filter (fun t => negb (Nat.eqb (fst t) h)) (timers st)) st.

(** [if (playTimer) clearTimeout(playTimer)] *)
Definition clearPlayTimer (st : Player) : Player :=
  match playTimer st with
  | Some h => clearTimeout h st
  | None => st
  end.

(** [playTimer = setTimeout(() => next(), delay)] *)
Definition armPlayTimer (delay : Q) (st : Player) : Player :=
  let h := nextHandle st in
  set_playTimer (Some h)
    (set_nextHandle (S h) (set_timers (timers st ++ [(h, delay)]) st)).

(** ** The functions of the module *)

Definition getState (st : Player) : Snapshot :=
  let pts := thePoints st in
  {| s_currentIndex := currentIndex st;
     total := len pts;
     point := nth_Z pts (currentIndex st);
     s_isPlaying := isPlaying st;
     s_speed := speed st;
     progress := if len pts >? 0
                 then ((inject_Z (currentIndex st + 1) / inject_Z (len pts)) * inject_Z 100)%Q
                 else 0%Q;
     isFirst := currentIndex st =? 0;
     isLast := currentIndex st =? len pts - 1 |}.

Definition emitUpdate (st : Player) : Player :=
  if onUpdate st then set_emitted (emitted st ++ [getState st]) st else st.

(** [now] is the value of [Date.now()] during the call. *)
Definition recordCurrentDwell (now : Z) (st : Player) : Player :=
  let st :=
    match lastShownAt st, nth_Z (thePoints st) (currentIndex st) with
    | Some shownAt, Some _ =>
        let dwell := (inject_Z (now - shownAt) / inject_Z 1000)%Q in
        writeDwell (currentIndex st) dwell st
    | _, _ => st
    end in
  set_lastShownAt None st.

Definition showPoint (index : Z) (now : Z) (st : Player) : Result Player :=
  if (index <? 0) || (index >=? len (thePoints st)) then Ok st
  else
    let st := recordCurrentDwell now st in
    let st := set_currentIndex index st in
    match nth_Z (thePoints st) index, panorama st with
    | Some pt, Some _ =>
        let st := set_panorama
                    (Some {| position := (dp_lat pt, dp_lng pt);
                             pov_heading := dp_heading pt |}) st in
        let st := set_lastShownAt (Some now) st in
        Ok (emitUpdate st)
    | _, _ => Throw TypeError
    end.

Definition pause (st : Player) : Player :=
  let st := set_isPlaying false st in
  let st := match playTimer st with
            | Some h => set_playTimer None (clearTimeout h st)
            | None => st
            end in
  emitUpdate st.

(** [scheduleNext], with the [next] it calls as a parameter. *)
Definition scheduleNextWith (next : Player -> Result Player) (now : Z) (st : Player)
  : Result Player :=
  let st := clearPlayTimer st in
  if negb (isPlaying st) then Ok st
  else if currentIndex st >=? len (thePoints st) - 1 then
    Ok (pause (recordCurrentDwell now st))
  else if Qeq_bool (speed st) 0 then next st
  else
    let delay := (BASE_DWELL / speed st)%Q in
    let delay := match nth_Z (thePoints st) (currentIndex st) with
                 | Some currentPoint =>
                     if dp_isDecisionPoint currentPoint
                     then (delay * DECISION_DWELL_MULTIPLIER)%Q
                     else delay
                 | None => delay
                 end in
    Ok (armPlayTimer delay st).

(** [next] and [scheduleNext] call each other while the speed is the skip
    value; [fuel] bounds the depth of the calls. *)
Fixpoint nextFuel (fuel : nat) (now : Z) (st : Player) : Result Player :=
  match fuel with
  | O => Throw OutOfFuel
  | S fuel' =>
      if currentIndex st <? len (thePoints st) - 1 then
        st <- showPoint (currentIndex st + 1) now st ;;
        if isPlaying st then scheduleNextWith (nextFuel fuel' now) now st else Ok st
      else
        Ok (pause (recordCurrentDwell now st))
  end.

(** One call per point suffices. *)
Definition fuelFor (st : Player) : nat := S (List.length (thePoints st)).

Definition next (now : Z) (st : Player) : Result Player :=
  nextFuel (fuelFor st) now st.

Definition scheduleNext (now : Z) (st : Player) : Result Player :=
  scheduleNextWith (next now) now st.

(** [init(container, decisionPoints, updateCallback)]; [a] is the address
    of [decisionPoints] and [callback] tells whether one was passed.
    [initReset] is the part of [init] before the panorama is built: the
    assignments that stay when building it throws. *)
Definition initReset (a : nat) (callback : bool) (st : Player) : Player :=
  let st := set_points (Some a) st in
  let st := set_currentIndex 0 st in
  let st := set_isPlaying false st in
  let st := set_speed 1 st in
  let st := set_onUpdate callback st in
  let st := set_lastShownAt None st in
  clearPlayTimer st.

Definition init (a : nat) (callback : bool) (now : Z) (st : Player) : Result Player :=
  let st := initReset a callback st in
  match nth_Z (thePoints st) 0 with
  | None => Throw TypeError
  | Some p0 =>
      let st := set_panorama
                  (Some {| position := (dp_lat p0, dp_lng p0);
                           pov_heading := dp_heading p0 |}) st in
      showPoint 0 now st
  end.

Definition play (now : Z) (st : Player) : Result Player :=
  if len (thePoints st) =? 0 then Ok st
  else
    let st := set_isPlaying true st in
    let st := emitUpdate st in
    scheduleNext now st.

Definition togglePlay (now : Z) (st : Player) : Result Player :=
  if isPlaying st then Ok (pause st) else play now st.

Definition prev (now : Z) (st : Player) : Result Player :=
  if currentIndex st >? 0 then
    st <- showPoint (currentIndex st - 1) now st ;;
    if isPlaying st then scheduleNext now st else Ok st
  else Ok st.

Definition setSpeed (newSpeed : Q) (now : Z) (st : Player) : Result Player :=
  let st := set_speed newSpeed st in
  let st := emitUpdate st in
  if isPlaying st && Qeq_bool (speed st) 0 then
    let st := clearPlayTimer st in
    next now st
  else Ok st.

Definition goTo (index : Z) (now : Z) (st : Player) : Result Player :=
  st <- showPoint index now st ;;
  if isPlaying st then scheduleNext now st else Ok st.

Definition destroy (now : Z) (st : Player) : Player :=
  let st := pause st in
  let st := recordCurrentDwell now st in
  let st := set_panorama None st in
  let st := set_points None st in
  set_lastShownAt None st.

(** The pending timer [h] expires: the environment removes it and runs
    its callback, [next]. *)
Definition timerFires (h : nat) (now : Z) (st : Player) : Result Player :=
  if existsb (fun t => Nat.eqb (fst t) h) (timers st)
  then next now (clearTimeout h st)
  else Ok st.

End RehearsalPlayer.

(* ===================================================================== *)
(** * The application: the most lingered points *)
(* ===================================================================== *)

Module App.
Open Scope list_scope.
Open Scope Z_scope.

(** [{ low: 1, medium: 1.5, high: 2 }[pt.commitmentLevel] || 1] *)
Definition weightOf (level : CommitmentLevel) : Q :=
  match level with
  | Low => 1
  | Medium => 3 # 2
  | High => 2
  end.

(** [{ ...pt, stressScore }] *)
Record Lingered : Type := {
  lingered : DecisionPoint;
  stressScore : Q
}.

(** ** The product of two numbers

    Numbers are doubles: the product of two of them is their exact product
    rounded to the nearest double, a tie going to the even significand.
    Doubles are kept as the rationals they stand for; the infinities are
    not among them, dwell times and weights being far from the end of the
    range. *)

(** [floor (log2 (n / d))] *)
Definition floorLog2 (n d : positive) : Z :=
  let k := Z.log2 (Zpos n) - Z.log2 (Zpos d) in
  if k >=? 0
  then (if Zpos n >=? Zpos d * 2 ^ k then k else k - 1)
  else (if Zpos n * 2 ^ (- k) >=? Zpos d then k else k - 1).

(** [n / d] rounded to the nearest integer, a tie to the even one. *)
Definition roundHalfEven (n d : Z) : Z :=
  let q := n / d in
  let r := n mod d in
  if 2 * r <? d then q
  else if 2 * r >? d then q + 1
  else if Z.even q then q else q + 1.

(** The double nearest to the positive rational [n / d]: 53 bits of
    significand, the exponent not below that of the subnormal numbers. *)
Definition nearestDouble (n d : positive) : Q :=
  let e := Z.max (floorLog2 n d - 52) (- 1074) in
  if e >=? 0
  then inject_Z (roundHalfEven (Zpos n) (Zpos d * 2 ^ e) * 2 ^ e)
  else Qmake (roundHalfEven (Zpos n * 2 ^ (- e)) (Zpos d)) (Z.to_pos (2 ^ (- e))).

Definition toDouble (x : Q) : Q :=
  match Qnum x with
  | Z0 => 0
  | Zpos n => nearestDouble n (Qden x)
  | Zneg n => - nearestDouble n (Qden x)
  end.

(** [a * b] on doubles. *)
Definition doubleTimes (a b : Q) : Q := toDouble (a * b).

(** The sign of a number, which is all a sort looks at in the result of
    its comparator. *)
Definition signOf (x : Q) : Z := Z.sgn (Qnum x).

(** [(a, b) => b.stressScore - a.stressScore].  The difference of two
    doubles is rounded too, but it is zero, positive or negative as the
    exact difference is. *)
Definition byStress (a b : Lingered) : Z := signOf (stressScore b - stressScore a).

Section Stress.

(** The product that gives the stress score: [doubleTimes] in the browser.
    What is proved of the ranking holds for any product. *)
Variable times : Q -> Q -> Q.

(** The function mapped over the points: a point whose [dwellSeconds] is
    not a number (it was never left) counts as 0. *)
Definition withStress (pt : DecisionPoint) : Lingered :=
  let dwell := match dwellSeconds pt with
               | Some seconds => seconds
               | None => 0%Q
               end in
  let weight := weightOf (dp_commitmentLevel pt) in
  {| lingered := pt; stressScore := times dwell weight |}.

(** [points.map(...).sort(...).slice(0, 3)] *)
Definition getMostLingered (points : list DecisionPoint) : list Lingered :=
  firstn 3 (sortBy byStress (map withStress points)).

End Stress.

End App.

(* ===================================================================== *)
(** * Sample inputs *)
(* ===================================================================== *)

Module Samples.
Import RouteAnalyzer.
Open Scope string_scope.
Open Scope list_scope.
Open Scope Z_scope.

(** ** A sample environment for running the analyzer

    Stand-ins for the three services of the environment: text extraction
    that drops the tags, a bearing that is defined when both coordinates
    are, and a distance that is symmetric (111 km per degree along the
    axes). *)

Fixpoint dropTags (inTag : bool) (cs : list ascii) : list ascii :=
  match cs with
  | [] => []
  | c :: rest =>
      if Ascii.eqb c "<"%char then dropTags true rest
      else if Ascii.eqb c ">"%char then dropTags false rest
      else if inTag then dropTags inTag rest
      else c :: dropTags inTag rest
  end.

Definition sampleStripHtml (html : string) : string :=
  string_of_list_ascii (dropTags false (list_ascii_of_string html)).

Definition sampleHeading (from to : option LatLng) : Result Q :=
  match from, to with
  | Some _, Some _ => Ok 0%Q
  | _, _ => Throw TypeError
  end.

Definition sampleDistance (lat1 lng1 lat2 lng2 : Q) : Q :=
  (inject_Z 111000 * (Qabs (lat2 - lat1) + Qabs (lng2 - lng1)))%Q.

(** ** Steps and routes *)

Definition at_ (la lo : Q) : option LatLng := Some {| lat_of := la; lng_of := lo |}.

Definition mkStep (html : string) (code : option string) (metres : Z) (label : string)
           (la lo : Q) : RawStep :=
  {| instructions := Some html;
     maneuver := code;
     distance := Some {| value := metres; text := label |};
     start_location := at_ la lo;
     end_location := at_ la lo |}.

Definition exitText : string := "At the roundabout, take the 2nd exit".

(** The step of the roundabout scenario. *)
Definition exitStep : RawStep :=
  mkStep exitText (Some "roundabout-right") 80 "80 m" (51450 # 1000) (-(970 # 1000)).

Definition exitEntry : FlatStep :=
  {| orderIndex := 0; legIndex := 0; stepIndex := 0; step := exitStep;
     heading := 0%Q; lat := 51450 # 1000; lng := -(970 # 1000);
     instructionHtml := exitText; instruction := exitText;
     distanceMeters := 80; distanceText := "80 m";
     entry_maneuver := Some "roundabout-right" |}.

Definition noContext : Context := {| next := None; prev := None |}.

(** An entry whose instruction carries no markup, at the origin. *)
Definition textEntry (txt : string) (code : option string) (metres : Z) : FlatStep :=
  {| orderIndex := 0; legIndex := 0; stepIndex := 0;
     step := mkStep txt code metres "" 0%Q 0%Q;
     heading := 0%Q; lat := 0%Q; lng := 0%Q;
     instructionHtml := txt; instruction := txt;
     distanceMeters := metres; distanceText := "";
     entry_maneuver := code |}.

(** The steps of the motorway and of the short-window scenarios. *)
Definition cruiseEntry : FlatStep := textEntry "Continue on M25 for 12 mi" None 19312.
Definition prepareEntry : FlatStep := textEntry "Prepare to merge onto M4" None 500.
Definition mergeEntry : FlatStep := textEntry "" (Some "merge") 100.

(** A roundabout step that carries neither instructions nor distance. *)
Definition bareRoundabout : RawStep :=
  {| instructions := None;
     maneuver := Some "roundabout-left";
     distance := None;
     start_location := at_ (51500 # 1000) (-(100 # 1000));
     end_location := at_ (51501 # 1000) (-(100 # 1000)) |}.

(** A step without instructions, distance or maneuver code. *)
Definition bareStep : RawStep :=
  {| instructions := None;
     maneuver := None;
     distance := None;
     start_location := at_ (51500 # 1000) (-(100 # 1000));
     end_location := at_ (51501 # 1000) (-(100 # 1000)) |}.

(** A step without a start location. *)
Definition lostStep : RawStep :=
  {| instructions := Some "Turn <b>left</b>";
     maneuver := Some "turn-left";
     distance := Some {| value := 200; text := "0.2 km" |};
     start_location := None;
     end_location := at_ (51501 # 1000) (-(100 # 1000)) |}.

Definition lostRoute : Route :=
  {| legs := [ {| leg_distance := Some 200; steps := [lostStep] |} ] |}.

(** A drive of six steps: a merge announced 100 m ahead, a motorway
    stretch and a roundabout. *)
Definition drive : Route :=
  {| legs :=
       [ {| leg_distance := Some 20180;
            steps :=
              [ mkStep "Head <b>north</b> on High Street" None 300 "0.3 km"
                       (51500 # 1000) (-(100 # 1000));
                mkStep "Prepare to merge onto <b>M4</b>" None 500 "0.5 km"
                       (51503 # 1000) (-(100 # 1000));
                mkStep "Merge onto <b>M4</b> towards Reading" (Some "merge") 100 "0.1 km"
                       (51508 # 1000) (-(100 # 1000));
                mkStep "Continue on M4 for 12 mi" None 19000 "19 km"
                       (51509 # 1000) (-(100 # 1000));
                mkStep "At the roundabout, take the 2nd exit onto <b>A329</b>"
                       (Some "roundabout-right") 80 "80 m"
                       (51450 # 1000) (-(970 # 1000));
                mkStep "Turn <b>left</b> onto Station Road" (Some "turn-left") 200 "0.2 km"
                       (51451 # 1000) (-(970 # 1000)) ] |} ] |}.

(** A route whose legs carry no distance, and one of 70 km in two legs. *)
Definition unmeasured : Route :=
  {| legs := [ {| leg_distance := None; steps := [] |} ] |}.

Definition seventyKm : Route :=
  {| legs := [ {| leg_distance := Some 42000; steps := [] |};
               {| leg_distance := Some 28000; steps := [] |} ] |}.

Definition analyzeSample : option (list Route) -> Result (list DecisionPoint) :=
  analyze sampleStripHtml sampleHeading sampleDistance.

(** The decision points of the sample drive. *)
Definition drivePoints : list DecisionPoint :=
  Eval vm_compute in
    match analyzeSample (Some [drive]) with
    | Ok out => out
    | Throw _ => []
    end.

(** ** Playback sessions

    The heap of the sessions: the decision points of the sample drive at
    address 0 and an empty array at address 1. *)

Definition theatre : RehearsalPlayer.Player :=
  RehearsalPlayer.loaded [drivePoints; []].

(** [init] on the sample drive at time 1000. *)
Definition shown : Result RehearsalPlayer.Player :=
  RehearsalPlayer.init 0 true 1000 theatre.

(** ... then [play] at once. *)
Definition playing : Result RehearsalPlayer.Player :=
  st <- shown ;; RehearsalPlayer.play 1000 st.



(** A session that steps to the second point and is then torn down. *)
Definition toured : Result RehearsalPlayer.Player :=
  st <- shown ;;
  st <- RehearsalPlayer.next 2000 st ;;
  Ok (RehearsalPlayer.destroy 9000 st).

(** ** The sample drive, step by step *)

(** The flattened steps of the sample drive. *)
Definition driveFlat : list FlatStep :=
  Eval vm_compute in
    match flattenSteps sampleStripHtml sampleHeading drive with
    | Ok flat => flat
    | Throw _ => []
    end.

(** The points of the sample drive after a rehearsal: 7 s on the first
    point (commitment level low), 4 s on the second (high), 3 s on the
    roundabout (high), no dwell on the other two. *)
Definition rehearsedPoints : list DecisionPoint :=
  RehearsalPlayer.update 0 (RehearsalPlayer.set_dwellSeconds 7)
    (RehearsalPlayer.update 1 (RehearsalPlayer.set_dwellSeconds 4)
       (RehearsalPlayer.update 4 (RehearsalPlayer.set_dwellSeconds 3) drivePoints)).

(** Three brief visits: 0.15 s at the points 0 and 3 (low commitment) and
    0.1 s at the point 2 (medium), the dwells being the doubles the
    sequencer writes for 150 ms and 100 ms. *)
Definition briefVisits : list DecisionPoint :=
  RehearsalPlayer.update 0 (RehearsalPlayer.set_dwellSeconds (App.toDouble (15 # 100)))
    (RehearsalPlayer.update 2 (RehearsalPlayer.set_dwellSeconds (App.toDouble (1 # 10)))
       (RehearsalPlayer.update 3 (RehearsalPlayer.set_dwellSeconds (App.toDouble (15 # 100)))
          drivePoints)).

(** Two brief visits: 0.12 s at the point 0 (low commitment) and 0.08 s at
    the point 2 (medium). *)
Definition tiedVisits : list DecisionPoint :=
  RehearsalPlayer.update 0 (RehearsalPlayer.set_dwellSeconds (App.toDouble (12 # 100)))
    (RehearsalPlayer.update 2 (RehearsalPlayer.set_dwellSeconds (App.toDouble (8 # 100)))
       drivePoints).

(** The scored steps of the sample drive. *)
Definition driveScored : list ScoredStep :=
  Eval vm_compute in scoreSteps driveFlat.

End Samples.

(* ===================================================================== *)
(** * The design document's formulas, and vocabulary for the statements *)
(* ===================================================================== *)

Module Documented.
Import RouteAnalyzer.
Open Scope Z_scope.

(** "Target count: round(totalKilometers / 7) + 5, clamped to [6, 12]",
    with no other case. *)
Definition targetCountBySpec (totalKilometers : Q) : Z :=
  clamp (round (totalKilometers / inject_Z 7)%Q + 5) 6 12.

(** "totalKilometers is the sum of the per-leg distances". *)
Definition totalKilometers (route : Route) : Q :=
  (inject_Z (totalMeters route) / inject_Z 1000)%Q.

(** The maneuver code says roundabout (roundabout-left or -right): the
    first test of [isRoundaboutStep]. *)
Definition isRoundaboutCode (m : option string) : bool :=
  match complexManeuver m with
  | Some TRoundabout => true
  | _ => false
  end.

(** Every step of the route has a start location and its bearing is
    computed without a throw. *)
Definition located (computeHeading : option LatLng -> option LatLng -> Result Q)
           (route : Route) : Prop :=
  forall leg, In leg (legs route) ->
  forall s, In s (steps leg) ->
    start_location s <> None /\
    returns (computeHeading (start_location s) (end_location s)) = true.

(** The state of the two loops of [flattenSteps]: the counter is the length
    of [flat] and every entry sits at its order index. *)
Definition counted (st : list FlatStep * Z) : Prop :=
  snd st = len (fst st) /\
  forall i e, nth_error (fst st) i = Some e -> orderIndex e = Z.of_nat i.

(** An entry of the first pass over the selection map: a main step under
    its own order index. *)
Definition mainEntry (mains : list ScoredStep) (kv : Z * Selected) : Prop :=
  exists m, In m mains /\ kv = (orderIndex (entry m), asMain m).

(** An entry of the second pass: the lead-in of a main step. *)
Definition leadEntry (steps mains : list ScoredStep) (kv : Z * Selected) : Prop :=
  exists m l, In m mains /\ getLeadInStep m steps = Some l /\
              kv = (orderIndex (entry l), asLeadIn l).

(** Every step sits at the position its order index names. *)
Definition positioned (steps : list ScoredStep) : Prop :=
  forall i s, nth_error steps i = Some s -> orderIndex (entry s) = Z.of_nat i.

(** The distance does not depend on the order of its two points. *)
Definition symmetric (haversineDistance : Q -> Q -> Q -> Q -> Q) : Prop :=
  forall lat1 lng1 lat2 lng2,
    (haversineDistance lat1 lng1 lat2 lng2 == haversineDistance lat2 lng2 lat1 lng1)%Q.

(** Any two steps of the list with different order indices are at least
    the spacing threshold apart. *)
Definition spaced (haversineDistance : Q -> Q -> Q -> Q -> Q) (l : list ScoredStep) : Prop :=
  forall a b, In a l -> In b l ->
    orderIndex (entry a) <> orderIndex (entry b) ->
    (inject_Z SPACING_METERS <=
       haversineDistance (lat (entry a)) (lng (entry a))
                         (lat (entry b)) (lng (entry b)))%Q.

(** Every lead-in of the list is followed in the route by a step of the
    list that is not a lead-in. *)
Definition paired (l : list Selected) : Prop :=
  forall p, In p l -> isLeadIn p = true ->
    exists q, In q l /\ isLeadIn q = false /\
              sel_orderIndex q = sel_orderIndex p + 1.

(** The steps of the list that are not lead-ins are main selections. *)
Definition fromMains (mains : list ScoredStep) (l : list Selected) : Prop :=
  forall p, In p l -> isLeadIn p = false -> exists m, In m mains /\ p = asMain m.

(** No two steps of the list share an order index. *)
Definition uniqueKeys (l : list Selected) : Prop := NoDup (map sel_orderIndex l).


(** At most one timer is pending, and [playTimer] holds its handle. *)
Definition timersOwned (st : RehearsalPlayer.Player) : Prop :=
  RehearsalPlayer.timers st = [] \/
  exists h d, RehearsalPlayer.timers st = [(h, d)] /\
              RehearsalPlayer.playTimer st = Some h.

(** A call on a sequencer without points left it as it was, but for the
    pending measurement and the log of notifications. *)
Definition untouched (st st' : RehearsalPlayer.Player) : Prop :=
  RehearsalPlayer.thePoints st' = [] /\
  RehearsalPlayer.heap st' = RehearsalPlayer.heap st /\
  RehearsalPlayer.panorama st' = RehearsalPlayer.panorama st /\
  RehearsalPlayer.currentIndex st' = RehearsalPlayer.currentIndex st /\
  RehearsalPlayer.isPlaying st' = false /\
  incl (RehearsalPlayer.timers st') (RehearsalPlayer.timers st).

(** The invariant of the sequencer: the index is not negative, at most the
    play timer is pending, a sequencer without points does not play, and a
    sequencer with points has its panorama. *)
Definition sound (st : RehearsalPlayer.Player) : Prop :=
  0 <= RehearsalPlayer.currentIndex st /\
  timersOwned st /\
  (RehearsalPlayer.thePoints st = [] -> RehearsalPlayer.isPlaying st = false) /\
  (RehearsalPlayer.thePoints st <> [] -> RehearsalPlayer.panorama st <> None).

(** The states the module reaches from its loading, over a heap that holds
    the arrays its callers pass: by the exported functions, by an [init]
    that throws on an empty array, and by the expiry of a pending timer. *)
Inductive reachable : RehearsalPlayer.Player -> Prop :=
| reach_loaded (h : list (list DecisionPoint)) :
    reachable (RehearsalPlayer.loaded h)
| reach_init (st st' : RehearsalPlayer.Player) (a : nat) (callback : bool) (now : Z) :
    reachable st -> RehearsalPlayer.init a callback now st = Ok st' -> reachable st'
| reach_init_thrown (st : RehearsalPlayer.Player) (a : nat) (callback : bool) (now : Z) :
    reachable st -> RehearsalPlayer.init a callback now st = Throw TypeError ->
    reachable (RehearsalPlayer.initReset a callback st)
| reach_play (st st' : RehearsalPlayer.Player) (now : Z) :
    reachable st -> RehearsalPlayer.play now st = Ok st' -> reachable st'
| reach_pause (st : RehearsalPlayer.Player) :
    reachable st -> reachable (RehearsalPlayer.pause st)
| reach_togglePlay (st st' : RehearsalPlayer.Player) (now : Z) :
    reachable st -> RehearsalPlayer.togglePlay now st = Ok st' -> reachable st'
| reach_next (st st' : RehearsalPlayer.Player) (now : Z) :
    reachable st -> RehearsalPlayer.next now st = Ok st' -> reachable st'
| reach_prev (st st' : RehearsalPlayer.Player) (now : Z) :
    reachable st -> RehearsalPlayer.prev now st = Ok st' -> reachable st'
| reach_setSpeed (st st' : RehearsalPlayer.Player) (newSpeed : Q) (now : Z) :
    reachable st -> RehearsalPlayer.setSpeed newSpeed now st = Ok st' -> reachable st'
| reach_goTo (st st' : RehearsalPlayer.Player) (index now : Z) :
    reachable st -> RehearsalPlayer.goTo index now st = Ok st' -> reachable st'
| reach_destroy (st : RehearsalPlayer.Player) (now : Z) :
    reachable st -> reachable (RehearsalPlayer.destroy now st)
| reach_timerFires (st st' : RehearsalPlayer.Player) (h : nat) (now : Z) :
    reachable st -> RehearsalPlayer.timerFires h now st = Ok st' -> reachable st'.

(** ** The vocabulary of the further properties *)

(** [within prev s p t]: [t] is a suffix of the text [s] and [p] is the
    character before it ([prev] when [t] is [s] itself). *)
Inductive within (prev : option ascii) (s : list ascii)
  : option ascii -> list ascii -> Prop :=
| within_here : within prev s prev s
| within_next (p : option ascii) (x : ascii) (t : list ascii) :
    within prev s p (x :: t) -> within prev s (Some x) t.

(** The key of a scored step in the selection map. *)
Definition step_key (s : ScoredStep) : Z := orderIndex (entry s).

(** A selected step that is not a lead-in. *)
Definition isMain (p : Selected) : bool := negb (isLeadIn p).

(** The filter of the candidates in [selectRehearsalSteps]. *)
Definition isCandidate (s : ScoredStep) : bool :=
  (score (scored s) >? 0) && negb (exclude (scored s)).

(** [a] comes before [b] in the candidate sort: it scores more, or the
    same and is not later in the route. *)
Definition ahead (a b : ScoredStep) : Prop :=
  score (scored b) < score (scored a) \/
  (score (scored a) = score (scored b) /\ orderIndex (entry a) <= orderIndex (entry b)).

(** [candidate] is within the spacing threshold of [existing]. *)
Definition near (haversineDistance : Q -> Q -> Q -> Q -> Q)
           (candidate existing : ScoredStep) : Prop :=
  (haversineDistance (lat (entry candidate)) (lng (entry candidate))
                     (lat (entry existing)) (lng (entry existing))
   < inject_Z SPACING_METERS)%Q.

(** The entry [e] records the step at its leg and step index. *)
Definition flattenedFrom (stripHtml : string -> string)
           (computeHeading : option LatLng -> option LatLng -> Result Q)
           (route : Route) (e : FlatStep) : Prop :=
  exists leg start,
    nth_Z (legs route) (legIndex e) = Some leg /\
    nth_Z (steps leg) (stepIndex e) = Some (step e) /\
    start_location (step e) = Some start /\
    lat e = lat_of start /\ lng e = lng_of start /\
    computeHeading (start_location (step e)) (end_location (step e)) = Ok (heading e) /\
    instructionHtml e = orEmpty (instructions (step e)) /\
    instruction e = stripHtml (orEmpty (instructions (step e))) /\
    distanceMeters e = match distance (step e) with Some d => value d | None => 0 end /\
    distanceText e = match distance (step e) with Some d => text d | None => EmptyString end /\
    entry_maneuver e = orNull (maneuver (step e)).

(** [a] comes before [b] in the route: in an earlier leg, or earlier in
    the same leg. *)
Definition routeBefore (a b : FlatStep) : Prop :=
  legIndex a < legIndex b \/ (legIndex a = legIndex b /\ stepIndex a < stepIndex b).

Definition routeOrdered (flat : list FlatStep) : Prop :=
  forall i j a b,
    nth_error flat i = Some a -> nth_error flat j = Some b -> (i < j)%nat ->
    routeBefore a b.

(** The state of the loops of [flattenSteps] at leg [li], step [si]. *)
Definition flattenedUpTo (stripHtml : string -> string)
           (computeHeading : option LatLng -> option LatLng -> Result Q)
           (route : Route) (li si : Z) (st : list FlatStep * Z) : Prop :=
  (forall e, In e (fst st) ->
     flattenedFrom stripHtml computeHeading route e /\
     (legIndex e < li \/ (legIndex e = li /\ stepIndex e < si))) /\
  routeOrdered (fst st).

(** With points, the index is an index of the list. *)
Definition inRange (st : RehearsalPlayer.Player) : Prop :=
  RehearsalPlayer.thePoints st <> [] ->
  RehearsalPlayer.currentIndex st < len (RehearsalPlayer.thePoints st).

Definition bounded (st : RehearsalPlayer.Player) : Prop := sound st /\ inRange st.

(** Between two calls: a timer is pending exactly while the sequencer
    plays, and it plays only before the last point and at a speed that is
    not the skip value. *)
Definition settled (st : RehearsalPlayer.Player) : Prop :=
  (RehearsalPlayer.isPlaying st = false -> RehearsalPlayer.timers st = []) /\
  (RehearsalPlayer.isPlaying st = true ->
   RehearsalPlayer.timers st <> [] /\
   RehearsalPlayer.currentIndex st < len (RehearsalPlayer.thePoints st) - 1 /\
   Qeq_bool (RehearsalPlayer.speed st) 0 = false).

Definition steady (st : RehearsalPlayer.Player) : Prop := bounded st /\ settled st.

(** What a snapshot shows of the list it was taken from: an index that is
    not negative; with points, an index of the list and its point; without
    points, no point and no playback. *)
Definition consistent (s : RehearsalPlayer.Snapshot) : Prop :=
  0 <= RehearsalPlayer.s_currentIndex s /\
  (0 < RehearsalPlayer.total s ->
   RehearsalPlayer.s_currentIndex s < RehearsalPlayer.total s /\
   RehearsalPlayer.point s <> None) /\
  (RehearsalPlayer.total s = 0 ->
   RehearsalPlayer.point s = None /\ RehearsalPlayer.s_isPlaying s = false).

(** Every snapshot the update callback has received is consistent. *)
Definition logged (st : RehearsalPlayer.Player) : Prop :=
  forall s, In s (RehearsalPlayer.emitted st) -> consistent s.

(** [a] has at least the stress of [b]. *)
Definition atLeast (a b : App.Lingered) : Prop :=
  (App.stressScore b <= App.stressScore a)%Q.

End Documented.

(* ===================================================================== *)
(** * Properties of the scorer and of the target count *)
(* ===================================================================== *)

Module ScorerFacts.
Import Regex RouteAnalyzer Samples Documented.
Open Scope string_scope.
Open Scope list_scope.
Open Scope Z_scope.

(** ** The text of the roundabout scenario against the pattern tables *)

Lemma exit_not_cruise : isMotorwayCruise (toLowerCase exitText) = false.
Proof. vm_compute. reflexivity. Qed.

(** The generic /exit/ of the lane-commitment table matches "2nd exit". *)
Lemma exit_is_lane_cue : matchesAny LANE_COMMITMENT_PATTERNS (toLowerCase exitText) = true.
Proof. vm_compute. reflexivity. Qed.

Lemma exit_has_ordinal : hasExitOrdinal (toLowerCase exitText) = true.
Proof. vm_compute. reflexivity. Qed.

Lemma exit_no_signage :
  matchesAny VISUAL_OVERLOAD_PATTERNS exitText
  || matchesAny VISUAL_OVERLOAD_PATTERNS (toLowerCase exitText) = false.
Proof. vm_compute. reflexivity. Qed.

Lemma exit_no_pressure : matchesAny SOCIAL_PRESSURE_PATTERNS (toLowerCase exitText) = false.
Proof. vm_compute. reflexivity. Qed.

Lemma roundabout_code_is_roundabout (s : RawStep) (html : string) :
  maneuver s = Some "roundabout-right" -> isRoundaboutStep s html = true.
Proof. intros Hm. unfold isRoundaboutStep. rewrite Hm. reflexivity. Qed.

(** C1, as the code has it.  A step with the text "At the roundabout, take
    the 2nd exit" and maneuver code roundabout-right (whatever its
    distance, 80 m included) gets the reasons lane-commitment, roundabout
    and roundabout-exit, in this order: the lane-commitment table holds
    the generic pattern /exit/, which the text matches.  Its score is
    6 + 4 + 2 = 12 when no step follows, and 12, 16 or 18 in general (a
    short-window bonus may join); its type is roundabout, it is primary and
    it is not excluded. *)
Theorem roundabout_exit_scenario (e : FlatStep) (context : Context) :
  instruction e = exitText ->
  instructionHtml e = exitText ->
  maneuver (step e) = Some "roundabout-right" ->
  let r := scoreStep e context in
  (next context = None ->
     score r = 12 /\ reasons r = [RLaneCommitment; RRoundabout; RRoundaboutExit]) /\
  (exists rest, reasons r = [RLaneCommitment; RRoundabout; RRoundaboutExit] ++ rest) /\
  (score r = 12 \/ score r = 16 \/ score r = 18) /\
  includes (reasons r) RLaneCommitment = true /\
  type r = TRoundabout /\ isPrimary r = true /\ exclude r = false.
Proof.
  intros Hi Hh Hm r.
  pose proof (roundabout_code_is_roundabout (step e) exitText Hm) as Hround.
  subst r. unfold scoreStep. rewrite Hi, Hh.
  rewrite exit_not_cruise, exit_is_lane_cue, Hround, exit_has_ordinal,
    exit_no_signage, exit_no_pressure.
  unfold deriveType. rewrite Hround.
  destruct (next context) as [nxt|]; cbn [bump fst snd app];
    [ destruct (isPrepareStep _ && isMajorManeuver _);
      [ destruct ((distanceMeters nxt >? 0) && (distanceMeters nxt <=? 120));
        [ | destruct ((distanceMeters nxt >? 0) && (distanceMeters nxt <=? 250)) ] | ] | ];
    cbn [bump fst snd app]; rewrite andb_false_r; cbn;
    repeat split; try discriminate; eauto.
Qed.

Lemma roundabout_exit_scenario_witness :
  score (scoreStep exitEntry noContext) = 12 /\
  reasons (scoreStep exitEntry noContext) = [RLaneCommitment; RRoundabout; RRoundaboutExit].
Proof.
  destruct (roundabout_exit_scenario exitEntry noContext eq_refl eq_refl eq_refl)
    as [Hfirst _].
  apply Hfirst. reflexivity.
Defined.

(** C1 as the design document has it (score 6, no lane-commitment) fails on
    the scenario's own step. *)
Lemma roundabout_exit_scenario_counterexample :
  distanceMeters exitEntry = 80 /\
  maneuver (step exitEntry) = Some "roundabout-right" /\
  instruction exitEntry = "At the roundabout, take the 2nd exit" /\
  score (scoreStep exitEntry noContext) <> 6 /\
  includes (reasons (scoreStep exitEntry noContext)) RLaneCommitment = true.
Proof. vm_compute. repeat split; congruence. Qed.

(** ** The other scenarios of the design document, and the matcher *)

(** Motorway suppression: "Continue on M25 for 12 mi" scores 0 and is
    excluded, also right before a merge 100 m long. *)
Example motorway_suppression :
  scoreStep cruiseEntry noContext =
    {| score := 0; reasons := [RMotorwayCruise]; exclude := true;
       type := TComplex; isPrimary := false |} /\
  scoreStep cruiseEntry {| next := Some mergeEntry; prev := None |} =
    scoreStep cruiseEntry noContext.
Proof. vm_compute. split; reflexivity. Qed.

(** Short window: "Prepare to merge onto M4" before a merge 100 m long gets
    lane-commitment (6), short-window (6) and signage (2). *)
Example short_window_merge :
  scoreStep prepareEntry {| next := Some mergeEntry; prev := None |} =
    {| score := 14; reasons := [RLaneCommitment; RShortWindow; RSignage];
       exclude := false; type := TMerge; isPrimary := false |}.
Proof. vm_compute. reflexivity. Qed.

(** The matcher on the constructs of the tables: case, [\s+], [\b] and
    [\d+], the optional [s], alternatives. *)
Example matcher_samples :
  test (words ["keep"; "left"]) "Keep   LEFT at the fork" = true /\
  test (words ["keep"; "left"]) "keepleft" = false /\
  test (roadNumber "A") "onto the a40 towards" = true /\
  test (roadNumber "A") "onto the a40x" = false /\
  test (roadNumber "A") "plaza40" = false /\
  test (Cat (lit "sign") (Opt (lit "s"))) "follow the sign" = true /\
  hasExitOrdinal "take the 3rd  exit" = true /\
  hasExitOrdinal "take the third exit" = false /\
  test (lit "u-turn") "Make a U-turn" = true.
Proof. vm_compute. repeat split. Qed.

(** ** Target count *)

Lemma clamp_bounds (v lo hi : Z) : lo <= hi -> lo <= clamp v lo hi <= hi.
Proof. unfold clamp. lia. Qed.

(** [Math.round] of a quotient of integers, in integer arithmetic. *)
Lemma round_quotient (t : Z) :
  round (inject_Z t / inject_Z 1000 / inject_Z 7)%Q = (t + 3500) / 7000.
Proof.
  unfold round.
  assert (Heq : (inject_Z t / inject_Z 1000 / inject_Z 7 + (1 # 2) == (t + 3500) # 7000)%Q).
  { unfold Qeq, Qdiv, Qmult, Qplus, Qinv, inject_Z. cbn. ring. }
  rewrite (Qfloor_comp _ _ Heq).
  reflexivity.
Qed.

(** The target count in integer arithmetic: 8 for a route without a
    measured length, else the rounded seventh of the kilometres plus 5,
    kept within 6 and 12. *)
Lemma getTargetCount_integer (route : Route) :
  getTargetCount route =
    if totalMeters route =? 0 then 8
    else Z.max 6 (Z.min 12 ((totalMeters route + 3500) / 7000 + 5)).
Proof.
  unfold getTargetCount. destruct (totalMeters route =? 0); [reflexivity|].
  rewrite round_quotient. reflexivity.
Qed.

Lemma getTargetCount_bounds (route : Route) : 6 <= getTargetCount route <= 12.
Proof.
  rewrite getTargetCount_integer. destruct (totalMeters route =? 0); lia.
Qed.

(** C5, as the code has it.  For every route whose summed leg distances
    are not zero, the target count is round(totalKilometers / 7) + 5
    clamped to [6, 12] (hence between 6 and 12), and a route of 70 km
    yields 12.  (A route whose sum is zero is given 8 by a guard of its
    own, see [getTargetCount_unmeasured].) *)
Theorem target_count_formula (route : Route) :
  totalMeters route <> 0 ->
  getTargetCount route = targetCountBySpec (totalKilometers route) /\
  6 <= getTargetCount route <= 12 /\
  (totalMeters route = 70000 -> getTargetCount route = 12).
Proof.
  intros Hnz. split; [|split].
  - unfold getTargetCount, targetCountBySpec, totalKilometers.
    destruct (Z.eqb_spec (totalMeters route) 0) as [Hz|_]; [contradiction|].
    reflexivity.
  - apply getTargetCount_bounds.
  - intros H70. rewrite getTargetCount_integer, H70. reflexivity.
Qed.

Lemma target_count_formula_witness :
  totalMeters seventyKm = 70000 /\
  getTargetCount seventyKm = targetCountBySpec (totalKilometers seventyKm) /\
  getTargetCount seventyKm = 12.
Proof.
  assert (Hnz : totalMeters seventyKm <> 0) by (vm_compute; discriminate).
  destruct (target_count_formula seventyKm Hnz) as [Hspec [_ H70]].
  split; [reflexivity|]. split; [exact Hspec|]. apply H70. reflexivity.
Defined.

(** The guard for a route without a measured length. *)
Lemma getTargetCount_unmeasured (route : Route) :
  totalMeters route = 0 -> getTargetCount route = 8.
Proof. intros Hz. unfold getTargetCount. rewrite Hz. reflexivity. Qed.

(** C5 as the design document has it ("for every route") fails on a route
    whose legs carry no distance: the formula gives 6, the code 8. *)
Lemma target_count_counterexample :
  getTargetCount unmeasured <> targetCountBySpec (totalKilometers unmeasured) /\
  totalMeters unmeasured = 0 /\
  targetCountBySpec (totalKilometers unmeasured) = 6 /\
  getTargetCount unmeasured = 8.
Proof. vm_compute. repeat split. discriminate. Qed.

(** ** Steps with missing fields *)

Lemma empty_lower : toLowerCase "" = "".
Proof. reflexivity. Qed.

Lemma empty_not_cruise : isMotorwayCruise "" = false.
Proof. vm_compute. reflexivity. Qed.

Lemma empty_no_lane : matchesAny LANE_COMMITMENT_PATTERNS "" = false.
Proof. vm_compute. reflexivity. Qed.

Lemma empty_no_roundabout : matchesAny ROUNDABOUT_PATTERNS "" = false.
Proof. vm_compute. reflexivity. Qed.

Lemma empty_no_ordinal : hasExitOrdinal "" = false.
Proof. vm_compute. reflexivity. Qed.

Lemma empty_no_prepare : isPrepareStep "" = false.
Proof. vm_compute. reflexivity. Qed.

Lemma empty_no_signage : matchesAny VISUAL_OVERLOAD_PATTERNS "" = false.
Proof. vm_compute. reflexivity. Qed.

Lemma empty_no_pressure : matchesAny SOCIAL_PRESSURE_PATTERNS "" = false.
Proof. vm_compute. reflexivity. Qed.

Lemma empty_no_keyword : existsb (fun kw => test (fst kw) "") COMPLEXITY_KEYWORDS = false.
Proof. vm_compute. reflexivity. Qed.

Lemma empty_roundabout_step (s : RawStep) :
  instructions s = None -> isRoundaboutStep s "" = isRoundaboutCode (maneuver s).
Proof.
  intros Hi. unfold isRoundaboutStep, isRoundaboutCode, orElse.
  rewrite Hi. cbn [String.eqb orEmpty].
  fold (matchesAny ROUNDABOUT_PATTERNS ""). rewrite empty_no_roundabout.
  destruct (complexManeuver (maneuver s)) as [[]|]; reflexivity.
Qed.

Lemma empty_no_signal (s : RawStep) :
  instructions s = None -> hasComplexitySignal s "" = false.
Proof.
  intros Hi. unfold hasComplexitySignal, orElse. rewrite Hi. cbn [String.eqb orEmpty].
  fold (matchesAny ROUNDABOUT_PATTERNS "").
  fold (matchesAny LANE_COMMITMENT_PATTERNS "").
  rewrite empty_no_keyword, empty_no_roundabout, empty_no_lane. reflexivity.
Qed.

(** C3, as the code has it.  For a step that carries its start location
    and whose bearing is computed, the flattening does not throw; a missing
    distance becomes 0 metres and the empty text; missing instructions
    become the empty string, which matches no pattern table, and then the
    step scores 0 with no reason and is excluded, unless its maneuver code
    says roundabout: such a step is kept, is primary and scores 4 (or 1
    when its distance is between 0 and 120 m). *)
Theorem malformed_step_defaults
  (stripHtml : string -> string)
  (computeHeading : option LatLng -> option LatLng -> Result Q)
  (oi li si : Z) (s : RawStep) (h : Q) (context : Context) :
  stripHtml "" = "" ->
  start_location s <> None ->
  computeHeading (start_location s) (end_location s) = Ok h ->
  exists e,
    flattenStep stripHtml computeHeading oi li si s = Ok e /\
    (distance s = None -> distanceMeters e = 0 /\ distanceText e = "") /\
    (instructions s = None ->
       instructionHtml e = "" /\ instruction e = "" /\
       matchesAny ROUNDABOUT_PATTERNS (instruction e) = false /\
       matchesAny LANE_COMMITMENT_PATTERNS (instruction e) = false /\
       matchesAny PREPARE_PATTERNS (instruction e) = false /\
       matchesAny VISUAL_OVERLOAD_PATTERNS (instruction e) = false /\
       matchesAny SOCIAL_PRESSURE_PATTERNS (instruction e) = false /\
       existsb (fun kw => test (fst kw) (instruction e)) COMPLEXITY_KEYWORDS = false /\
       let r := scoreStep e context in
       if isRoundaboutCode (maneuver s)
       then exclude r = false /\ isPrimary r = true /\
            score r = (if (distanceMeters e >? 0) && (distanceMeters e <? 120) then 1 else 4)
       else score r = 0 /\ exclude r = true /\ reasons r = []).
Proof.
  intros Hstrip Hstart Hheading.
  destruct (start_location s) as [loc|] eqn:Hloc; [|contradiction].
  unfold flattenStep. rewrite Hloc, Hheading. cbn [bind].
  eexists. split; [reflexivity|]. split.
  - intros Hd. rewrite Hd. cbn. split; reflexivity.
  - intros Hi. rewrite Hi. cbn [orEmpty instructionHtml instruction]. rewrite Hstrip.
    split; [reflexivity|]. split; [reflexivity|].
    split; [apply empty_no_roundabout|]. split; [apply empty_no_lane|].
    split; [apply empty_no_prepare|]. split; [apply empty_no_signage|].
    split; [apply empty_no_pressure|]. split; [apply empty_no_keyword|].
    unfold scoreStep. cbn [instructionHtml instruction step distanceMeters].
    rewrite empty_lower, empty_not_cruise, empty_no_lane, empty_no_ordinal,
      empty_no_signage, empty_no_pressure, empty_no_prepare,
      (empty_roundabout_step s Hi), (empty_no_signal s Hi).
    unfold deriveType. rewrite (empty_roundabout_step s Hi).
    cbn [andb orb negb].
    destruct (isRoundaboutCode (maneuver s)).
    + cbn [bump fst snd app].
      destruct ((_ >? 0) && (_ <? 120)); cbn [bump fst snd app];
        destruct (next context); cbn; auto.
    + destruct (next context); cbn; auto.
Qed.

Lemma malformed_step_defaults_witness :
  exists e,
    flattenStep sampleStripHtml sampleHeading 0 0 0 bareStep = Ok e /\
    distanceMeters e = 0 /\ distanceText e = "" /\ instruction e = "" /\
    score (scoreStep e noContext) = 0 /\ exclude (scoreStep e noContext) = true.
Proof.
  assert (Hstart : start_location bareStep <> None) by discriminate.
  destruct (malformed_step_defaults sampleStripHtml sampleHeading 0 0 0 bareStep
              (h := 0%Q) noContext eq_refl Hstart eq_refl)
    as [e [Hflat [Hdist Hinstr]]].
  exists e. split; [exact Hflat|].
  destruct (Hdist eq_refl) as [Hmetres Htext].
  destruct (Hinstr eq_refl) as [_ [Hempty [_ [_ [_ [_ [_ [_ Hscore]]]]]]]].
  cbn in Hscore. destruct Hscore as [Hzero [Hexcl _]].
  repeat split; assumption.
Defined.

(** A step without a start location makes the flattening throw, whatever
    the environment. *)
Lemma flattenStep_without_start
  (stripHtml : string -> string)
  (computeHeading : option LatLng -> option LatLng -> Result Q)
  (oi li si : Z) (s : RawStep) :
  start_location s = None ->
  returns (flattenStep stripHtml computeHeading oi li si s) = false.
Proof.
  intros Hloc. unfold flattenStep. rewrite Hloc.
  destruct (computeHeading None (end_location s)); reflexivity.
Qed.

(** C3 as the design document has it fails twice: a step without
    instructions whose maneuver code is roundabout-left scores 4 and is
    kept, not excluded; and a route with a step that has no start
    location makes [analyze] throw. *)
Lemma malformed_step_counterexample :
  (exists e,
     flattenStep sampleStripHtml sampleHeading 0 0 0 bareRoundabout = Ok e /\
     instructions (step e) = None /\ instruction e = "" /\
     score (scoreStep e noContext) = 4 /\
     exclude (scoreStep e noContext) = false) /\
  start_location lostStep = None /\
  analyzeSample (Some [lostRoute]) = Throw TypeError.
Proof.
  split; [|split; reflexivity].
  eexists. split; [reflexivity|]. vm_compute. repeat split.
Qed.

End ScorerFacts.

(* ===================================================================== *)
(** * Properties of the selection *)
(* ===================================================================== *)

Module SelectorFacts.
Import RouteAnalyzer Samples Documented.
Open Scope string_scope.
Open Scope list_scope.
Open Scope Z_scope.

(** ** Sorting, indexed maps and loops *)

Section ListFacts.
Variables A B : Type.

Lemma insertBy_perm (cmp : A -> A -> Z) (x : A) (l : list A) :
  Permutation (insertBy cmp x l) (x :: l).
Proof.
  induction l as [|y ys IH]; cbn; [reflexivity|].
  destruct (cmp x y <=? 0); [reflexivity|].
  rewrite IH. apply perm_swap.
Qed.

Lemma sortBy_perm (cmp : A -> A -> Z) (l : list A) :
  Permutation (sortBy cmp l) l.
Proof.
  induction l as [|x xs IH]; cbn; [reflexivity|].
  rewrite insertBy_perm. now constructor.
Qed.

Lemma sortBy_In (cmp : A -> A -> Z) (l : list A) (x : A) :
  In x (sortBy cmp l) <-> In x l.
Proof.
  split; apply Permutation_in; [|symmetry]; apply sortBy_perm.
Qed.

Lemma nth_error_mapi (f : A -> Z -> B) (l : list A) :
  forall (k : Z) (i : nat),
    nth_error (mapi f k l) i =
    option_map (fun x => f x (k + Z.of_nat i)) (nth_error l i).
Proof.
  induction l as [|x xs IH]; intros k i.
  - destruct i; reflexivity.
  - destruct i as [|i]; cbn [mapi nth_error option_map].
    + rewrite Z.add_0_r. reflexivity.
    + rewrite IH. destruct (nth_error xs i); cbn; [|reflexivity].
      do 2 f_equal. lia.
Qed.

Lemma In_mapi (f : A -> Z -> B) (l : list A) (k : Z) (y : B) :
  In y (mapi f k l) -> exists x i, In x l /\ y = f x i.
Proof.
  intros Hin. apply In_nth_error in Hin. destruct Hin as [i Hi].
  rewrite nth_error_mapi in Hi.
  destruct (nth_error l i) as [x|] eqn:Hx; [|discriminate].
  injection Hi as <-. exists x, (k + Z.of_nat i). split; [|reflexivity].
  eapply nth_error_In; eassumption.
Qed.

Lemma nth_Z_position (l : list A) (i : Z) (x : A) :
  nth_Z l i = Some x -> 0 <= i /\ nth_error l (Z.to_nat i) = Some x.
Proof.
  unfold nth_Z. destruct (Z.ltb_spec i 0); [discriminate|]. auto.
Qed.

Lemma NoDup_map_filter (key : A -> B) (keep : A -> bool) (l : list A) :
  NoDup (map key l) -> NoDup (map key (filter keep l)).
Proof.
  induction l as [|x xs IH]; cbn; intros Hnd; [constructor|].
  inversion Hnd as [|? ? Hnotin Hrest]; subst.
  destruct (keep x); cbn; auto.
  constructor; auto.
  intros Hin. apply Hnotin. apply in_map_iff in Hin.
  destruct Hin as [y [Hy Hiny]]. apply filter_In in Hiny.
  apply in_map_iff. exists y. tauto.
Qed.

(** Two entries with the same key in a list whose keys are distinct. *)
Lemma NoDup_map_same_key (key : A -> B) (l : list A) (x y : A) :
  NoDup (map key l) -> In x l -> In y l -> key x = key y -> x = y.
Proof.
  induction l as [|z zs IH]; cbn; intros Hnd Hx Hy Hk; [contradiction|].
  inversion Hnd as [|? ? Hnotin Hrest]; subst.
  destruct Hx as [->|Hx], Hy as [->|Hy]; auto.
  - exfalso. apply Hnotin. rewrite Hk. now apply in_map.
  - exfalso. apply Hnotin. rewrite <- Hk. now apply in_map.
Qed.

Lemma NoDup_map_positions (key : A -> B) (l : list A) (i j : nat) (x y : A) :
  NoDup (map key l) -> nth_error l i = Some x -> nth_error l j = Some y ->
  i <> j -> key x <> key y.
Proof.
  intros Hnd Hi Hj Hij Hk. apply Hij.
  assert (Hlen : (i < List.length (map key l))%nat).
  { rewrite length_map. apply nth_error_Some. congruence. }
  apply (proj1 (NoDup_nth_error (map key l)) Hnd i j Hlen).
  rewrite !nth_error_map, Hi, Hj. cbn. now rewrite Hk.
Qed.

(** A loop invariant for [forEach]: kept by every step that returns. *)
Lemma forEach_invariant (S T : Type) (f : S -> T -> Z -> Result S) (P : S -> Prop) :
  (forall st x i st', P st -> f st x i = Ok st' -> P st') ->
  forall (l : list T) (i : Z) (st st' : S),
    P st -> forEach f i l st = Ok st' -> P st'.
Proof.
  intros Hstep. induction l as [|x xs IH]; cbn; intros i st st' HP Hrun.
  - now injection Hrun as <-.
  - destruct (f st x i) as [st1|] eqn:Hf; cbn in Hrun; [|discriminate].
    eapply IH; [|eassumption]. eapply Hstep; eassumption.
Qed.

(** [forEach] returns when every step does. *)
Lemma forEach_returns (S T : Type) (f : S -> T -> Z -> Result S) (Good : T -> Prop) :
  (forall st x i, Good x -> returns (f st x i) = true) ->
  forall (l : list T) (i : Z) (st : S),
    (forall x, In x l -> Good x) -> returns (forEach f i l st) = true.
Proof.
  intros Hstep. induction l as [|x xs IH]; cbn; intros i st Hall; [reflexivity|].
  pose proof (Hstep st x i (Hall x (or_introl eq_refl))) as Hx.
  destruct (f st x i) as [st1|]; [|discriminate]. cbn.
  apply IH. intros y Hy. apply Hall. now right.
Qed.
End ListFacts.

(** ** The selection map *)

Section MapFacts.
Variable V : Type.
Implicit Types (m : list (Z * V)) (k : Z) (v : V).

Lemma map_has_keys k m : map_has k m = true <-> In k (map fst m).
Proof.
  unfold map_has. rewrite existsb_exists, in_map_iff.
  split; intros [kv [H1 H2]]; exists kv.
  - split; [now apply Z.eqb_eq|assumption].
  - split; [assumption|now apply Z.eqb_eq].
Qed.

Lemma map_set_keys k v m :
  map fst (map_set k v m) =
  if map_has k m then map fst m else map fst m ++ [k].
Proof.
  induction m as [|[k' v'] rest IH]; cbn; [reflexivity|].
  unfold map_has in *. cbn.
  destruct (Z.eqb_spec k' k) as [->|Hne]; cbn; [reflexivity|].
  rewrite IH. destruct (existsb _ rest); reflexivity.
Qed.

Lemma map_set_NoDup k v m :
  NoDup (map fst m) -> NoDup (map fst (map_set k v m)).
Proof.
  intros Hnd. rewrite map_set_keys.
  destruct (map_has k m) eqn:Hhas; [assumption|].
  apply NoDup_app; [assumption|repeat constructor; intros []|].
  intros x Hx [<-|[]].
  apply map_has_keys in Hx. congruence.
Qed.

Lemma map_set_In k v m kv :
  In kv (map_set k v m) -> kv = (k, v) \/ In kv m.
Proof.
  induction m as [|[k' v'] rest IH]; cbn.
  - intros [<-|[]]. now left.
  - destruct (k' =? k); cbn.
    + intros [<-|Hin]; auto.
    + intros [<-|Hin]; auto. destruct (IH Hin); auto.
Qed.

Lemma map_set_has k v m : In k (map fst (map_set k v m)).
Proof.
  rewrite map_set_keys. destruct (map_has k m) eqn:Hhas.
  - now apply map_has_keys.
  - apply in_or_app. right. now left.
Qed.

Lemma map_set_keeps_keys k v m k' :
  In k' (map fst m) -> In k' (map fst (map_set k v m)).
Proof.
  intros Hin. rewrite map_set_keys. destruct (map_has k m); [assumption|].
  apply in_or_app. now left.
Qed.

Lemma map_set_fresh k v m : map_has k m = false -> map_set k v m = m ++ [(k, v)].
Proof.
  unfold map_has. induction m as [|[k' v'] rest IH]; cbn; [reflexivity|].
  destruct (k' =? k); cbn; [discriminate|].
  intros Hrest. now rewrite IH.
Qed.
End MapFacts.

(** ** Flattening *)

Section Flattening.
Variable stripHtml : string -> string.
Variable computeHeading : option LatLng -> option LatLng -> Result Q.

Lemma flattenStep_orderIndex (oi li si : Z) (s : RawStep) (e : FlatStep) :
  flattenStep stripHtml computeHeading oi li si s = Ok e -> orderIndex e = oi.
Proof.
  unfold flattenStep.
  destruct (computeHeading _ _); cbn; [|discriminate].
  destruct (start_location s); cbn; [|discriminate].
  now intros [= <-].
Qed.

Lemma flattenStep_returns (oi li si : Z) (s : RawStep) :
  start_location s <> None ->
  returns (computeHeading (start_location s) (end_location s)) = true ->
  returns (flattenStep stripHtml computeHeading oi li si s) = true.
Proof.
  intros Hloc Hhead. unfold flattenStep.
  destruct (computeHeading _ _); [|discriminate]. cbn.
  destruct (start_location s); [reflexivity|contradiction].
Qed.


Lemma flattenSteps_positions (route : Route) (flat : list FlatStep) :
  flattenSteps stripHtml computeHeading route = Ok flat ->
  forall i e, nth_error flat i = Some e -> orderIndex e = Z.of_nat i.
Proof.
  unfold flattenSteps. intros Hrun.
  destruct (forEach _ 0 (legs route) ([], 0)) as [out|] eqn:Hloop; [|discriminate].
  cbn in Hrun. injection Hrun as <-.
  enough (Hc : counted out) by apply Hc.
  revert Hloop. apply forEach_invariant.
  - intros st leg li st' Hst. apply forEach_invariant; [|exact Hst].
    clear. intros [flat oi] s si st' [Hcount Hpos]. cbn in Hcount, Hpos.
    destruct (flattenStep _ _ oi li si s) as [e|] eqn:He; cbn; [|discriminate].
    intros [= <-]. apply flattenStep_orderIndex in He.
    split; cbn.
    + unfold len in *. rewrite length_app. cbn. lia.
    + intros i e' Hnth.
      destruct (Nat.lt_ge_cases i (List.length flat)) as [Hlt|Hge].
      * rewrite nth_error_app1 in Hnth by assumption. now apply Hpos.
      * rewrite nth_error_app2 in Hnth by assumption.
        destruct (i - List.length flat)%nat as [|n] eqn:Hd; cbn in Hnth.
        -- injection Hnth as <-. rewrite He, Hcount. unfold len. lia.
        -- destruct n; discriminate.
  - split; [reflexivity|]. intros [|i] e; discriminate.
Qed.

Lemma flattenSteps_returns (route : Route) :
  located computeHeading route ->
  returns (flattenSteps stripHtml computeHeading route) = true.
Proof.
  intros Hloc. unfold flattenSteps.
  assert (Hloop : returns (forEach
           (fun st leg legIndex =>
              forEach
                (fun (st : list FlatStep * Z) s stepIndex =>
                   let '(flat, orderIndex) := st in
                   e <- flattenStep stripHtml computeHeading orderIndex legIndex stepIndex s ;;
                   Ok (flat ++ [e], orderIndex + 1))
                0 (steps leg) st)
           0 (legs route) ([], 0)) = true).
  { apply forEach_returns with (Good := fun leg => In leg (legs route)); [|auto].
    intros st leg li Hleg.
    apply forEach_returns
      with (Good := fun s => start_location s <> None /\
                             returns (computeHeading (start_location s) (end_location s)) = true).
    - intros [flat oi] s si [Hs Hh].
      pose proof (flattenStep_returns oi li si s Hs Hh) as Hret.
      destruct (flattenStep _ _ oi li si s); [reflexivity|discriminate].
    - intros s Hs. now apply (Hloc leg). }
  destruct (forEach _ 0 (legs route) ([], 0)); [reflexivity|discriminate].
Qed.

Lemma scoreSteps_positioned (flat : list FlatStep) :
  (forall i e, nth_error flat i = Some e -> orderIndex e = Z.of_nat i) ->
  positioned (scoreSteps flat).
Proof.
  intros Hpos i s Hnth. unfold scoreSteps in Hnth.
  rewrite nth_error_mapi in Hnth.
  destruct (nth_error flat i) as [e|] eqn:He; [|discriminate].
  injection Hnth as <-. cbn. now apply Hpos.
Qed.
End Flattening.

(** ** The greedy choice of the main steps *)

Section Greedy.
Variable haversineDistance : Q -> Q -> Q -> Q -> Q.
Hypothesis distance_symmetric : symmetric haversineDistance.

Lemma Qltb_false (x y : Q) : Qltb x y = false -> (y <= x)%Q.
Proof.
  unfold Qltb. intros H. apply negb_false_iff in H. now apply Qle_bool_iff.
Qed.

Lemma isTooClose_false (candidate : ScoredStep) (selected : list ScoredStep) :
  isTooClose haversineDistance candidate selected SPACING_METERS = false ->
  forall existing, In existing selected ->
    (inject_Z SPACING_METERS <=
       haversineDistance (lat (entry candidate)) (lng (entry candidate))
                         (lat (entry existing)) (lng (entry existing)))%Q.
Proof.
  unfold isTooClose. intros Hnone existing Hin.
  apply Qltb_false.
  destruct (Qltb _ _) eqn:Hclose; [|reflexivity].
  assert (Hsome : existsb
            (fun existing0 =>
               Qltb (haversineDistance (lat (entry candidate)) (lng (entry candidate))
                       (lat (entry existing0)) (lng (entry existing0)))
                    (inject_Z SPACING_METERS)) selected = true).
  { apply existsb_exists. exists existing. split; assumption. }
  congruence.
Qed.

Lemma spaced_add (selected : list ScoredStep) (candidate : ScoredStep) :
  spaced haversineDistance selected ->
  isTooClose haversineDistance candidate selected SPACING_METERS = false ->
  spaced haversineDistance (selected ++ [candidate]).
Proof.
  intros Hsp Hfar a b Ha Hb Hne.
  pose proof (isTooClose_false _ _ Hfar) as Hcand.
  apply in_app_or in Ha. apply in_app_or in Hb.
  destruct Ha as [Ha|[<-|[]]], Hb as [Hb|[<-|[]]].
  - now apply Hsp.
  - pose proof (distance_symmetric (lat (entry a)) (lng (entry a))
                  (lat (entry candidate)) (lng (entry candidate))) as Hsym.
    rewrite Hsym. now apply Hcand.
  - now apply Hcand.
  - contradiction.
Qed.

Lemma pickMain_spaced (target : Z) (sorted : list ScoredStep) :
  forall selectedMain,
    spaced haversineDistance selectedMain ->
    spaced haversineDistance (pickMain haversineDistance target sorted selectedMain).
Proof.
  induction sorted as [|candidate rest IH]; cbn; intros selectedMain Hsp; [assumption|].
  destruct (len selectedMain >=? target); [assumption|].
  destruct (isTooClose _ candidate selectedMain SPACING_METERS) eqn:Hclose.
  - now apply IH.
  - apply IH. now apply spaced_add.
Qed.

Lemma selectMain_spaced (steps : list ScoredStep) (route : Route) :
  spaced haversineDistance (selectMain haversineDistance steps route).
Proof.
  unfold selectMain. apply pickMain_spaced. intros a b [].
Qed.
End Greedy.

(** ** The selection map after the two passes *)

Section Passes.
Variable steps : list ScoredStep.
Variable mains : list ScoredStep.

Local Abbreviation mainEntry := (Documented.mainEntry mains).
Local Abbreviation leadEntry := (Documented.leadEntry steps mains).

Lemma first_pass (l : list ScoredStep) :
  forall acc,
    incl l mains ->
    NoDup (map fst acc) -> (forall kv, In kv acc -> mainEntry kv) ->
    let m1 := fold_left (fun m s => map_set (orderIndex (entry s)) (asMain s) m) l acc in
    NoDup (map fst m1) /\
    (forall kv, In kv m1 -> mainEntry kv) /\
    (forall k, In k (map fst acc) -> In k (map fst m1)) /\
    (forall s, In s l -> In (orderIndex (entry s)) (map fst m1)).
Proof.
  induction l as [|s rest IH]; cbn [fold_left]; intros acc Hincl Hnd Hall.
  - repeat split; auto. intros s [].
  - assert (Hrest : incl rest mains) by (intros x Hx; apply Hincl; now right).
    destruct (IH (map_set (orderIndex (entry s)) (asMain s) acc) Hrest)
      as [Hnd1 [Hall1 [Hkeep1 Hin1]]].
    + now apply map_set_NoDup.
    + intros kv Hkv. apply map_set_In in Hkv. destruct Hkv as [->|Hkv]; auto.
      exists s. split; [apply Hincl; now left|reflexivity].
    + repeat split; auto.
      * intros k Hk. apply Hkeep1. now apply map_set_keeps_keys.
      * intros x [<-|Hx]; auto. apply Hkeep1. apply map_set_has.
Qed.

Lemma addLeadIn_appends (m : list (Z * Selected)) (s : ScoredStep) :
  addLeadIn steps m s = m \/
  exists l, getLeadInStep s steps = Some l /\
            map_has (orderIndex (entry l)) m = false /\
            addLeadIn steps m s = m ++ [(orderIndex (entry l), asLeadIn l)].
Proof.
  unfold addLeadIn. destruct (getLeadInStep s steps) as [l|]; [|now left].
  destruct (map_has (orderIndex (entry l)) m) eqn:Hhas; cbn; [now left|].
  right. exists l. repeat split; auto. now apply map_set_fresh.
Qed.

Lemma second_pass (l : list ScoredStep) :
  forall acc,
    incl l mains ->
    NoDup (map fst acc) ->
    (forall kv, In kv acc -> mainEntry kv \/ leadEntry kv) ->
    let m2 := fold_left (addLeadIn steps) l acc in
    NoDup (map fst m2) /\
    (forall kv, In kv m2 -> mainEntry kv \/ leadEntry kv) /\
    (forall kv, In kv acc -> In kv m2).
Proof.
  induction l as [|s rest IH]; cbn [fold_left]; intros acc Hincl Hnd Hall.
  - repeat split; auto.
  - assert (Hrest : incl rest mains) by (intros x Hx; apply Hincl; now right).
    destruct (addLeadIn_appends acc s) as [->|[lead [Hlead [Hfresh ->]]]].
    + now apply IH.
    + destruct (IH (acc ++ [(orderIndex (entry lead), asLeadIn lead)]) Hrest)
        as [Hnd2 [Hall2 Hkeep2]].
      * rewrite map_app. cbn.
        apply NoDup_app; [assumption|repeat constructor; intros []|].
        intros x Hx [<-|[]]. apply map_has_keys in Hx. congruence.
      * intros kv Hkv. apply in_app_or in Hkv.
        destruct Hkv as [Hkv|[<-|[]]]; auto.
        right. exists s, lead. repeat split; auto. apply Hincl. now left.
      * repeat split; auto. intros kv Hkv. apply Hkeep2.
        apply in_or_app. now left.
Qed.

Lemma selectedMap_entries :
  let selected := selectedMap steps mains in
  NoDup (map fst selected) /\
  (forall kv, In kv selected -> mainEntry kv \/ leadEntry kv) /\
  (forall s, In s mains ->
     exists m, In m mains /\ orderIndex (entry m) = orderIndex (entry s) /\
               In (orderIndex (entry m), asMain m) selected).
Proof.
  unfold selectedMap.
  destruct (@first_pass mains [] (incl_refl mains) (NoDup_nil _))
    as [Hnd1 [Hall1 [_ Hin1]]]; [intros kv []|].
  destruct (@second_pass mains _ (incl_refl mains) Hnd1) as [Hnd2 [Hall2 Hkeep2]];
    [intros kv Hkv; left; now apply Hall1|].
  repeat split; auto.
  intros s Hs. pose proof (Hin1 s Hs) as Hkey.
  apply in_map_iff in Hkey. destruct Hkey as [[k v] [Hk Hkv]]. cbn in Hk. subst k.
  destruct (Hall1 _ Hkv) as [m [Hm Heq]]. injection Heq as Hoi ->.
  exists m. repeat split; auto. apply Hkeep2. now rewrite <- Hoi.
Qed.

Lemma selectedMap_values :
  let values := map_values (selectedMap steps mains) in
  uniqueKeys values /\ fromMains mains values /\
  (positioned steps -> paired values).
Proof.
  destruct selectedMap_entries as [Hnd [Hall Hmain]].
  unfold map_values. repeat split.
  - unfold uniqueKeys. rewrite map_map.
    erewrite map_ext_in; [exact Hnd|].
    intros [k v] Hkv. cbn.
    destruct (Hall _ Hkv) as [[m [_ Heq]]|[m [l [_ [_ Heq]]]]];
      injection Heq as -> ->; reflexivity.
  - intros p Hp Hlead. apply in_map_iff in Hp. destruct Hp as [[k v] [<- Hkv]].
    cbn in *.
    destruct (Hall _ Hkv) as [[m [Hm Heq]]|[m [l [_ [_ Heq]]]]];
      injection Heq as -> ->.
    + exists m. split; auto.
    + discriminate.
  - intros Hpos p Hp Hlead. apply in_map_iff in Hp. destruct Hp as [[k v] [<- Hkv]].
    cbn in *.
    destruct (Hall _ Hkv) as [[m [Hm Heq]]|[m [l [Hm [Hget Heq]]]]];
      injection Heq as -> ->; [discriminate|].
    destruct (Hmain m Hm) as [m' [Hm' [Hsame Hin]]].
    exists (asMain m'). split; [|split; [reflexivity|]].
    + apply in_map_iff. exists (orderIndex (entry m'), asMain m'). auto.
    + unfold getLeadInStep in Hget.
      destruct (nth_Z steps (orderIndex (entry m) - 1)) as [prev|] eqn:Hprev;
        [|discriminate].
      assert (l = prev) as ->
        by (destruct (_ || _) in Hget; [congruence|discriminate]).
      apply nth_Z_position in Hprev. destruct Hprev as [Hnonneg Hnth].
      apply Hpos in Hnth.
      unfold sel_orderIndex. cbn. rewrite Hsame, Hnth. lia.
Qed.
End Passes.

(** ** Trimming to the cap *)

Lemma paired_perm (l l' : list Selected) : Permutation l l' -> paired l -> paired l'.
Proof.
  intros Hperm Hp p Hin Hlead.
  destruct (Hp p (Permutation_in _ (Permutation_sym Hperm) Hin) Hlead) as [q [Hq Hrest]].
  exists q. split; [now apply (Permutation_in _ Hperm)|assumption].
Qed.

Lemma uniqueKeys_perm (l l' : list Selected) :
  Permutation l l' -> uniqueKeys l -> uniqueKeys l'.
Proof.
  unfold uniqueKeys. intros Hperm. apply Permutation_NoDup. now apply Permutation_map.
Qed.

Lemma dropWhileOver_incl (queue : list Selected) :
  forall result, incl (dropWhileOver queue result) result.
Proof.
  induction queue as [|toRemove rest IH]; cbn; intros result; [apply incl_refl|].
  destruct (len result >? MAX_TARGET_POINTS); [|apply incl_refl].
  intros x Hx. apply IH in Hx. now apply filter_In in Hx.
Qed.

Lemma dropWhileOver_uniqueKeys (queue : list Selected) :
  forall result, uniqueKeys result -> uniqueKeys (dropWhileOver queue result).
Proof.
  induction queue as [|toRemove rest IH]; cbn; intros result Hu; [assumption|].
  destruct (len result >? MAX_TARGET_POINTS); [|assumption].
  apply IH. now apply NoDup_map_filter.
Qed.

(** Dropping steps whose order index belongs to lead-ins only keeps every
    remaining lead-in paired. *)
Lemma dropWhileOver_paired (queue : list Selected) :
  forall result,
    (forall x q, In x queue -> In q result ->
                 sel_orderIndex q = sel_orderIndex x -> isLeadIn q = true) ->
    paired result -> paired (dropWhileOver queue result).
Proof.
  induction queue as [|toRemove rest IH]; cbn; intros result Hleads Hp; [assumption|].
  destruct (len result >? MAX_TARGET_POINTS); [|assumption].
  apply IH.
  - intros x q Hx Hq. apply filter_In in Hq. destruct Hq as [Hq _].
    apply (Hleads x q); auto.
  - intros p Hin Hlead. apply filter_In in Hin. destruct Hin as [Hin _].
    destruct (Hp p Hin Hlead) as [q [Hq [Hmain Hnext]]].
    exists q. repeat split; auto.
    apply filter_In. split; [assumption|].
    apply negb_true_iff. apply Z.eqb_neq. intros Hsame.
    pose proof (Hleads toRemove q (or_introl eq_refl) Hq Hsame). congruence.
Qed.

(** A loop that stops over the cap has emptied its queue. *)
Lemma dropWhileOver_exhausted (queue : list Selected) :
  forall result,
    len (dropWhileOver queue result) > MAX_TARGET_POINTS ->
    forall x q, In x queue -> In q (dropWhileOver queue result) ->
                sel_orderIndex q <> sel_orderIndex x.
Proof.
  induction queue as [|toRemove rest IH]; cbn; intros result Hover x q Hx Hq;
    [contradiction|].
  destruct (Z.gtb_spec (len result) MAX_TARGET_POINTS) as [Hgt|Hle]; [|lia].
  destruct Hx as [<-|Hx].
  - apply dropWhileOver_incl in Hq. apply filter_In in Hq. destruct Hq as [_ Hne].
    apply negb_true_iff in Hne. now apply Z.eqb_neq.
  - now apply (IH _ Hover).
Qed.

Lemma trimToMaxPoints_keeps (points : list Selected) :
  uniqueKeys points ->
  incl (trimToMaxPoints points) points /\
  uniqueKeys (trimToMaxPoints points) /\
  (paired points -> paired (trimToMaxPoints points)).
Proof.
  intros Hu. unfold trimToMaxPoints.
  set (leadIns := sortBy byScore (filter isLeadIn points)).
  set (result1 := dropWhileOver leadIns points).
  assert (Hincl1 : incl result1 points) by apply dropWhileOver_incl.
  assert (Hu1 : uniqueKeys result1) by now apply dropWhileOver_uniqueKeys.
  repeat split.
  - intros x Hx. apply sortBy_In in Hx.
    destruct (len result1 >? MAX_TARGET_POINTS); auto.
    apply Hincl1. now apply dropWhileOver_incl in Hx.
  - eapply uniqueKeys_perm; [apply Permutation_sym, sortBy_perm|].
    destruct (len result1 >? MAX_TARGET_POINTS); auto.
    now apply dropWhileOver_uniqueKeys.
  - intros Hp. eapply paired_perm; [apply Permutation_sym, sortBy_perm|].
    assert (Hp1 : paired result1).
    { apply dropWhileOver_paired; [|assumption].
      intros x q Hx Hq Hsame. apply sortBy_In in Hx. apply filter_In in Hx.
      destruct Hx as [Hx Hlead].
      now rewrite (NoDup_map_same_key sel_orderIndex points q x Hu Hq Hx Hsame). }
    destruct (Z.gtb_spec (len result1) MAX_TARGET_POINTS) as [Hover|_]; [|assumption].
    intros p Hin Hlead. exfalso.
    apply dropWhileOver_incl in Hin.
    assert (Hqueue : In p leadIns).
    { apply sortBy_In. apply filter_In. split; [now apply Hincl1|assumption]. }
    apply (dropWhileOver_exhausted leadIns points) with (x := p) (q := p); auto.
    fold result1. lia.
Qed.

(** ** The order of the result *)




(** ** The selected steps *)

Section Selected.
Variable haversineDistance : Q -> Q -> Q -> Q -> Q.

Lemma selectRehearsalSteps_keeps (steps : list ScoredStep) (route : Route) :
  let result := selectRehearsalSteps haversineDistance steps route in
  uniqueKeys result /\
  fromMains (selectMain haversineDistance steps route) result /\
  (positioned steps -> paired result).
Proof.
  unfold selectRehearsalSteps.
  set (mains := selectMain haversineDistance steps route).
  destruct (selectedMap_values steps mains) as [Hu [Hfrom Hpaired]].
  set (sorted := sortBy byOrder (map_values (selectedMap steps mains))).
  assert (Hperm : Permutation (map_values (selectedMap steps mains)) sorted)
    by apply Permutation_sym, sortBy_perm.
  assert (Hus : uniqueKeys sorted) by now apply (uniqueKeys_perm Hperm).
  assert (Hfs : fromMains mains sorted).
  { intros p Hp. apply Hfrom. now apply (Permutation_in _ (Permutation_sym Hperm)). }
  destruct (len sorted >? MAX_TARGET_POINTS).
  - destruct (trimToMaxPoints_keeps Hus) as [Hincl [Hut Hpt]].
    repeat split; auto.
    + intros p Hp. apply Hfs. now apply Hincl.
    + intros Hpos. apply Hpt. now apply (paired_perm Hperm), Hpaired.
  - repeat split; auto. intros Hpos. now apply (paired_perm Hperm), Hpaired.
Qed.
End Selected.

(** ** The output of [analyze] *)

Section Output.
Variable stripHtml : string -> string.
Variable computeHeading : option LatLng -> option LatLng -> Result Q.
Variable haversineDistance : Q -> Q -> Q -> Q -> Q.

Lemma nothing_selected :
  uniqueKeys [] /\ fromMains [] [] /\ paired [] /\ spaced haversineDistance [].
Proof.
  split; [constructor|]. split; [intros p []|]. split; [intros p []|].
  intros a b [].
Qed.

(** The output is the list of selected steps, point for point. *)
Lemma analyze_selected (result : option (list Route)) (out : list DecisionPoint) :
  analyze stripHtml computeHeading haversineDistance result = Ok out ->
  exists mains selected,
    out = mapi toDecisionPoint 0 selected /\
    (forall route rest,
       result = Some (route :: rest) ->
       selectedSteps stripHtml computeHeading haversineDistance route = Ok selected) /\
    uniqueKeys selected /\ fromMains mains selected /\ paired selected /\
    (symmetric haversineDistance -> spaced haversineDistance mains).
Proof.
  destruct nothing_selected as [Hu0 [Hf0 [Hp0 Hs0]]].
  destruct result as [[|route rest]|]; cbn [analyze].
  - intros [= <-]. exists [], []. repeat split; auto; discriminate.
  - unfold selectedSteps.
    destruct (flattenSteps stripHtml computeHeading route) as [flat|] eqn:Hflat;
      cbn [bind]; [|discriminate].
    intros [= <-].
    pose proof (@scoreSteps_positioned flat
                  (@flattenSteps_positions stripHtml computeHeading route flat Hflat))
      as Hpos.
    destruct (selectRehearsalSteps_keeps haversineDistance (scoreSteps flat) route)
      as [Hu [Hf Hp]].
    exists (selectMain haversineDistance (scoreSteps flat) route),
           (selectRehearsalSteps haversineDistance (scoreSteps flat) route).
    repeat split; auto.
    + intros route' rest' [= <- <-]. now rewrite Hflat.
    + intros Hsym. now apply selectMain_spaced.
  - intros [= <-]. exists [], []. repeat split; auto; discriminate.
Qed.

Lemma output_point (selected : list Selected) (i : nat) (p : DecisionPoint) :
  nth_error (mapi toDecisionPoint 0 selected) i = Some p ->
  exists s, nth_error selected i = Some s /\ p = toDecisionPoint s (Z.of_nat i).
Proof.
  rewrite nth_error_mapi.
  destruct (nth_error selected i) as [s|]; [|discriminate].
  cbn. intros [= <-]. exists s. split; reflexivity.
Qed.

(** C6.  With a distance that does not depend on the order of its two
    points (as the great-circle distance does not), any two distinct
    points of the output of [analyze] that are not lead-ins are at least
    150 m apart; lead-ins are under no such constraint. *)
Theorem spacing_invariant
  (result : option (list Route)) (out : list DecisionPoint)
  (i j : nat) (p q : DecisionPoint) :
  symmetric haversineDistance ->
  analyze stripHtml computeHeading haversineDistance result = Ok out ->
  i <> j ->
  nth_error out i = Some p -> nth_error out j = Some q ->
  dp_isLeadIn p = false -> dp_isLeadIn q = false ->
  (inject_Z 150 <= haversineDistance (dp_lat p) (dp_lng p) (dp_lat q) (dp_lng q))%Q.
Proof.
  intros Hsym Hrun Hij Hp Hq Hmp Hmq.
  destruct (analyze_selected _ Hrun) as [mains [selected [-> [_ [Hu [Hf [_ Hsp]]]]]]].
  apply output_point in Hp, Hq.
  destruct Hp as [sp [Hsp_i ->]], Hq as [sq [Hsq_j ->]]. cbn in *.
  destruct (Hf sp (nth_error_In _ _ Hsp_i) Hmp) as [mp [Hmp_in ->]].
  destruct (Hf sq (nth_error_In _ _ Hsq_j) Hmq) as [mq [Hmq_in ->]].
  apply (Hsp Hsym mp mq Hmp_in Hmq_in).
  exact (NoDup_map_positions sel_orderIndex selected Hu Hsp_i Hsq_j Hij).
Qed.

(** C8.  In the output of [analyze], a point is flagged as a decision
    point exactly when its score is at least 8. *)
Theorem decision_flag_threshold
  (result : option (list Route)) (out : list DecisionPoint) (p : DecisionPoint) :
  analyze stripHtml computeHeading haversineDistance result = Ok out ->
  In p out ->
  (dp_isDecisionPoint p = true <-> 8 <= dp_score p).
Proof.
  intros Hrun Hin.
  destruct (analyze_selected _ Hrun) as [_ [selected [-> _]]].
  apply In_mapi in Hin. destruct Hin as [s [idx [_ ->]]].
  cbn. unfold DECISION_SCORE_THRESHOLD.
  destruct (Z.geb_spec (score (scored (sel s))) 8); split; (lia || congruence).
Qed.

(** C9.  In the output of [analyze] no lead-in is orphaned: the output
    points correspond one for one to the selected steps, and for every
    output point marked as a lead-in the output holds a point that is
    not a lead-in and whose step has the next order index, trimming to
    the cap included. *)
Theorem lead_in_never_orphaned
  (result : option (list Route)) (out : list DecisionPoint) :
  analyze stripHtml computeHeading haversineDistance result = Ok out ->
  exists selected,
    out = mapi toDecisionPoint 0 selected /\
    (forall route rest,
       result = Some (route :: rest) ->
       selectedSteps stripHtml computeHeading haversineDistance route = Ok selected) /\
    forall i p,
      nth_error out i = Some p -> dp_isLeadIn p = true ->
      exists j q sp sq,
        nth_error out j = Some q /\ dp_isLeadIn q = false /\
        nth_error selected i = Some sp /\ nth_error selected j = Some sq /\
        sel_orderIndex sq = sel_orderIndex sp + 1.
Proof.
  intros Hrun.
  destruct (analyze_selected _ Hrun) as [mains [selected [-> [Hsel [_ [_ [Hp _]]]]]]].
  exists selected. split; [reflexivity|]. split; [exact Hsel|].
  intros i p Hnth Hlead.
  apply output_point in Hnth. destruct Hnth as [sp [Hsp_i ->]]. cbn in Hlead.
  destruct (Hp sp (nth_error_In _ _ Hsp_i) Hlead) as [sq [Hin [Hmain Hnext]]].
  apply In_nth_error in Hin. destruct Hin as [j Hsq_j].
  exists j, (toDecisionPoint sq (Z.of_nat j)), sp, sq.
  repeat split; auto.
  rewrite nth_error_mapi, Hsq_j. reflexivity.
Qed.

(** [analyze] returns on every input whose first route is located. *)
Lemma analyze_returns (result : option (list Route)) :
  (forall route rest, result = Some (route :: rest) -> located computeHeading route) ->
  returns (analyze stripHtml computeHeading haversineDistance result) = true.
Proof.
  intros Hloc. destruct result as [[|route rest]|]; cbn [analyze]; try reflexivity.
  unfold selectedSteps.
  pose proof (flattenSteps_returns stripHtml (Hloc route rest eq_refl)) as Hflat.
  destruct (flattenSteps stripHtml computeHeading route); [reflexivity|discriminate].
Qed.
End Output.

(** ** The sample drive *)

Lemma sampleDistance_symmetric : symmetric sampleDistance.
Proof.
  intros lat1 lng1 lat2 lng2. unfold sampleDistance.
  now rewrite (Qabs_Qminus lat2 lat1), (Qabs_Qminus lng2 lng1).
Qed.

Lemma drive_analyzed : analyzeSample (Some [drive]) = Ok drivePoints.
Proof. vm_compute. reflexivity. Qed.

Lemma spacing_invariant_witness :
  exists p q,
    nth_error drivePoints 1 = Some p /\ nth_error drivePoints 2 = Some q /\
    dp_isLeadIn p = false /\ dp_isLeadIn q = false /\
    (inject_Z 150 <= sampleDistance (dp_lat p) (dp_lng p) (dp_lat q) (dp_lng q))%Q.
Proof.
  eexists. eexists.
  split; [reflexivity|]. split; [reflexivity|].
  split; [reflexivity|]. split; [reflexivity|].
  apply (@spacing_invariant sampleStripHtml sampleHeading sampleDistance
           (Some [drive]) drivePoints 1 2 _ _ sampleDistance_symmetric drive_analyzed);
    [discriminate|reflexivity..].
Defined.

Lemma decision_flag_threshold_witness :
  List.length drivePoints = 5%nat /\
  forall p, In p drivePoints -> (dp_isDecisionPoint p = true <-> 8 <= dp_score p).
Proof.
  split; [reflexivity|]. intros p Hin.
  exact (@decision_flag_threshold sampleStripHtml sampleHeading sampleDistance
           (Some [drive]) drivePoints p drive_analyzed Hin).
Defined.

Lemma lead_in_never_orphaned_witness :
  exists selected p,
    drivePoints = mapi toDecisionPoint 0 selected /\
    nth_error drivePoints 0 = Some p /\ dp_isLeadIn p = true /\
    exists j q sp sq,
      nth_error drivePoints j = Some q /\ dp_isLeadIn q = false /\
      nth_error selected 0 = Some sp /\ nth_error selected j = Some sq /\
      sel_orderIndex sq = sel_orderIndex sp + 1.
Proof.
  destruct (@lead_in_never_orphaned sampleStripHtml sampleHeading sampleDistance
              (Some [drive]) drivePoints drive_analyzed)
    as [selected [Hout [_ Hpaired]]].
  exists selected. eexists.
  split; [exact Hout|]. split; [reflexivity|]. split; [reflexivity|].
  eapply (Hpaired 0%nat); reflexivity.
Defined.

End SelectorFacts.

(* ===================================================================== *)
(** * Properties of the playback sequencer *)
(* ===================================================================== *)

Module PlayerFacts.
Import RehearsalPlayer Samples Documented.
Open Scope list_scope.
Open Scope Z_scope.

(** ** Arrays and timers *)

Lemma length_update (A : Type) (f : A -> A) (l : list A) :
  forall i, List.length (update i f l) = List.length l.
Proof.
  induction l as [|x xs IH]; intros [|i]; cbn; auto.
Qed.

Lemma nth_error_update_same (A : Type) (f : A -> A) (l : list A) :
  forall i x, nth_error l i = Some x -> nth_error (update i f l) i = Some (f x).
Proof.
  induction l as [|y ys IH]; intros [|i] x; cbn; try discriminate.
  - now intros [= ->].
  - apply IH.
Qed.

Lemma nth_update_same (A : Type) (f : A -> A) (d : A) (l : list A) :
  f d = d -> forall i, nth i (update i f l) d = f (nth i l d).
Proof.
  intros Hd. induction l as [|y ys IH]; intros [|i]; cbn; auto.
Qed.

Lemma update_nil (A : Type) (f : A -> A) (i : nat) : update i f [] = [].
Proof. destruct i; reflexivity. Qed.

Lemma thePoints_writeDwell (i : Z) (v : Q) (st : Player) :
  thePoints (writeDwell i v st) =
  update (Z.to_nat i) (set_dwellSeconds v) (thePoints st).
Proof.
  unfold writeDwell, thePoints.
  destruct (points st) as [a|] eqn:Hp; cbn; rewrite Hp.
  - apply nth_update_same. apply update_nil.
  - symmetry. apply update_nil.
Qed.

Lemma len_thePoints_recordCurrentDwell (now : Z) (st : Player) :
  len (thePoints (recordCurrentDwell now st)) = len (thePoints st).
Proof.
  unfold recordCurrentDwell.
  destruct (lastShownAt st); [destruct (nth_Z _ _)|]; try reflexivity.
  change (len (thePoints (writeDwell (currentIndex st)
            (inject_Z (now - z) / inject_Z 1000)%Q st)) = len (thePoints st)).
  rewrite thePoints_writeDwell. unfold len. now rewrite length_update.
Qed.

(** What [emitUpdate] leaves alone: everything but the log. *)
Lemma emitUpdate_fields (st : Player) :
  heap (emitUpdate st) = heap st /\ panorama (emitUpdate st) = panorama st /\
  points (emitUpdate st) = points st /\ currentIndex (emitUpdate st) = currentIndex st /\
  isPlaying (emitUpdate st) = isPlaying st /\ playTimer (emitUpdate st) = playTimer st /\
  speed (emitUpdate st) = speed st /\ onUpdate (emitUpdate st) = onUpdate st /\
  lastShownAt (emitUpdate st) = lastShownAt st /\ timers (emitUpdate st) = timers st /\
  nextHandle (emitUpdate st) = nextHandle st.
Proof.
  unfold emitUpdate. destruct (onUpdate st) eqn:Hcb; repeat split; cbn; auto.
Qed.

Lemma thePoints_emitUpdate (st : Player) : thePoints (emitUpdate st) = thePoints st.
Proof. unfold emitUpdate. destruct (onUpdate st); reflexivity. Qed.

Lemma clearPlayTimer_owned (st : Player) :
  timersOwned st -> timers (clearPlayTimer st) = [].
Proof.
  unfold clearPlayTimer. intros [Hnone|[h [d [Hone Hh]]]].
  - destruct (playTimer st); cbn; rewrite ?Hnone; reflexivity.
  - rewrite Hh. cbn. rewrite Hone. cbn. now rewrite Nat.eqb_refl.
Qed.

(** What [pause] does: playback off, the pending timer cancelled, the
    handle dropped; the points and the running measurement stay. *)
Lemma pause_fields (st : Player) :
  isPlaying (pause st) = false /\ playTimer (pause st) = None /\
  heap (pause st) = heap st /\ points (pause st) = points st /\
  panorama (pause st) = panorama st /\
  currentIndex (pause st) = currentIndex st /\ speed (pause st) = speed st /\
  lastShownAt (pause st) = lastShownAt st /\
  incl (timers (pause st)) (timers st) /\
  (timersOwned st -> timers (pause st) = []).
Proof.
  unfold pause.
  destruct (emitUpdate_fields
              (match playTimer (set_isPlaying false st) with
               | Some h => set_playTimer None (clearTimeout h (set_isPlaying false st))
               | None => set_isPlaying false st
               end))
    as [-> [-> [-> [-> [-> [-> [-> [_ [-> [-> _]]]]]]]]]].
  cbn [playTimer set_isPlaying].
  destruct (playTimer st) as [h|] eqn:Hh; cbn; repeat split; try apply incl_refl.
  - intros t Ht. now apply filter_In in Ht.
  - intros [Hnone|[h' [d [Hone Hh']]]].
    + now rewrite Hnone.
    + rewrite Hone. assert (h' = h) as -> by congruence. cbn.
      now rewrite Nat.eqb_refl.
  - assumption.
  - intros [Hnone|[h' [d [_ Hh']]]]; [assumption|congruence].
Qed.

Lemma thePoints_pause (st : Player) : thePoints (pause st) = thePoints st.
Proof.
  unfold thePoints. destruct (pause_fields st) as [_ [_ [-> [-> _]]]]. reflexivity.
Qed.

(** ** Calls on a sequencer without points *)

Lemma showPoint_without_points (index now : Z) (st : Player) :
  thePoints st = [] -> showPoint index now st = Ok st.
Proof.
  intros Hempty. unfold showPoint. rewrite Hempty. cbn.
  destruct (Z.ltb_spec index 0); cbn; [reflexivity|].
  destruct (Z.geb_spec index 0); [reflexivity|lia].
Qed.

Lemma recordCurrentDwell_without_points (now : Z) (st : Player) :
  thePoints st = [] -> recordCurrentDwell now st = set_lastShownAt None st.
Proof.
  intros Hempty. unfold recordCurrentDwell. rewrite Hempty.
  assert (Hnone : nth_Z (@nil DecisionPoint) (currentIndex st) = None).
  { unfold nth_Z. destruct (currentIndex st <? 0); [reflexivity|].
    now destruct (Z.to_nat (currentIndex st)). }
  rewrite Hnone. now destruct (lastShownAt st).
Qed.

Lemma next_without_points (now : Z) (st : Player) :
  thePoints st = [] -> isPlaying st = false ->
  exists st', next now st = Ok st' /\ untouched st st' /\ speed st' = speed st.
Proof.
  intros Hempty Hidle. unfold next, fuelFor. rewrite Hempty. cbn [List.length nextFuel].
  rewrite Hempty. cbn [len List.length Z.of_nat].
  destruct (currentIndex st <? 0 - 1).
  - rewrite showPoint_without_points by assumption. cbn [bind]. rewrite Hidle.
    exists st. repeat split; auto. apply incl_refl.
  - rewrite recordCurrentDwell_without_points by assumption.
    eexists. split; [reflexivity|].
    destruct (pause_fields (set_lastShownAt None st))
      as [Hplay [_ [Hheap [Hpts [Hpano [Hidx [Hspeed [_ [Htimers _]]]]]]]]].
    unfold untouched. rewrite thePoints_pause.
    repeat split; auto.
Qed.

(** ** Cancellation and the dwell measurement *)

Lemma thePoints_at (st : Player) (a : nat) (pts : list DecisionPoint) :
  points st = Some a -> nth_error (heap st) a = Some pts -> thePoints st = pts.
Proof.
  intros Hp Ha. unfold thePoints. rewrite Hp. now apply nth_error_nth.
Qed.

Lemma nth_Z_update_same (pts : list DecisionPoint) (i : Z) (p : DecisionPoint)
      (f : DecisionPoint -> DecisionPoint) :
  nth_Z pts i = Some p -> nth_Z (update (Z.to_nat i) f pts) i = Some (f p).
Proof.
  unfold nth_Z. destruct (i <? 0); [discriminate|]. apply nth_error_update_same.
Qed.

(** ** Showing a point *)

Lemma nth_Z_in_range (A : Type) (l : list A) (i : Z) :
  0 <= i < len l -> exists x, nth_Z l i = Some x.
Proof.
  intros Hi. unfold nth_Z, len in *.
  destruct (Z.ltb_spec i 0); [lia|].
  destruct (nth_error l (Z.to_nat i)) as [x|] eqn:Hx; [now exists x|].
  apply nth_error_None in Hx. lia.
Qed.

Lemma recordCurrentDwell_fields (now : Z) (st : Player) :
  panorama (recordCurrentDwell now st) = panorama st /\
  points (recordCurrentDwell now st) = points st /\
  currentIndex (recordCurrentDwell now st) = currentIndex st /\
  isPlaying (recordCurrentDwell now st) = isPlaying st /\
  playTimer (recordCurrentDwell now st) = playTimer st /\
  speed (recordCurrentDwell now st) = speed st /\
  timers (recordCurrentDwell now st) = timers st /\
  lastShownAt (recordCurrentDwell now st) = None.
Proof.
  unfold recordCurrentDwell, writeDwell.
  destruct (lastShownAt st); [destruct (nth_Z _ _); [destruct (points st) eqn:Hp|]|];
    repeat split; cbn; auto.
Qed.

Lemma timersOwned_fields (st st' : Player) :
  timers st' = timers st -> playTimer st' = playTimer st ->
  timersOwned st -> timersOwned st'.
Proof.
  unfold timersOwned. intros -> ->. auto.
Qed.

(** [showPoint] on an index of the list, with a panorama in place. *)
Lemma showPoint_in_range (index now : Z) (st : Player) :
  0 <= index < len (thePoints st) -> panorama st <> None ->
  exists st',
    showPoint index now st = Ok st' /\
    currentIndex st' = index /\ isPlaying st' = isPlaying st /\
    speed st' = speed st /\ timers st' = timers st /\
    playTimer st' = playTimer st /\ panorama st' <> None /\
    len (thePoints st') = len (thePoints st).
Proof.
  intros Hrange Hpano. unfold showPoint.
  destruct (Z.ltb_spec index 0); [lia|].
  destruct (Z.geb_spec index (len (thePoints st))); [lia|]. cbn [orb].
  destruct (recordCurrentDwell_fields now st)
    as [Hp [_ [_ [Hplay [Htimer [Hspeed [Htimers _]]]]]]].
  pose proof (len_thePoints_recordCurrentDwell now st) as Hlen.
  set (st1 := recordCurrentDwell now st) in *.
  assert (Hsame : thePoints (set_currentIndex index st1) = thePoints st1) by reflexivity.
  rewrite Hsame.
  destruct (@nth_Z_in_range _ (thePoints st1) index) as [pt Hpt]; [lia|].
  rewrite Hpt. cbn [panorama set_currentIndex].
  destruct (panorama st1) as [pano|] eqn:Hpano1; [|congruence].
  eexists. split; [reflexivity|].
  match goal with |- context [emitUpdate ?x] =>
    destruct (emitUpdate_fields x)
      as [_ [-> [_ [-> [-> [-> [-> [_ [_ [-> _]]]]]]]]]];
    rewrite (thePoints_emitUpdate x)
  end.
  cbn. repeat split; auto. discriminate.
Qed.

(** ** The skip speed *)


Lemma clearPlayTimer_fields (st : Player) :
  isPlaying (clearPlayTimer st) = isPlaying st /\
  currentIndex (clearPlayTimer st) = currentIndex st /\
  thePoints (clearPlayTimer st) = thePoints st /\
  speed (clearPlayTimer st) = speed st /\
  panorama (clearPlayTimer st) = panorama st /\
  playTimer (clearPlayTimer st) = playTimer st.
Proof.
  unfold clearPlayTimer. destruct (playTimer st) eqn:Ht; repeat split; cbn; auto.
Qed.



(** ** The invariant of the sequencer *)

Unset Implicit Arguments.

Lemma nil_iff_len (A : Type) (l l' : list A) : len l' = len l -> (l' = [] <-> l = []).
Proof.
  unfold len. destruct l, l'; cbn; intros H; split; intros E; try reflexivity;
    try discriminate; lia.
Qed.

(** Soundness depends on the index, the timers, the play flag, the panorama
    and on whether there are points. *)
Lemma sound_transfer (st st' : Player) :
  currentIndex st' = currentIndex st ->
  timers st' = timers st -> playTimer st' = playTimer st ->
  isPlaying st' = isPlaying st -> panorama st' = panorama st ->
  len (thePoints st') = len (thePoints st) ->
  sound st -> sound st'.
Proof.
  intros Hci Ht Hh Hp Hpano Hlen [Hidx [Howned [Hidle Hhas]]].
  pose proof (@nil_iff_len _ _ _ Hlen) as Hnil.
  unfold sound. rewrite Hci, Hp, Hpano. repeat split; auto.
  - exact (@timersOwned_fields st st' Ht Hh Howned).
  - intros E. apply Hidle. now apply Hnil.
  - intros E. apply Hhas. intros E'. apply E. now apply Hnil.
Qed.

Lemma sound_emitUpdate (st : Player) : sound st -> sound (emitUpdate st).
Proof.
  destruct (emitUpdate_fields st) as [_ [Hpano [_ [Hci [Hp [Hh [_ [_ [_ [Ht _]]]]]]]]]].
  apply sound_transfer; auto. now rewrite thePoints_emitUpdate.
Qed.

Lemma sound_recordCurrentDwell (now : Z) (st : Player) :
  sound st -> sound (recordCurrentDwell now st).
Proof.
  destruct (recordCurrentDwell_fields now st) as [Hpano [_ [Hci [Hp [Hh [_ [Ht _]]]]]]].
  apply sound_transfer; auto. apply len_thePoints_recordCurrentDwell.
Qed.

Lemma sound_pause (st : Player) : sound st -> sound (pause st).
Proof.
  intros [Hidx [Howned [Hidle Hhas]]].
  destruct (pause_fields st)
    as [Hp [Hh [_ [_ [Hpano [Hci [_ [_ [_ Hclear]]]]]]]]].
  unfold sound. rewrite Hci, Hp, Hpano, thePoints_pause.
  repeat split; auto. left. now apply Hclear.
Qed.

Lemma sound_clearPlayTimer (st : Player) :
  sound st -> sound (clearPlayTimer st) /\ timers (clearPlayTimer st) = [].
Proof.
  intros [Hidx [Howned [Hidle Hhas]]].
  destruct (clearPlayTimer_fields st) as [Hp [Hci [Hpts [_ [Hpano _]]]]].
  pose proof (clearPlayTimer_owned Howned) as Hclear.
  split; [|exact Hclear].
  unfold sound. rewrite Hci, Hp, Hpano, Hpts. repeat split; auto. now left.
Qed.

Lemma sound_armPlayTimer (delay : Q) (st : Player) :
  sound st -> timers st = [] -> sound (armPlayTimer delay st).
Proof.
  intros [Hidx [_ [Hidle Hhas]]] Hnone. unfold sound, armPlayTimer. cbn.
  repeat split; auto.
  right. exists (nextHandle st), delay. rewrite Hnone. split; reflexivity.
Qed.

(** [showPoint] returns in every sound state. *)
Lemma showPoint_sound (index now : Z) (st : Player) :
  sound st ->
  exists st',
    showPoint index now st = Ok st' /\ sound st' /\
    isPlaying st' = isPlaying st /\ speed st' = speed st /\
    len (thePoints st') = len (thePoints st) /\
    (0 <= index < len (thePoints st) -> currentIndex st' = index) /\
    (~ 0 <= index < len (thePoints st) -> st' = st).
Proof.
  intros Hsound.
  destruct (Z.le_gt_cases 0 index) as [Hlo|Hlo];
    [destruct (Z.lt_ge_cases index (len (thePoints st))) as [Hhi|Hhi]|].
  - assert (Hpano : panorama st <> None).
    { apply Hsound. intros E. rewrite E in Hhi. cbn in Hhi. lia. }
    destruct (@showPoint_in_range index now st (conj Hlo Hhi) Hpano)
      as [st' [Hrun [Hci [Hp [Hs [Ht [Hh [Hpano' Hlen]]]]]]]].
    exists st'. split; [exact Hrun|].
    split; [|repeat split; auto; lia].
    unfold sound. rewrite Hci, Hp. split; [lia|]. split; [|split; [|auto]].
    + exact (@timersOwned_fields st st' Ht Hh (proj1 (proj2 Hsound))).
    + intros E. apply Hsound. now apply (@nil_iff_len _ _ _ Hlen).
  - exists st. unfold showPoint.
    destruct (Z.geb_spec index (len (thePoints st))); [|lia].
    rewrite orb_true_r. repeat split; auto; try apply Hsound; lia.
  - exists st. unfold showPoint.
    destruct (Z.ltb_spec index 0); [|lia].
    cbn [orb]. repeat split; auto; try apply Hsound; lia.
Qed.

(** [scheduleNext] returns in every sound state, given that the [next] it
    calls does so from a point that is not the last. *)
Lemma scheduleNextWith_sound (nxt : Player -> Result Player) (now : Z) (st : Player) :
  sound st ->
  (forall st2,
     sound st2 -> currentIndex st2 = currentIndex st ->
     len (thePoints st2) = len (thePoints st) ->
     currentIndex st2 < len (thePoints st2) - 1 ->
     exists st', nxt st2 = Ok st' /\ sound st') ->
  exists st', scheduleNextWith nxt now st = Ok st' /\ sound st'.
Proof.
  intros Hsound Hnxt. unfold scheduleNextWith.
  destruct (@sound_clearPlayTimer st Hsound) as [Hsound2 Hclear].
  destruct (clearPlayTimer_fields st) as [Hp [Hci [Hpts _]]].
  set (st2 := clearPlayTimer st) in *.
  destruct (isPlaying st2); cbn [negb]; [|now exists st2].
  destruct (Z.geb_spec (currentIndex st2) (len (thePoints st2) - 1)) as [Hlast|Hmore].
  - eexists. split; [reflexivity|].
    now apply sound_pause, sound_recordCurrentDwell.
  - destruct (Qeq_bool (speed st2) 0).
    + apply Hnxt; auto. now rewrite Hpts.
    + eexists. split; [reflexivity|]. now apply sound_armPlayTimer.
Qed.

(** [next] returns in every sound state: [fuel] calls suffice when more
    than the points that remain. *)
Lemma nextFuel_sound (now : Z) :
  forall (n fuel : nat) (st : Player),
    sound st ->
    len (thePoints st) - 1 - currentIndex st <= Z.of_nat n ->
    (n < fuel)%nat ->
    exists st', nextFuel fuel now st = Ok st' /\ sound st'.
Proof.
  induction n as [|n IH]; intros fuel st Hsound Hleft Hfuel;
    (destruct fuel as [|fuel]; [lia|]); cbn [nextFuel];
    (destruct (Z.ltb_spec (currentIndex st) (len (thePoints st) - 1)) as [Hmore|Hlast];
     [|eexists; split; [reflexivity|];
       now apply sound_pause, sound_recordCurrentDwell]);
    [lia|].
  destruct (@showPoint_sound (currentIndex st + 1) now st Hsound)
    as [st1 [-> [Hsound1 [Hp1 [_ [Hlen1 [Hci1 _]]]]]]].
  cbn [bind].
  assert (Hci : currentIndex st1 = currentIndex st + 1)
    by (apply Hci1; destruct Hsound; lia).
  destruct (isPlaying st1); [|now exists st1].
  apply scheduleNextWith_sound; [assumption|].
  intros st2 Hsound2 Hci2 Hlen2 Hmore2.
  apply IH; auto; lia.
Qed.

Lemma next_sound (now : Z) (st : Player) :
  sound st -> exists st', next now st = Ok st' /\ sound st'.
Proof.
  intros Hsound. unfold next, fuelFor.
  apply nextFuel_sound with (n := List.length (thePoints st)); auto.
  destruct Hsound as [Hidx _]. unfold len. lia.
Qed.

Lemma scheduleNext_sound (now : Z) (st : Player) :
  sound st -> exists st', scheduleNext now st = Ok st' /\ sound st'.
Proof.
  intros Hsound. unfold scheduleNext. apply scheduleNextWith_sound; [assumption|].
  intros st2 Hsound2 _ _ _. now apply next_sound.
Qed.

Lemma sound_loaded (h : list (list DecisionPoint)) : sound (loaded h).
Proof.
  unfold sound. cbn. repeat split; auto; try lia. now left.
Qed.

Lemma sound_set_isPlaying_true (st : Player) :
  sound st -> thePoints st <> [] -> sound (set_isPlaying true st).
Proof.
  intros [Hidx [Howned [Hidle Hhas]]] Hpts. unfold sound. cbn.
  repeat split; auto. intros E. contradiction.
Qed.

Lemma sound_set_speed (s : Q) (st : Player) : sound st -> sound (set_speed s st).
Proof. intros H. exact H. Qed.

Lemma play_sound (now : Z) (st : Player) :
  sound st -> exists st', play now st = Ok st' /\ sound st'.
Proof.
  intros Hsound. unfold play.
  destruct (Z.eqb_spec (len (thePoints st)) 0) as [Hz|Hnz]; [now exists st|].
  apply scheduleNext_sound, sound_emitUpdate, sound_set_isPlaying_true; auto.
  intros E. rewrite E in Hnz. now apply Hnz.
Qed.

Lemma togglePlay_sound (now : Z) (st : Player) :
  sound st -> exists st', togglePlay now st = Ok st' /\ sound st'.
Proof.
  intros Hsound. unfold togglePlay. destruct (isPlaying st).
  - eexists. split; [reflexivity|]. now apply sound_pause.
  - now apply play_sound.
Qed.

Lemma shown_then_scheduled (index now : Z) (st : Player) :
  sound st ->
  exists st',
    (st1 <- showPoint index now st ;;
     if isPlaying st1 then scheduleNext now st1 else Ok st1) = Ok st' /\ sound st'.
Proof.
  intros Hsound.
  destruct (@showPoint_sound index now st Hsound) as [st1 [-> [Hsound1 _]]].
  cbn [bind]. destruct (isPlaying st1); [|now exists st1].
  now apply scheduleNext_sound.
Qed.

Lemma prev_sound (now : Z) (st : Player) :
  sound st -> exists st', prev now st = Ok st' /\ sound st'.
Proof.
  intros Hsound. unfold prev. destruct (currentIndex st >? 0); [|now exists st].
  now apply shown_then_scheduled.
Qed.

Lemma goTo_sound (index now : Z) (st : Player) :
  sound st -> exists st', goTo index now st = Ok st' /\ sound st'.
Proof.
  intros Hsound. unfold goTo. now apply shown_then_scheduled.
Qed.

Lemma setSpeed_sound (newSpeed : Q) (now : Z) (st : Player) :
  sound st -> exists st', setSpeed newSpeed now st = Ok st' /\ sound st'.
Proof.
  intros Hsound. unfold setSpeed.
  assert (Hsound1 : sound (emitUpdate (set_speed newSpeed st)))
    by now apply sound_emitUpdate, sound_set_speed.
  destruct (_ && _); [|eexists; split; [reflexivity|assumption]].
  apply next_sound. now apply sound_clearPlayTimer.
Qed.

Lemma destroy_sound (now : Z) (st : Player) : sound st -> sound (destroy now st).
Proof.
  intros Hsound. unfold destroy.
  pose proof (@sound_recordCurrentDwell now (pause st) (@sound_pause st Hsound))
    as [Hidx [Howned _]].
  assert (Hidle : isPlaying (recordCurrentDwell now (pause st)) = false).
  { destruct (recordCurrentDwell_fields now (pause st)) as [_ [_ [_ [-> _]]]].
    apply pause_fields. }
  remember (recordCurrentDwell now (pause st)) as st2.
  unfold sound, timersOwned, thePoints. cbn.
  repeat split; auto.
Qed.

Lemma timerFires_sound (h : nat) (now : Z) (st : Player) :
  sound st -> exists st', timerFires h now st = Ok st' /\ sound st'.
Proof.
  intros Hsound. unfold timerFires.
  destruct (existsb _ (timers st)) eqn:Hpending; [|now exists st].
  apply next_sound.
  destruct Hsound as [Hidx [Howned [Hidle Hhas]]].
  unfold sound, clearTimeout. cbn. repeat split; auto.
  destruct Howned as [Hnone|[h' [d [Hone Hh']]]].
  - left. now rewrite Hnone.
  - rewrite Hone. cbn. destruct (Nat.eqb h' h); cbn; [now left|].
    right. exists h', d. split; auto.
Qed.

Lemma nth_Z_nil_head (A : Type) (l : list A) : nth_Z l 0 = None -> l = [].
Proof. destruct l; [reflexivity|discriminate]. Qed.

Lemma init_sound (a : nat) (callback : bool) (now : Z) (st : Player) :
  sound st ->
  (exists st', init a callback now st = Ok st' /\ sound st') \/
  (init a callback now st = Throw TypeError /\
   thePoints (initReset a callback st) = [] /\ sound (initReset a callback st)).
Proof.
  intros [Hidx [Howned [Hidle Hhas]]]. unfold init.
  set (st0 := initReset a callback st).
  assert (H0 : currentIndex st0 = 0 /\ isPlaying st0 = false /\ timers st0 = []).
  { unfold st0, initReset.
    match goal with |- context [clearPlayTimer ?x] =>
      destruct (clearPlayTimer_fields x) as [-> [-> _]];
      assert (Hx : timersOwned x) by exact Howned;
      rewrite (clearPlayTimer_owned Hx)
    end.
    repeat split. }
  destruct H0 as [Hci0 [Hp0 Ht0]].
  destruct (nth_Z (thePoints st0) 0) as [p0|] eqn:Hhead.
  - left.
    match goal with |- context [showPoint 0 now ?x] =>
      assert (Hs1 : sound x)
    end.
    { unfold sound, timersOwned. cbn. fold st0. rewrite Hci0, Hp0, Ht0.
      repeat split; auto; try lia. discriminate. }
    destruct (showPoint_sound 0 now _ Hs1) as [st' [Hrun [Hs' _]]].
    exists st'. split; assumption.
  - right. apply nth_Z_nil_head in Hhead. split; [reflexivity|]. split; [assumption|].
    unfold sound, timersOwned. rewrite Hci0, Hp0, Ht0, Hhead.
    repeat split; auto; try lia.
Qed.

(** Every state the module reaches is sound. *)
Lemma reachable_sound (st : Player) : reachable st -> sound st.
Proof.
  induction 1 as [h|st st' a cb now _ IH Hrun|st a cb now _ IH Hrun
                 |st st' now _ IH Hrun|st _ IH|st st' now _ IH Hrun
                 |st st' now _ IH Hrun|st st' now _ IH Hrun
                 |st st' s now _ IH Hrun|st st' i now _ IH Hrun
                 |st now _ IH|st st' h now _ IH Hrun].
  - apply sound_loaded.
  - destruct (@init_sound a cb now st IH) as [[st1 [Hok Hs]]|[Hthrow _]]; congruence.
  - destruct (@init_sound a cb now st IH) as [[st1 [Hok Hs]]|[_ [_ Hs]]];
      [congruence|assumption].
  - destruct (@play_sound now st IH) as [st1 [Hok Hs]]; congruence.
  - now apply sound_pause.
  - destruct (@togglePlay_sound now st IH) as [st1 [Hok Hs]]; congruence.
  - destruct (@next_sound now st IH) as [st1 [Hok Hs]]; congruence.
  - destruct (@prev_sound now st IH) as [st1 [Hok Hs]]; congruence.
  - destruct (@setSpeed_sound s now st IH) as [st1 [Hok Hs]]; congruence.
  - destruct (@goTo_sound i now st IH) as [st1 [Hok Hs]]; congruence.
  - now apply destroy_sound.
  - destruct (@timerFires_sound h now st IH) as [st1 [Hok Hs]]; congruence.
Qed.

(** The sample sessions are sessions of the module. *)
Lemma shown_reachable (st : Player) : shown = Ok st -> reachable st.
Proof.
  intros Hshown.
  assert (Hinit : init 0 true 1000 theatre = Ok st).
  { vm_compute. vm_compute in Hshown. exact Hshown. }
  exact (@reach_init theatre st 0%nat true 1000 (reach_loaded _) Hinit).
Qed.

Lemma playing_reachable (st : Player) : playing = Ok st -> reachable st.
Proof.
  unfold playing. destruct shown as [st0|] eqn:Hshown; cbn [bind]; [|discriminate].
  intros Hplay. exact (@reach_play st0 st 1000 (shown_reachable st0 Hshown) Hplay).
Qed.

(** ** The state snapshot *)

(** C10, as the code has it.  [getState] is total, and in every state the
    module reaches without points loaded it returns progress 0, no point,
    total 0 and isLast false; isFirst is true exactly when the current index
    is 0: it is before any [init], but [destroy] empties the list without
    resetting the index. *)
Theorem getState_without_points (st : Player) :
  reachable st ->
  thePoints st = [] ->
  progress (getState st) = 0%Q /\
  point (getState st) = None /\
  total (getState st) = 0 /\
  isLast (getState st) = false /\
  isFirst (getState st) = (currentIndex st =? 0).
Proof.
  intros Hreach Hempty.
  destruct (reachable_sound st Hreach) as [Hidx _].
  unfold getState. rewrite Hempty. cbn.
  repeat split.
  - unfold nth_Z. destruct (currentIndex st <? 0); [reflexivity|].
    now destruct (Z.to_nat (currentIndex st)).
  - apply Z.eqb_neq. lia.
Qed.

Lemma getState_without_points_witness :
  progress (getState theatre) = 0%Q /\
  point (getState theatre) = None /\
  total (getState theatre) = 0 /\
  isLast (getState theatre) = false /\
  isFirst (getState theatre) = true.
Proof.
  apply (getState_without_points theatre); [apply reach_loaded|reflexivity].
Defined.

(** C10 as stated (isFirst true whenever the list is empty) fails after a
    session that moved to the second point and was torn down. *)
Lemma getState_without_points_counterexample :
  exists st,
    toured = Ok st /\
    thePoints st = [] /\
    total (getState st) = 0 /\
    isFirst (getState st) = false.
Proof.
  unfold toured.
  destruct shown as [st0|] eqn:H0; [|vm_compute in H0; discriminate].
  cbn [bind].
  destruct (next 2000 st0) as [st1|] eqn:H1;
    [|vm_compute in H0; injection H0 as <-; vm_compute in H1; discriminate].
  cbn [bind]. eexists. split; [reflexivity|].
  vm_compute in H0. injection H0 as <-. vm_compute in H1. injection H1 as <-.
  vm_compute. repeat split.
Qed.

(** ** Calls without points *)

(** C4, as the code has it.  In every state the module reaches without
    points (before [init], or after [destroy]): [play], [togglePlay],
    [prev] and [goTo] return and change nothing; [next] returns and leaves
    the points, the index, the speed and the panorama as they were, arming
    no timer; [setSpeed] returns and stores the new speed, arming no timer.
    Before any [init], [next] changes nothing at all.  ([init] is called by
    the application on a list it has checked to be non-empty; the theorem
    makes no promise about [init] on an empty list.) *)
Theorem calls_without_points (st : Player) (now index : Z) (newSpeed : Q) :
  reachable st ->
  thePoints st = [] ->
  play now st = Ok st /\
  togglePlay now st = Ok st /\
  prev now st = Ok st /\
  goTo index now st = Ok st /\
  (exists st', next now st = Ok st' /\ untouched st st' /\ speed st' = speed st) /\
  (exists st', setSpeed newSpeed now st = Ok st' /\ untouched st st' /\
               speed st' = newSpeed) /\
  (forall h, next now (loaded h) = Ok (loaded h)).
Proof.
  intros Hreach Hempty.
  destruct (reachable_sound st Hreach) as [_ [_ [Hidle' _]]].
  pose proof (Hidle' Hempty) as Hidle. clear Hidle'.
  assert (Hplay : play now st = Ok st).
  { unfold play. now rewrite Hempty. }
  split; [exact Hplay|]. split; [unfold togglePlay; now rewrite Hidle|].
  split; [|split; [|split; [|split]]].
  - unfold prev. destruct (currentIndex st >? 0); [|reflexivity].
    rewrite showPoint_without_points by assumption. cbn [bind]. now rewrite Hidle.
  - unfold goTo. rewrite showPoint_without_points by assumption.
    cbn [bind]. now rewrite Hidle.
  - now apply next_without_points.
  - unfold setSpeed.
    destruct (emitUpdate_fields (set_speed newSpeed st))
      as [Hheap [Hpano [_ [Hidx [Hplaying [_ [Hspeed [_ [_ [Htimers _]]]]]]]]]].
    rewrite Hplaying. cbn [isPlaying set_speed]. rewrite Hidle. cbn [andb].
    eexists. split; [reflexivity|]. unfold untouched.
    rewrite thePoints_emitUpdate, Hheap, Hpano, Hidx, Hplaying, Htimers, Hspeed.
    cbn. repeat split; auto. apply incl_refl.
  - intros h. reflexivity.
Qed.

Lemma calls_without_points_witness :
  play 0 theatre = Ok theatre /\
  prev 0 theatre = Ok theatre /\
  goTo 3 0 theatre = Ok theatre /\
  next 0 theatre = Ok theatre /\
  exists st', setSpeed 2%Q 0 theatre = Ok st' /\ speed st' = 2%Q.
Proof.
  destruct (calls_without_points theatre 0 3 2%Q (reach_loaded _) eq_refl)
    as [Hplay [_ [Hprev [Hgoto [_ [[st' [Hset [_ Hspeed]]] Hnext]]]]]].
  split; [exact Hplay|]. split; [exact Hprev|]. split; [exact Hgoto|].
  split; [apply Hnext|].
  exists st'. split; assumption.
Defined.

(** C4 as stated fails twice: [init] with an empty list throws on
    [points[0]], and [setSpeed] before [init] is not a no-op. *)
Lemma calls_without_points_counterexample :
  nth_error (heap theatre) 1 = Some [] /\
  init 1 true 0 theatre = Throw TypeError /\
  exists st', setSpeed 2%Q 0 theatre = Ok st' /\ st' <> theatre /\ speed st' = 2%Q.
Proof.
  split; [reflexivity|]. split; [reflexivity|].
  eexists. split; [reflexivity|]. split; [discriminate|reflexivity].
Qed.

Lemma thePoints_initReset (a : nat) (callback : bool) (st : Player) :
  thePoints (initReset a callback st) = nth a (heap st) [].
Proof.
  unfold initReset.
  match goal with |- context [clearPlayTimer ?x] =>
    destruct (clearPlayTimer_fields x) as [_ [_ [-> _]]]
  end.
  reflexivity.
Qed.

(** X13.  The exported functions return in every state the module reaches;
    [init] returns exactly when the array it is given has a first point. *)
Lemma exported_functions_return (st : Player) (now index : Z) (newSpeed : Q) (h : nat) :
  reachable st ->
  returns (play now st) = true /\ returns (togglePlay now st) = true /\
  returns (next now st) = true /\ returns (prev now st) = true /\
  returns (goTo index now st) = true /\ returns (setSpeed newSpeed now st) = true /\
  returns (timerFires h now st) = true /\
  (forall a callback,
     returns (init a callback now st) = true <-> nth a (heap st) [] <> []).
Proof.
  intros Hreach. pose proof (reachable_sound st Hreach) as Hsound.
  destruct (play_sound now st Hsound) as [? [-> _]].
  destruct (togglePlay_sound now st Hsound) as [? [-> _]].
  destruct (next_sound now st Hsound) as [? [-> _]].
  destruct (prev_sound now st Hsound) as [? [-> _]].
  destruct (goTo_sound index now st Hsound) as [? [-> _]].
  destruct (setSpeed_sound newSpeed now st Hsound) as [? [-> _]].
  destruct (timerFires_sound h now st Hsound) as [? [-> _]].
  repeat split; try reflexivity.
  - intros Hret Hnil.
    destruct (init_sound a callback now st Hsound) as [[st' [Hok _]]|[Hthrow _]];
      [|rewrite Hthrow in Hret; discriminate].
    unfold init in Hok. rewrite thePoints_initReset, Hnil in Hok. discriminate.
  - intros Hsome.
    destruct (init_sound a callback now st Hsound) as [[st' [-> _]]|[_ [Hnil _]]];
      [reflexivity|].
    exfalso. apply Hsome. now rewrite <- thePoints_initReset with (callback := callback).
Qed.

(** ** Cancellation and the dwell measurement *)

(** C2, as the code has it.  In every state the module reaches with a
    current point in the caller's array:
    - [destroy] cancels the pending timer and stops playback;
    - when the measurement of the current point is running (since
      [shownAt]), [destroy] writes the elapsed time, (now - shownAt) / 1000
      seconds, into the [dwellSeconds] of the current point of the caller's
      array;
    - when the measurement is already closed ([lastShownAt] is null, as
      after playback has ended at the last point, which is still
      displayed), [destroy] writes nothing;
    - [pause] cancels the pending timer and stops playback but leaves the
      array and the measurement as they are. *)
Theorem destroy_finalizes_dwell
  (st : Player) (now : Z) (a : nat)
  (pts : list DecisionPoint) (p : DecisionPoint) :
  reachable st ->
  points st = Some a -> nth_error (heap st) a = Some pts ->
  nth_Z pts (currentIndex st) = Some p ->
  (timers (destroy now st) = [] /\ playTimer (destroy now st) = None /\
   isPlaying (destroy now st) = false) /\
  (forall shownAt,
     lastShownAt st = Some shownAt ->
     let dwell := (inject_Z (now - shownAt) / inject_Z 1000)%Q in
     let pts' := update (Z.to_nat (currentIndex st)) (set_dwellSeconds dwell) pts in
     nth_error (heap (destroy now st)) a = Some pts' /\
     nth_Z pts' (currentIndex st) = Some (set_dwellSeconds dwell p) /\
     dwellSeconds (set_dwellSeconds dwell p) = Some dwell) /\
  (lastShownAt st = None -> heap (destroy now st) = heap st) /\
  (timers (pause st) = [] /\ playTimer (pause st) = None /\
   isPlaying (pause st) = false /\
   heap (pause st) = heap st /\ lastShownAt (pause st) = lastShownAt st).
Proof.
  intros Hreach Hpts Harr Hcur.
  destruct (reachable_sound st Hreach) as [_ [Howned _]].
  destruct (pause_fields st)
    as [Hplay [Htimer [Hheap [Hpoints [_ [Hidx [_ [Hlast [_ Htimers]]]]]]]]].
  assert (Hquiet : timers (destroy now st) = [] /\ playTimer (destroy now st) = None /\
                   isPlaying (destroy now st) = false).
  { destruct (recordCurrentDwell_fields now (pause st))
      as [_ [_ [_ [Hp [Hh [_ [Ht _]]]]]]].
    unfold destroy. cbn [timers playTimer isPlaying set_lastShownAt set_points set_panorama].
    rewrite Ht, Hh, Hp. auto. }
  split; [exact Hquiet|]. split; [|split].
  - intros shownAt Hshown dwell pts'.
    assert (Hrec : recordCurrentDwell now (pause st) =
                   set_lastShownAt None (writeDwell (currentIndex st) dwell (pause st))).
    { unfold recordCurrentDwell.
      rewrite Hlast, Hshown, thePoints_pause, (@thePoints_at st a pts Hpts Harr), Hidx, Hcur.
      reflexivity. }
    unfold destroy. rewrite Hrec. unfold writeDwell. rewrite Hpoints, Hpts.
    cbn. rewrite Hheap.
    repeat split; auto.
    + now apply nth_error_update_same.
    + now apply nth_Z_update_same.
  - intros Hnone.
    assert (Hrec : recordCurrentDwell now (pause st) = set_lastShownAt None (pause st)).
    { unfold recordCurrentDwell. rewrite Hlast, Hnone. reflexivity. }
    unfold destroy. rewrite Hrec. cbn. exact Hheap.
  - repeat split; auto.
Qed.

Lemma destroy_finalizes_dwell_witness :
  exists st p,
    shown = Ok st /\
    nth_Z drivePoints 0 = Some p /\
    timers (destroy 4000 st) = [] /\
    nth_error (heap (destroy 4000 st)) 0 =
      Some (update 0 (set_dwellSeconds (inject_Z (4000 - 1000) / inject_Z 1000)%Q) drivePoints) /\
    heap (pause st) = heap st.
Proof.
  destruct shown as [st|] eqn:Hshown; [|vm_compute in Hshown; discriminate].
  pose proof (shown_reachable st Hshown) as Hreach.
  assert (Hst : points st = Some 0%nat /\
                nth_error (heap st) 0 = Some drivePoints /\
                currentIndex st = 0 /\ lastShownAt st = Some 1000).
  { vm_compute in Hshown. injection Hshown as <-. repeat split. }
  destruct Hst as [Hpts [Harr [Hidx Hlast]]].
  destruct (nth_Z drivePoints 0) as [p|] eqn:Hp; [|discriminate].
  assert (Hcur : nth_Z drivePoints (currentIndex st) = Some p) by now rewrite Hidx.
  destruct (destroy_finalizes_dwell st 4000 0%nat drivePoints p Hreach Hpts Harr Hcur)
    as [[Htimers _] [Hwrites [_ [_ [_ [_ [Hsame _]]]]]]].
  destruct (Hwrites 1000 Hlast) as [Hheap _].
  exists st, p. rewrite Hidx in Hheap.
  repeat split; assumption.
Defined.

(** C2 as stated fails for [pause]: in the session that plays the sample
    drive, the point is shown since time 1000 and the play timer is pending;
    [pause] cancels the timer, but the current point's [dwellSeconds] is
    still undefined and the measurement still runs. *)
Lemma pause_counterexample :
  exists st p,
    playing = Ok st /\
    lastShownAt st = Some 1000 /\ timers st = [(1%nat, 5000%Q)] /\
    timers (pause st) = [] /\
    nth_Z (thePoints (pause st)) (currentIndex (pause st)) = Some p /\
    dwellSeconds p = None /\
    lastShownAt (pause st) = Some 1000.
Proof.
  destruct playing as [st|] eqn:Hplaying; [|vm_compute in Hplaying; discriminate].
  vm_compute in Hplaying. injection Hplaying as <-.
  eexists. eexists. split; [reflexivity|].
  vm_compute. repeat split.
Qed.

(** A point that is displayed but no longer measured: after [next] at the
    last point of the sample drive the measurement is closed, the panorama
    still shows the point, and [destroy] writes nothing. *)
Example destroy_after_the_end :
  exists st,
    (st0 <- shown ;; st1 <- goTo 4 2000 st0 ;; next 9000 st1) = Ok st /\
    currentIndex st = 4 /\ lastShownAt st = None /\ panorama st <> None /\
    heap (destroy 60000 st) = heap st /\
    option_map dwellSeconds (nth_Z (thePoints st) 4)
    = Some (Some (inject_Z (9000 - 2000) / inject_Z 1000)%Q).
Proof.
  destruct (st0 <- shown ;; st1 <- goTo 4 2000 st0 ;; next 9000 st1) as [st|] eqn:Hst;
    [|vm_compute in Hst; discriminate].
  vm_compute in Hst. injection Hst as <-.
  eexists. split; [reflexivity|]. vm_compute. repeat split. discriminate.
Qed.

(** ** The auto-advance delay *)





(** The skip speed set while paused takes effect at the next [play]. *)
Example play_at_skip_speed :
  exists st st',
    (st0 <- shown ;; setSpeed 0 2000 st0) = Ok st /\
    isPlaying st = false /\ currentIndex st = 0 /\
    play 3000 st = Ok st' /\
    currentIndex st' = 4 /\ isPlaying st' = false /\ timers st' = [].
Proof.
  destruct (st0 <- shown ;; setSpeed 0 2000 st0) as [st|] eqn:Hst;
    [|vm_compute in Hst; discriminate].
  vm_compute in Hst. injection Hst as <-.
  eexists. eexists. split; [reflexivity|].
  split; [reflexivity|]. split; [reflexivity|].
  split; [vm_compute; reflexivity|]. repeat split.
Qed.


End PlayerFacts.

(* ===================================================================== *)
(** * Further properties of the scorer *)
(* ===================================================================== *)

Module RuleFacts.
Unset Implicit Arguments.
Import Regex RouteAnalyzer Samples Documented.
Open Scope string_scope.
Open Scope list_scope.
Open Scope Z_scope.

(** ** What a match tells about the text *)

Lemma within_trans (prev : option ascii) (s : list ascii) p t p' t' :
  within prev s p t -> within p t p' t' -> within prev s p' t'.
Proof.
  intros H1 H2. induction H2; [assumption|]. econstructor. eassumption.
Qed.

Lemma more_reaches (c : charset) (k : cont) :
  forall (s : list ascii) (last : ascii),
    more c last s k = true ->
    exists p t, within (Some last) s p t /\ k p t = true.
Proof.
  induction s as [|x s' IH]; cbn; intros last H.
  - exists (Some last), []. split; [constructor|assumption].
  - destruct (inSet c x).
    + destruct (more c x s' k) eqn:Hm.
      * destruct (IH x Hm) as [p [t [Hw Hk]]].
        exists p, t. split; [|assumption].
        eapply within_trans; [|exact Hw]. econstructor. constructor.
      * exists (Some last), (x :: s'). split; [constructor|assumption].
    + exists (Some last), (x :: s'). split; [constructor|assumption].
Qed.

(** A match calls its continuation at a position of the text. *)
Lemma matchAt_reaches (r : regex) :
  forall (prev : option ascii) (s : list ascii) (k : cont),
    matchAt r prev s k = true ->
    exists p t, within prev s p t /\ k p t = true.
Proof.
  induction r as [c|c| |r1 IH1 r2 IH2|r1 IH1 r2 IH2|r1 IH1]; cbn; intros prev s k H.
  - destruct s as [|x s']; [discriminate|].
    destruct (inSet c x); [|discriminate].
    exists (Some x), s'. split; [|assumption]. econstructor. constructor.
  - destruct s as [|x s']; [discriminate|].
    destruct (inSet c x); [|discriminate].
    destruct (more_reaches c k s' x H) as [p [t [Hw Hk]]].
    exists p, t. split; [|assumption].
    eapply within_trans; [|exact Hw]. econstructor. constructor.
  - destruct (xorb _ _); [|discriminate].
    exists prev, s. split; [constructor|assumption].
  - destruct (IH1 _ _ _ H) as [p [t [Hw Hk]]].
    destruct (IH2 _ _ _ Hk) as [p' [t' [Hw' Hk']]].
    exists p', t'. split; [|assumption]. eapply within_trans; eassumption.
  - destruct (matchAt r1 prev s k) eqn:H1; [now apply IH1|now apply IH2].
  - destruct (matchAt r1 prev s k) eqn:H1; [now apply IH1|].
    exists prev, s. split; [constructor|assumption].
Qed.

(** The search tries every position of the text. *)
Lemma searchFrom_finds (r : regex) (prev : option ascii) (s : list ascii) p t :
  within prev s p t ->
  matchAt r p t (fun _ _ => true) = true ->
  searchFrom r prev s = true.
Proof.
  intros Hw Hm.
  assert (Hgen : forall prev s, searchFrom r p t = true -> within prev s p t ->
                                searchFrom r prev s = true).
  { clear. intros prev s Ht Hw. induction Hw as [|q x u Hw IH]; [assumption|].
    apply IH. cbn. destruct (matchAt r q (x :: u) _); [reflexivity|assumption]. }
  apply Hgen; [|assumption].
  destruct t; cbn; rewrite Hm; reflexivity.
Qed.

(** A text in which a sequence ending with the pattern [r] matches also
    matches [r] alone. *)
Lemma test_last_of_sequence (r0 r : regex) (text : string) :
  test (Cat r0 r) text = true -> test r text = true.
Proof.
  unfold test. generalize (list_ascii_of_string text) as s. generalize (@None ascii) as prev.
  intros prev s. revert prev.
  induction s as [|x s' IH]; intros prev H.
  - cbn in H. cbn.
    destruct (matchAt r0 prev [] _) eqn:Hm; [|discriminate].
    destruct (matchAt_reaches r0 _ _ _ Hm) as [p [t [Hw Hk]]]. cbn in Hk.
    exact (@searchFrom_finds r prev [] p t Hw Hk).
  - cbn in H. 
    destruct (matchAt r0 prev (x :: s') _) eqn:Hm.
    + destruct (matchAt_reaches r0 _ _ _ Hm) as [p [t [Hw Hk]]]. cbn in Hk.
      exact (@searchFrom_finds r prev (x :: s') p t Hw Hk).
    + apply IH in H. cbn. destruct (matchAt r prev (x :: s') _); [reflexivity|assumption].
Qed.

(** A text that matches the exit ordinal matches the lane-commitment
    pattern [exit]. *)
Lemma exit_ordinal_is_lane_cue (text : string) :
  hasExitOrdinal text = true -> matchesAny LANE_COMMITMENT_PATTERNS text = true.
Proof.
  unfold hasExitOrdinal. cbn [seq]. intros H.
  do 3 apply test_last_of_sequence in H.
  unfold matchesAny. apply existsb_exists. exists (lit "exit").
  split; [cbn; tauto|assumption].
Qed.

(** ** The rules of [scoreStep] *)

(** The reasons of a tally, one optional reason after the other. *)
Lemma bump_if (b : bool) (t : Tally) (delta : Z) (r : Reason) :
  (if b then bump t delta r else t)
  = (fst t + (if b then delta else 0), snd t ++ (if b then [r] else [])).
Proof.
  destruct b, t as [n l]; unfold bump; cbn [fst snd]; f_equal;
    try lia; now rewrite ?app_nil_r.
Qed.

(** What [scoreStep] returns, rule by rule: either the step is a motorway
    cruise, or its score is the sum of the rules that fire and its reasons
    are their names in the order of the rules. *)
Lemma scoreStep_cases (e : FlatStep) (ctx : Context) :
  let r := scoreStep e ctx in
  (score r = 0 /\ reasons r = [RMotorwayCruise] /\ exclude r = true /\
   isPrimary r = false)
  \/
  exists (lane rb ex sm sg pr : bool) (w : Z),
    (w = 0 \/ w = 4 \/ w = 6) /\
    (ex = true -> lane = true /\ rb = true /\ sm = false) /\
    (sm = true -> rb = true) /\
    (rb = true -> type r = TRoundabout) /\
    reasons r =
      (if lane then [RLaneCommitment] else []) ++
      (if rb then [RRoundabout] else []) ++
      (if ex then [RRoundaboutExit] else []) ++
      (if sm then [RSmallRoundabout] else []) ++
      (if w =? 0 then [] else [RShortWindow]) ++
      (if sg then [RSignage] else []) ++
      (if pr then [RPressure] else []) /\
    let total :=
      (if lane then 6 else 0) + (if rb then 4 else 0) + (if ex then 2 else 0)
      + (if sm then -3 else 0) + w + (if sg then 2 else 0) + (if pr then 1 else 0) in
    ((score r = total /\ exclude r = false /\ isPrimary r = rb) \/
     (total = 0 /\ score r = 0 /\ exclude r = true /\ isPrimary r = false)).
Proof.
  unfold scoreStep. cbv zeta.
  set (lower := toLowerCase (instruction e)).
  set (html := instructionHtml e).
  destruct (isMotorwayCruise lower); [left; cbn; auto|right].
  pose proof (exit_ordinal_is_lane_cue lower) as Hexit.
  set (lane := matchesAny LANE_COMMITMENT_PATTERNS lower) in *.
  set (rb := isRoundaboutStep (step e) html).
  set (exO := hasExitOrdinal lower) in *.
  set (small := (distanceMeters e >? 0) && (distanceMeters e <? 120)).
  set (sg := matchesAny VISUAL_OVERLOAD_PATTERNS html
             || matchesAny VISUAL_OVERLOAD_PATTERNS lower).
  set (pr := matchesAny SOCIAL_PRESSURE_PATTERNS lower).
  set (w := match next ctx with
            | Some nxt =>
                if isPrepareStep lower && isMajorManeuver (step nxt) then
                  if (distanceMeters nxt >? 0) && (distanceMeters nxt <=? 120) then 6
                  else if (distanceMeters nxt >? 0) && (distanceMeters nxt <=? 250) then 4
                       else 0
                else 0
            | None => 0
            end).
  exists lane, rb, (rb && exO), (rb && negb exO && small), sg, pr, w.
  assert (Hw : w = 0 \/ w = 4 \/ w = 6).
  { subst w. destruct (next ctx) as [nxt|]; [|lia].
    destruct (_ && isMajorManeuver _); [|lia].
    destruct (_ && (_ <=? 120)); [lia|]. destruct (_ && (_ <=? 250)); lia. }
  split; [exact Hw|].
  split. { intros Hex. apply andb_prop in Hex. destruct Hex as [-> Hex].
           rewrite Hex. rewrite (Hexit Hex). auto. }
  split. { intros Hsm. now destruct rb. }
  split. { intros Hrb. cbn [type]. 
           destruct (negb _ && _); cbn [type]; unfold deriveType; fold html rb;
             now rewrite Hrb. }
  rewrite (bump_if lane (0, []) 6 RLaneCommitment). cbn [fst snd app Z.add].
  set (t1 := (if lane then 6 else 0, if lane then [RLaneCommitment] else [])).
  match goal with
  | |- context [if rb then ?x else t1] => set (t2 := if rb then x else t1)
  end.
  assert (E2 : t2 = (fst t1 + (if rb then 4 else 0) + (if rb && exO then 2 else 0)
                     + (if rb && negb exO && small then -3 else 0),
                     snd t1 ++ (if rb then [RRoundabout] else [])
                       ++ (if rb && exO then [RRoundaboutExit] else [])
                       ++ (if rb && negb exO && small then [RSmallRoundabout] else []))).
  { subst t2. generalize t1. intros [n l].
    destruct rb, exO, small; unfold bump; cbn [fst snd andb negb]; f_equal;
      try lia; rewrite <- ?app_assoc, ?app_nil_r; reflexivity. }
  match goal with
  | |- context [bump ?x 2 RSignage] => set (t3 := x)
  end.
  assert (E3 : t3 = (fst t2 + w, snd t2 ++ (if w =? 0 then [] else [RShortWindow]))).
  { subst t3 w. generalize t2. intros [n l].
    destruct (next ctx) as [nxt|].
    - destruct (_ && isMajorManeuver _).
      + destruct (_ && (_ <=? 120)); [|destruct (_ && (_ <=? 250))];
          unfold bump; cbn [fst snd Z.eqb]; f_equal; try lia; now rewrite ?app_nil_r.
      + cbn [fst snd Z.eqb]. f_equal; try lia; now rewrite ?app_nil_r.
    - cbn [fst snd Z.eqb]. f_equal; try lia; now rewrite ?app_nil_r. }
  rewrite (bump_if sg t3 2 RSignage), bump_if. cbn [fst snd].
  rewrite E3. cbn [fst snd]. rewrite E2. cbn [fst snd]. subst t1. cbn [fst snd].
  split.
  { destruct (negb _ && _); cbn [reasons]; rewrite <- ?app_assoc; reflexivity. }
  cbv zeta.
  destruct (negb _ && _) eqn:Hcond; cbn [score exclude isPrimary]; [right|left].
  - apply andb_prop in Hcond. destruct Hcond as [_ Hzero]. apply Z.eqb_eq in Hzero.
    repeat split; auto; try (rewrite <- Hzero; ring).
  - repeat split; auto; ring.
Qed.

(** The arithmetic of the rules. *)
Lemma scoreStep_profile (e : FlatStep) (ctx : Context) :
  let r := scoreStep e ctx in
  0 <= score r <= 21 /\
  (exclude r = true -> score r = 0) /\
  includes (reasons r) RLeadIn = false /\
  (includes (reasons r) RMotorwayCruise = true -> score r = 0) /\
  (getCommitmentLevel (reasons r) = High -> 10 <= score r) /\
  (getCommitmentLevel (reasons r) = Low -> score r <= 7) /\
  isPrimary r = includes (reasons r) RRoundabout /\
  (isPrimary r = true -> type r = TRoundabout) /\
  (includes (reasons r) RRoundaboutExit = true ->
   includes (reasons r) RLaneCommitment = true /\ 12 <= score r /\ isPrimary r = true).
Proof.
  cbv zeta.
  pose proof (scoreStep_cases e ctx) as Hc. cbv zeta in Hc.
  destruct Hc as [[Hs [Hr [Hx Hp]]]
                 |[lane [rb [ex [sm [sg [pr [w [Hw [Hex [Hsm [Hty [Hr Hscore]]]]]]]]]]]]].
  - rewrite Hs, Hr, Hx, Hp. cbn. repeat split; intros; try lia; discriminate.
  - rewrite Hr.
    destruct Hscore as [[Hs [Hx Hp]]|[Hzero [Hs [Hx Hp]]]]; rewrite Hs, Hx, Hp.
    all: destruct lane, rb, ex, sm, sg, pr, Hw as [->|[->| ->]]; cbn in *.
    all: try (destruct (Hex eq_refl) as [? [? ?]]); try (specialize (Hsm eq_refl));
      try discriminate; try lia.
    all: repeat split; intros; try reflexivity; try discriminate; try lia; auto.
Qed.

(** X1.  The roundabout with a numbered exit, for every step.  The pattern of
    the exit ordinal ends in the word exit, which is a lane-commitment
    pattern of its own: a step that gets the reason roundabout-exit also
    gets lane-commitment, so its commitment level is high, its score is at
    least 12, and it is a primary roundabout step that is not excluded. *)
Theorem roundabout_exit_is_high (e : FlatStep) (ctx : Context) :
  let r := scoreStep e ctx in
  includes (reasons r) RRoundaboutExit = true ->
  includes (reasons r) RLaneCommitment = true /\
  includes (reasons r) RRoundabout = true /\
  getCommitmentLevel (reasons r) = High /\
  12 <= score r /\ exclude r = false /\
  isPrimary r = true /\ type r = TRoundabout.
Proof.
  cbv zeta. intros Hexit.
  destruct (scoreStep_profile e ctx)
    as [_ [Hx [_ [_ [_ [_ [Hprim [Hty Hrule]]]]]]]].
  destruct (Hrule Hexit) as [Hlane [Hscore Hp]].
  repeat split; auto.
  - now rewrite <- Hprim.
  - unfold getCommitmentLevel. now rewrite Hlane, Hexit, orb_true_r.
  - destruct (exclude (scoreStep e ctx)); [|reflexivity].
    specialize (Hx eq_refl). lia.
Qed.

(** X2.  The target count, whatever the route: it lies between 6 and 12 (also
    when the legs carry no distance or the sum is not positive); for a
    positive total it does not decrease when the route gets longer, it is 6
    below 10.5 km and 12 from 45.5 km on. *)
Theorem target_count_steps (route longer : Route) :
  6 <= getTargetCount route <= 12 /\
  (0 < totalMeters route < 10500 -> getTargetCount route = 6) /\
  (45500 <= totalMeters route -> getTargetCount route = 12) /\
  (0 < totalMeters route <= totalMeters longer ->
   getTargetCount route <= getTargetCount longer).
Proof.
  rewrite !ScorerFacts.getTargetCount_integer.
  destruct (Z.eqb_spec (totalMeters route) 0) as [Hz|Hnz];
    destruct (Z.eqb_spec (totalMeters longer) 0) as [Hz'|Hnz'].
  all: repeat split; intros; try lia.
  all: try (assert ((totalMeters route + 3500) / 7000 < 2)
             by (apply Z.div_lt_upper_bound; lia); lia).
  all: try (assert (7 <= (totalMeters route + 3500) / 7000)
             by (apply Z.div_le_lower_bound; lia); lia).
  assert ((totalMeters route + 3500) / 7000 <= (totalMeters longer + 3500) / 7000)
    by (apply Z.div_le_mono; lia).
  lia.
Qed.

Lemma roundabout_exit_is_high_witness :
  getCommitmentLevel (reasons (scoreStep exitEntry noContext)) = High /\
  12 <= score (scoreStep exitEntry noContext).
Proof.
  pose proof (roundabout_exit_is_high exitEntry noContext) as Hrule. cbv zeta in Hrule.
  destruct Hrule as [_ [_ [Hlevel [Hscore _]]]]; [vm_compute; reflexivity|].
  split; assumption.
Defined.

Lemma target_count_steps_witness :
  getTargetCount seventyKm = 12 /\ getTargetCount drive <= getTargetCount seventyKm.
Proof.
  destruct (target_count_steps seventyKm seventyKm) as [_ [_ [Hlong _]]].
  destruct (target_count_steps drive seventyKm) as [_ [_ [_ Hmono]]].
  split; [apply Hlong|apply Hmono]; vm_compute;
    [discriminate|split; [reflexivity|discriminate]].
Defined.

End RuleFacts.

(* ===================================================================== *)
(** * Further properties of the output of the analyzer *)
(* ===================================================================== *)

Module OutputFacts.
Unset Implicit Arguments.
Import Regex RouteAnalyzer Samples Documented SelectorFacts RuleFacts.
Open Scope string_scope.
Open Scope list_scope.
Open Scope Z_scope.

(** ** Where a selected step comes from *)

Lemma includes_app (l l' : list Reason) (r : Reason) :
  includes (l ++ l') r = includes l r || includes l' r.
Proof. unfold includes. apply existsb_app. Qed.

Lemma getCommitmentLevel_leadIn (l : list Reason) :
  getCommitmentLevel (l ++ [RLeadIn]) = getCommitmentLevel l.
Proof.
  unfold getCommitmentLevel. rewrite !includes_app. cbn. now rewrite !orb_false_r.
Qed.

Lemma getLeadInStep_origin (s l : ScoredStep) (steps : list ScoredStep) :
  getLeadInStep s steps = Some l ->
  In l steps /\
  (40 < distanceMeters (entry l) \/
   isPrepareStep (toLowerCase (instruction (entry l))) = true).
Proof.
  unfold getLeadInStep.
  destruct (nth_Z steps (orderIndex (entry s) - 1)) as [prev|] eqn:Hprev; [|discriminate].
  destruct (_ || _) eqn:Hcond; [|discriminate]. intros [= <-].
  apply nth_Z_position in Hprev. destruct Hprev as [_ Hprev].
  split; [eapply nth_error_In; eassumption|].
  apply orb_prop in Hcond. destruct Hcond as [Hd|Hp]; [left; lia|now right].
Qed.

Lemma scoreSteps_scored (flat : list FlatStep) (s : ScoredStep) :
  In s (scoreSteps flat) ->
  In (entry s) flat /\ exists ctx, scored s = scoreStep (entry s) ctx.
Proof.
  unfold scoreSteps. intros Hin. apply In_mapi in Hin.
  destruct Hin as [e [idx [He ->]]]. cbn. split; [assumption|]. eexists. reflexivity.
Qed.

Section Origin.
Variable stripHtml : string -> string.
Variable computeHeading : option LatLng -> option LatLng -> Result Q.
Variable haversineDistance : Q -> Q -> Q -> Q -> Q.

Lemma pickMain_incl (target : Z) (sorted : list ScoredStep) :
  forall acc x,
    In x (pickMain haversineDistance target sorted acc) -> In x acc \/ In x sorted.
Proof.
  induction sorted as [|c rest IH]; cbn; intros acc x Hx; [auto|].
  destruct (len acc >=? target); [auto|].
  destruct (isTooClose haversineDistance c acc SPACING_METERS).
  - destruct (IH _ _ Hx); auto.
  - destruct (IH _ _ Hx) as [H|H]; auto.
    apply in_app_or in H. destruct H as [H|[<-|[]]]; auto.
Qed.

Lemma selectMain_candidates (steps : list ScoredStep) (route : Route) (m : ScoredStep) :
  In m (selectMain haversineDistance steps route) ->
  In m steps /\ 0 < score (scored m) /\ exclude (scored m) = false.
Proof.
  unfold selectMain. intros H. apply pickMain_incl in H. destruct H as [[]|H].
  apply sortBy_In in H. apply filter_In in H. destruct H as [Hin Hc].
  apply andb_prop in Hc. destruct Hc as [Hs Hx].
  repeat split; [assumption|lia|now apply negb_true_iff].
Qed.

(** A selected step is a main selection, or the lead-in of one. *)
Lemma selected_origin (steps : list ScoredStep) (route : Route) (p : Selected) :
  In p (selectRehearsalSteps haversineDistance steps route) ->
  (exists m, In m (selectMain haversineDistance steps route) /\ p = asMain m) \/
  (exists m l, In m (selectMain haversineDistance steps route) /\
               getLeadInStep m steps = Some l /\ p = asLeadIn l).
Proof.
  unfold selectRehearsalSteps.
  set (mains := selectMain haversineDistance steps route).
  destruct (selectedMap_values steps mains) as [Hu _].
  destruct (selectedMap_entries steps mains) as [_ [Hall _]].
  set (sorted := sortBy byOrder (map_values (selectedMap steps mains))).
  assert (Hperm : Permutation (map_values (selectedMap steps mains)) sorted)
    by apply Permutation_sym, sortBy_perm.
  assert (Hus : uniqueKeys sorted) by now apply (uniqueKeys_perm Hperm).
  intros Hin.
  assert (Hs : In p sorted).
  { destruct (len sorted >? MAX_TARGET_POINTS); [|assumption].
    now apply (proj1 (trimToMaxPoints_keeps Hus)). }
  apply (Permutation_in _ (Permutation_sym Hperm)) in Hs.
  unfold map_values in Hs. apply in_map_iff in Hs. destruct Hs as [kv [<- Hkv]].
  destruct (Hall kv Hkv) as [[m [Hm ->]]|[m [l [Hm [Hl ->]]]]].
  - left. exists m. auto.
  - right. exists m, l. auto.
Qed.

(** Every point of the output is built from a scored step of the first
    route: a candidate shown as it was scored, or a lead-in that carries
    the lead-in reason after its own. *)
Lemma analyze_origin (result : option (list Route)) (out : list DecisionPoint)
      (p : DecisionPoint) :
  analyze stripHtml computeHeading haversineDistance result = Ok out ->
  In p out ->
  exists s idx ctx,
    scored s = scoreStep (entry s) ctx /\
    ((p = toDecisionPoint (asMain s) idx /\
      0 < score (scored s) /\ exclude (scored s) = false) \/
     (p = toDecisionPoint (asLeadIn s) idx /\
      (40 < distanceMeters (entry s) \/
       isPrepareStep (toLowerCase (instruction (entry s))) = true))).
Proof.
  destruct result as [[|route rest]|]; cbn [analyze];
    try (intros [= <-] []).
  unfold selectedSteps.
  destruct (flattenSteps stripHtml computeHeading route) as [flat|]; cbn [bind];
    [|discriminate].
  intros [= <-] Hin. apply In_mapi in Hin. destruct Hin as [sel [idx [Hsel ->]]].
  apply selected_origin in Hsel.
  destruct Hsel as [[m [Hm ->]]|[m [l [Hm [Hl ->]]]]].
  - apply selectMain_candidates in Hm. destruct Hm as [Hin [Hpos Hx]].
    destruct (scoreSteps_scored _ _ Hin) as [_ [ctx Hctx]].
    exists m, idx, ctx. split; [assumption|]. left. auto.
  - apply getLeadInStep_origin in Hl. destruct Hl as [Hin Hcond].
    destruct (scoreSteps_scored _ _ Hin) as [_ [ctx Hctx]].
    exists l, idx, ctx. split; [assumption|]. right. auto.
Qed.

(** X3.  In the output of [analyze] every score lies between 0 and 21, and a
    point that is not a lead-in has a score of at least 1 and is not a
    motorway cruise: cruise steps, excluded steps and steps that score 0
    enter the rehearsal as lead-ins only. *)
Theorem scores_in_range
  (result : option (list Route)) (out : list DecisionPoint) (p : DecisionPoint) :
  analyze stripHtml computeHeading haversineDistance result = Ok out ->
  In p out ->
  0 <= dp_score p <= 21 /\
  (dp_isLeadIn p = false ->
   1 <= dp_score p /\ includes (dp_reasons p) RMotorwayCruise = false).
Proof.
  intros Hrun Hin.
  destruct (analyze_origin _ _ _ Hrun Hin) as [s [idx [ctx [Hs Horigin]]]].
  destruct (scoreStep_profile (entry s) ctx) as [Hrange [_ [_ [Hcruise _]]]].
  rewrite <- Hs in Hrange, Hcruise.
  destruct Horigin as [[-> [Hpos Hx]]|[-> _]]; cbn.
  - split; [assumption|]. intros _. split; [lia|].
    apply not_true_is_false. intros Hc. apply Hcruise in Hc. lia.
  - split; [assumption|discriminate].
Qed.

(** X4.  The lead-in mark and the lead-in reason go together: a point of the
    output is marked as a lead-in exactly when its reasons hold lead-in;
    and every lead-in is a step longer than 40 m or one whose text reads
    as a preparation. *)
Theorem lead_in_tag
  (result : option (list Route)) (out : list DecisionPoint) (p : DecisionPoint) :
  analyze stripHtml computeHeading haversineDistance result = Ok out ->
  In p out ->
  dp_isLeadIn p = includes (dp_reasons p) RLeadIn /\
  (dp_isLeadIn p = true ->
   40 < dp_distanceMeters p \/
   isPrepareStep (toLowerCase (dp_instruction p)) = true).
Proof.
  intros Hrun Hin.
  destruct (analyze_origin _ _ _ Hrun Hin) as [s [idx [ctx [Hs Horigin]]]].
  destruct (scoreStep_profile (entry s) ctx) as [_ [_ [Hlead _]]].
  rewrite <- Hs in Hlead.
  destruct Horigin as [[-> _]|[-> Hcond]]; cbn -[includes isPrepareStep toLowerCase].
  - rewrite Hlead. split; [reflexivity|discriminate].
  - rewrite includes_app. cbn -[isPrepareStep toLowerCase]. rewrite orb_true_r. auto.
Qed.

(** X5.  The commitment level and the decision flag agree: a point of
    commitment level high scores at least 10 and is flagged as a decision
    point, a point of level low scores at most 7 and is not flagged. *)
Theorem commitment_and_decision_flag
  (result : option (list Route)) (out : list DecisionPoint) (p : DecisionPoint) :
  analyze stripHtml computeHeading haversineDistance result = Ok out ->
  In p out ->
  (dp_commitmentLevel p = High -> 10 <= dp_score p /\ dp_isDecisionPoint p = true) /\
  (dp_commitmentLevel p = Low -> dp_score p <= 7 /\ dp_isDecisionPoint p = false).
Proof.
  intros Hrun Hin.
  destruct (analyze_origin _ _ _ Hrun Hin) as [s [idx [ctx [Hs Horigin]]]].
  destruct (scoreStep_profile (entry s) ctx) as [_ [_ [_ [_ [Hhigh [Hlow _]]]]]].
  rewrite <- Hs in Hhigh, Hlow.
  assert (Hflag : forall n, (10 <= n -> (n >=? DECISION_SCORE_THRESHOLD) = true) /\
                            (n <= 7 -> (n >=? DECISION_SCORE_THRESHOLD) = false)).
  { intros n. unfold DECISION_SCORE_THRESHOLD. lia. }
  destruct Horigin as [[-> _]|[-> _]]; cbn -[getCommitmentLevel];
    rewrite ?getCommitmentLevel_leadIn;
    split; intros Hlevel.
  - specialize (Hhigh Hlevel). split; [assumption|now apply Hflag].
  - specialize (Hlow Hlevel). split; [assumption|now apply Hflag].
  - specialize (Hhigh Hlevel). split; [assumption|now apply Hflag].
  - specialize (Hlow Hlevel). split; [assumption|now apply Hflag].
Qed.

(** X6.  A point of the output is primary exactly when its reasons hold
    roundabout, and a primary point has the type roundabout and the label
    Roundabout. *)
Theorem primary_is_roundabout
  (result : option (list Route)) (out : list DecisionPoint) (p : DecisionPoint) :
  analyze stripHtml computeHeading haversineDistance result = Ok out ->
  In p out ->
  dp_isPrimary p = includes (dp_reasons p) RRoundabout /\
  (dp_isPrimary p = true -> dp_type p = TRoundabout /\ dp_typeLabel p = "Roundabout").
Proof.
  intros Hrun Hin.
  destruct (analyze_origin _ _ _ Hrun Hin) as [s [idx [ctx [Hs Horigin]]]].
  destruct (scoreStep_profile (entry s) ctx) as [_ [_ [_ [_ [_ [_ [Hprim [Hty _]]]]]]]].
  rewrite <- Hs in Hprim, Hty.
  destruct Horigin as [[-> _]|[-> _]]; cbn -[includes]; rewrite ?includes_app;
    cbn -[includes]; rewrite ?orb_false_r; (split; [assumption|]); intros Hp;
    rewrite (Hty Hp); auto.
Qed.

End Origin.

(** ** The count of the selection *)

Lemma positioned_NoDup (steps : list ScoredStep) :
  positioned steps -> NoDup (map step_key steps).
Proof.
  intros Hpos. apply NoDup_nth_error. intros i j Hi Heq.
  rewrite length_map in Hi. rewrite !nth_error_map in Heq.
  destruct (nth_error steps i) as [a|] eqn:Ha;
    [|apply nth_error_None in Ha; lia].
  destruct (nth_error steps j) as [b|] eqn:Hb; [|discriminate].
  cbn in Heq. injection Heq as Heq. unfold step_key in Heq.
  rewrite (Hpos _ _ Ha), (Hpos _ _ Hb) in Heq. lia.
Qed.

Lemma len_sortBy (A : Type) (cmp : A -> A -> Z) (l : list A) : len (sortBy cmp l) = len l.
Proof. unfold len. now rewrite (Permutation_length (sortBy_perm cmp l)). Qed.

Lemma len_filter_mapi (l : list Selected) :
  forall k,
    len (filter (fun p => negb (dp_isLeadIn p)) (mapi toDecisionPoint k l))
    = len (filter isMain l).
Proof.
  unfold len. induction l as [|x xs IH]; intros k; cbn [mapi filter]; [reflexivity|].
  cbn [toDecisionPoint dp_isLeadIn]. unfold isMain at 1.
  destruct (isLeadIn x); cbn [negb List.length]; [apply IH|].
  rewrite !Nat2Z.inj_succ. f_equal. apply IH.
Qed.

Lemma len_mapi (A B : Type) (f : A -> Z -> B) (l : list A) :
  forall k, len (mapi f k l) = len l.
Proof.
  unfold len. induction l as [|x xs IH]; intros k; cbn [mapi List.length]; [reflexivity|].
  now rewrite !Nat2Z.inj_succ, IH.
Qed.

Lemma In_mapi_image (A B : Type) (f : A -> Z -> B) (l : list A) (k : Z) (x : A) :
  In x l -> exists i, In (f x i) (mapi f k l).
Proof.
  intros Hin. apply In_nth_error in Hin. destruct Hin as [i Hi].
  exists (k + Z.of_nat i). apply nth_error_In with (n := i).
  rewrite nth_error_mapi, Hi. reflexivity.
Qed.

(** The steps of a selection that are not lead-ins are no more than the
    main selections they come from. *)
Lemma mains_counted (mains : list ScoredStep) (l : list Selected) :
  uniqueKeys l -> fromMains mains l ->
  len (filter isMain l) <= len mains.
Proof.
  intros Hu Hfrom. unfold len.
  rewrite <- (length_map sel_orderIndex), <- (length_map step_key mains).
  apply inj_le. apply NoDup_incl_length; [now apply NoDup_map_filter|].
  intros k Hk. apply in_map_iff in Hk. destruct Hk as [p [<- Hp]].
  apply filter_In in Hp. destruct Hp as [Hp Hmain].
  apply negb_true_iff in Hmain.
  destruct (Hfrom p Hp Hmain) as [m [Hm ->]].
  change (sel_orderIndex (asMain m)) with (step_key m). now apply in_map.
Qed.

(** Once its lead-ins are used up, a selection is within the cap: the
    first loop of [trimToMaxPoints] always ends under the cap. *)
Lemma leadIns_suffice (mains : list ScoredStep) (points : list Selected) :
  uniqueKeys points -> fromMains mains points -> len mains <= MAX_TARGET_POINTS ->
  len (dropWhileOver (sortBy byScore (filter isLeadIn points)) points)
  <= MAX_TARGET_POINTS.
Proof.
  intros Hu Hfrom Hmains.
  set (queue := sortBy byScore (filter isLeadIn points)).
  set (r1 := dropWhileOver queue points).
  destruct (Z.le_gt_cases (len r1) MAX_TARGET_POINTS) as [Hle|Hover]; [assumption|].
  exfalso.
  assert (Hincl : incl r1 points) by apply dropWhileOver_incl.
  assert (Hu1 : uniqueKeys r1) by now apply dropWhileOver_uniqueKeys.
  assert (Hnolead : forall q, In q r1 -> isLeadIn q = false).
  { intros q Hq. destruct (isLeadIn q) eqn:Hlead; [|reflexivity]. exfalso.
    apply (@dropWhileOver_exhausted queue points) with (x := q) (q := q); auto.
    - fold r1. lia.
    - apply sortBy_In. apply filter_In. auto. }
  assert (Hfrom1 : fromMains mains r1).
  { intros p Hp Hmain. apply Hfrom; auto. }
  pose proof (mains_counted mains r1 Hu1 Hfrom1) as Hcount.
  assert (Hall : filter isMain r1 = r1).
  { clear - Hnolead. induction r1 as [|x xs IH]; cbn; [reflexivity|].
    unfold isMain at 1. rewrite (Hnolead x (or_introl eq_refl)). cbn.
    f_equal. apply IH. intros q Hq. apply Hnolead. now right. }
  rewrite Hall in Hcount. lia.
Qed.

Lemma trimToMaxPoints_leadIns (mains : list ScoredStep) (points : list Selected) :
  uniqueKeys points -> fromMains mains points -> len mains <= MAX_TARGET_POINTS ->
  trimToMaxPoints points
  = sortBy byOrder (dropWhileOver (sortBy byScore (filter isLeadIn points)) points).
Proof.
  intros Hu Hfrom Hmains. unfold trimToMaxPoints.
  pose proof (leadIns_suffice mains points Hu Hfrom Hmains) as Hle.
  destruct (Z.gtb_spec
              (len (dropWhileOver (sortBy byScore (filter isLeadIn points)) points))
              MAX_TARGET_POINTS); [lia|reflexivity].
Qed.

Lemma dropWhileOver_keeps (queue : list Selected) (q : Selected) :
  (forall x, In x queue -> sel_orderIndex x <> sel_orderIndex q) ->
  forall result, In q result -> In q (dropWhileOver queue result).
Proof.
  induction queue as [|x rest IH]; cbn; intros Hq result Hin; [assumption|].
  destruct (len result >? MAX_TARGET_POINTS); [|assumption].
  apply IH; [intros y Hy; apply Hq; now right|].
  apply filter_In. split; [assumption|].
  apply negb_true_iff, Z.eqb_neq. intros E. now apply (Hq x (or_introl eq_refl)).
Qed.

Section Count.
Variable stripHtml : string -> string.
Variable computeHeading : option LatLng -> option LatLng -> Result Q.
Variable haversineDistance : Q -> Q -> Q -> Q -> Q.

Lemma pickMain_length (target : Z) (sorted : list ScoredStep) :
  forall acc,
    len acc <= target -> len (pickMain haversineDistance target sorted acc) <= target.
Proof.
  induction sorted as [|c rest IH]; cbn; intros acc Hacc; [assumption|].
  destruct (Z.geb_spec (len acc) target); [assumption|].
  destruct (isTooClose haversineDistance c acc SPACING_METERS); apply IH; [assumption|].
  unfold len in *. rewrite length_app. cbn. lia.
Qed.

Lemma pickMain_extends (target : Z) (sorted : list ScoredStep) :
  forall acc, incl acc (pickMain haversineDistance target sorted acc).
Proof.
  induction sorted as [|c rest IH]; cbn; intros acc; [apply incl_refl|].
  destruct (len acc >=? target); [apply incl_refl|].
  destruct (isTooClose haversineDistance c acc SPACING_METERS); [apply IH|].
  intros x Hx. apply IH. apply in_or_app. now left.
Qed.

Lemma pickMain_NoDup (target : Z) (sorted : list ScoredStep) :
  forall acc,
    NoDup (map step_key (acc ++ sorted)) ->
    NoDup (map step_key (pickMain haversineDistance target sorted acc)).
Proof.
  induction sorted as [|c rest IH]; cbn; intros acc Hnd.
  - now rewrite app_nil_r in Hnd.
  - rewrite map_app in Hnd. cbn in Hnd.
    destruct (len acc >=? target).
    + now apply NoDup_app_remove_r in Hnd.
    + destruct (isTooClose haversineDistance c acc SPACING_METERS); apply IH.
      * rewrite map_app. now apply NoDup_remove_1 in Hnd.
      * rewrite <- app_assoc, map_app. exact Hnd.
Qed.

Lemma selectMain_NoDup (steps : list ScoredStep) (route : Route) :
  positioned steps -> NoDup (map step_key (selectMain haversineDistance steps route)).
Proof.
  intros Hpos. unfold selectMain. apply pickMain_NoDup. cbn [app].
  eapply Permutation_NoDup.
  - apply Permutation_map, Permutation_sym, sortBy_perm.
  - apply NoDup_map_filter. now apply positioned_NoDup.
Qed.

Lemma selectMain_length (steps : list ScoredStep) (route : Route) :
  len (selectMain haversineDistance steps route) <= getTargetCount route.
Proof.
  unfold selectMain. apply pickMain_length.
  pose proof (ScorerFacts.getTargetCount_bounds route). cbn. lia.
Qed.

(** The selection is within the cap, its steps that are not lead-ins are
    within the target count, and no main selection is lost: trimming
    removes lead-ins only. *)
Lemma selectRehearsalSteps_count (steps : list ScoredStep) (route : Route) :
  let result := selectRehearsalSteps haversineDistance steps route in
  len result <= MAX_TARGET_POINTS /\
  len (filter isMain result) <= getTargetCount route /\
  (positioned steps ->
   forall m, In m (selectMain haversineDistance steps route) -> In (asMain m) result).
Proof.
  cbv zeta.
  destruct (selectRehearsalSteps_keeps haversineDistance steps route) as [Hu [Hfrom _]].
  pose proof (selectMain_length steps route) as Hlen.
  pose proof (ScorerFacts.getTargetCount_bounds route) as Hbounds.
  split; [|split].
  2: { pose proof (mains_counted _ _ Hu Hfrom). lia. }
  all: unfold selectRehearsalSteps in *.
  all: set (mains := selectMain haversineDistance steps route) in *.
  all: destruct (selectedMap_values steps mains) as [Hu0 [Hfrom0 _]].
  all: set (values := map_values (selectedMap steps mains)) in *.
  all: set (sorted := sortBy byOrder values) in *.
  all: assert (Hperm : Permutation values sorted) by apply Permutation_sym, sortBy_perm.
  all: assert (Hus : uniqueKeys sorted) by now apply (uniqueKeys_perm Hperm).
  all: assert (Hfs : fromMains mains sorted)
    by (intros p Hp; apply Hfrom0; now apply (Permutation_in _ (Permutation_sym Hperm))).
  all: assert (Hcap : len mains <= MAX_TARGET_POINTS) by (unfold MAX_TARGET_POINTS; lia).
  - destruct (Z.gtb_spec (len sorted) MAX_TARGET_POINTS) as [Hover|Hle]; [|assumption].
    rewrite (trimToMaxPoints_leadIns mains sorted Hus Hfs Hcap), len_sortBy.
    now apply (leadIns_suffice mains).
  - intros Hpos m Hm.
    destruct (selectedMap_entries steps mains) as [_ [_ Hkept]].
    destruct (Hkept m Hm) as [m' [Hm' [Hkey Hentry]]].
    assert (m' = m) as ->.
    { apply (NoDup_map_same_key step_key mains m' m); auto.
      now apply selectMain_NoDup. }
    assert (Hs : In (asMain m) sorted).
    { apply (Permutation_in _ Hperm). unfold values, map_values.
      apply in_map_iff. exists (orderIndex (entry m), asMain m). auto. }
    destruct (len sorted >? MAX_TARGET_POINTS); [|assumption].
    rewrite (trimToMaxPoints_leadIns mains sorted Hus Hfs Hcap).
    apply sortBy_In. apply dropWhileOver_keeps; [|assumption].
    intros x Hx E. apply sortBy_In in Hx. apply filter_In in Hx.
    destruct Hx as [Hx Hlead].
    rewrite (NoDup_map_same_key sel_orderIndex sorted x (asMain m) Hus Hx Hs E) in Hlead.
    discriminate.
Qed.

(** X7.  Bounded count: [analyze] never returns more than 12 points, and the
    points that are not lead-ins are no more than the target count of the
    route. *)
Theorem bounded_count (result : option (list Route)) (out : list DecisionPoint) :
  analyze stripHtml computeHeading haversineDistance result = Ok out ->
  len out <= 12 /\
  forall route rest,
    result = Some (route :: rest) ->
    len (filter (fun p => negb (dp_isLeadIn p)) out) <= getTargetCount route.
Proof.
  destruct result as [[|route rest]|]; cbn [analyze];
    try (intros [= <-]; split; [cbn; lia|discriminate]).
  unfold selectedSteps.
  destruct (flattenSteps stripHtml computeHeading route) as [flat|]; cbn [bind];
    [|discriminate].
  intros [= <-].
  destruct (selectRehearsalSteps_count (scoreSteps flat) route) as [Hcap [Hmain _]].
  rewrite len_mapi, len_filter_mapi. split; [exact Hcap|].
  intros route' rest' [= <- <-]. exact Hmain.
Qed.

End Count.

(** ** The greedy choice *)

Lemma byScoreThenOrder_ahead (a b : ScoredStep) :
  byScoreThenOrder a b <= 0 <-> ahead a b.
Proof.
  unfold byScoreThenOrder, ahead.
  destruct (Z.eqb_spec (score (scored b)) (score (scored a))); cbn; lia.
Qed.

Lemma ahead_trans (a b c : ScoredStep) : ahead a b -> ahead b c -> ahead a c.
Proof. unfold ahead. lia. Qed.

Lemma ahead_total (a b : ScoredStep) : ahead a b \/ ahead b a.
Proof. unfold ahead. lia. Qed.

Lemma insertBy_ahead (x : ScoredStep) (l : list ScoredStep) :
  StronglySorted ahead l -> StronglySorted ahead (insertBy byScoreThenOrder x l).
Proof.
  induction l as [|y ys IH]; cbn; intros Hs.
  - repeat constructor.
  - inversion Hs as [|? ? Hys Hall]; subst.
    destruct (Z.leb_spec (byScoreThenOrder x y) 0) as [Hle|Hgt].
    + apply byScoreThenOrder_ahead in Hle.
      constructor; [assumption|]. constructor; [assumption|].
      eapply Forall_impl; [|exact Hall]. intros z Hz. now apply (ahead_trans x y z).
    + assert (Hyx : ahead y x).
      { destruct (ahead_total x y) as [H|H]; [|assumption].
        apply byScoreThenOrder_ahead in H. lia. }
      constructor; [now apply IH|].
      apply (Permutation_Forall (Permutation_sym (insertBy_perm byScoreThenOrder x ys))).
      constructor; assumption.
Qed.

Lemma sortBy_ahead (l : list ScoredStep) :
  StronglySorted ahead (sortBy byScoreThenOrder l).
Proof.
  induction l as [|x xs IH]; cbn; [constructor|]. now apply insertBy_ahead.
Qed.

Lemma Qltb_true (x y : Q) : Qltb x y = true -> (x < y)%Q.
Proof.
  unfold Qltb. intros H. apply negb_true_iff in H.
  apply Qnot_le_lt. intros Hle. apply Qle_bool_iff in Hle. congruence.
Qed.

Section Choice.
Variable stripHtml : string -> string.
Variable computeHeading : option LatLng -> option LatLng -> Result Q.
Variable haversineDistance : Q -> Q -> Q -> Q -> Q.

Lemma isTooClose_true (candidate : ScoredStep) (selected : list ScoredStep) :
  isTooClose haversineDistance candidate selected SPACING_METERS = true ->
  exists m, In m selected /\ near haversineDistance candidate m.
Proof.
  unfold isTooClose. intros H. apply existsb_exists in H.
  destruct H as [m [Hm Hclose]]. exists m. split; [assumption|].
  now apply Qltb_true.
Qed.

(** The loop passes over a candidate only for a reason: the candidate is
    within the threshold of a step selected before it, or the target is
    reached. *)
Lemma pickMain_complete (target : Z) (sorted : list ScoredStep) :
  forall acc,
    StronglySorted ahead sorted ->
    (forall a b, In a acc -> In b sorted -> ahead a b) ->
    forall c, In c sorted ->
      let picked := pickMain haversineDistance target sorted acc in
      In c picked \/
      (exists m, In m picked /\ ahead m c /\ near haversineDistance c m) \/
      target <= len picked.
Proof.
  induction sorted as [|x rest IH]; intros acc Hs Hacc c Hin; [contradiction|].
  inversion Hs as [|? ? Hrest Hhead]; subst.
  cbn [pickMain]. cbv zeta.
  destruct (Z.geb_spec (len acc) target) as [Hfull|Hroom]; [right; right; lia|].
  destruct (isTooClose haversineDistance x acc SPACING_METERS) eqn:Hclose.
  - destruct Hin as [<-|Hin].
    + right. left. apply isTooClose_true in Hclose. destruct Hclose as [m [Hm Hnear]].
      exists m. split; [now apply pickMain_extends|]. split; [|assumption].
      apply Hacc; [assumption|now left].
    + apply IH; auto. intros a b Ha Hb. apply Hacc; [assumption|now right].
  - destruct Hin as [<-|Hin].
    + left. apply pickMain_extends. apply in_or_app. right. now left.
    + apply IH; auto. intros a b Ha Hb. apply in_app_or in Ha.
      destruct Ha as [Ha|[<-|[]]].
      * apply Hacc; [assumption|now right].
      * exact (proj1 (Forall_forall _ _) Hhead b Hb).
Qed.

Lemma positioned_same (steps : list ScoredStep) (a b : ScoredStep) :
  positioned steps -> In a steps -> In b steps ->
  orderIndex (entry a) = orderIndex (entry b) -> a = b.
Proof.
  intros Hpos Ha Hb. apply (NoDup_map_same_key step_key steps a b); auto.
  now apply positioned_NoDup.
Qed.

(** X8.  The greedy selection is complete: a candidate of the first route (a
    step that scores more than 0 and is not excluded) is among the selected
    steps as a step of its own right, unless it lies within 150 m of a
    selected step that scores more (or the same and comes earlier in the
    route), or unless the selection already holds the target count of
    such steps. *)
Theorem greedy_selection_complete (route : Route) (flat : list FlatStep) (c : ScoredStep) :
  flattenSteps stripHtml computeHeading route = Ok flat ->
  In c (scoreSteps flat) ->
  0 < score (scored c) -> exclude (scored c) = false ->
  let selected := selectRehearsalSteps haversineDistance (scoreSteps flat) route in
  In (asMain c) selected \/
  (exists m, In (asMain m) selected /\ near haversineDistance c m /\
             (score (scored c) < score (scored m) \/
              (score (scored c) = score (scored m) /\
               orderIndex (entry m) < orderIndex (entry c)))) \/
  getTargetCount route <= len (filter isMain selected).
Proof.
  intros Hflat Hin Hpos Hx. cbv zeta.
  pose proof (@scoreSteps_positioned flat
                (@flattenSteps_positions stripHtml computeHeading route flat Hflat))
    as Hpositioned.
  destruct (selectRehearsalSteps_count haversineDistance (scoreSteps flat) route)
    as [_ [_ Hkept]]. specialize (Hkept Hpositioned).
  assert (Hsorted : In c (sortBy byScoreThenOrder
                            (filter (fun s => (score (scored s) >? 0)
                                              && negb (exclude (scored s)))
                                    (scoreSteps flat)))).
  { apply sortBy_In. apply filter_In. split; [assumption|].
    rewrite Hx. cbn. rewrite andb_true_r. lia. }
  destruct (pickMain_complete (getTargetCount route) _ [] (sortBy_ahead _)
              (fun a b (Ha : In a []) _ => match Ha with end) c Hsorted)
    as [Hc|[[m [Hm [Hahead Hnear]]]|Hfull]].
  - left. now apply Hkept.
  - destruct (Z.eq_dec (orderIndex (entry m)) (orderIndex (entry c))) as [Hsame|Hdiff].
    + left. apply Hkept.
      assert (m = c) as <-; [|exact Hm].
      apply (positioned_same (scoreSteps flat)); auto.
      now apply (selectMain_candidates haversineDistance (scoreSteps flat) route).
    + right. left. exists m. split; [now apply Hkept|]. split; [assumption|].
      unfold ahead in Hahead. lia.
  - right. right.
    change (pickMain haversineDistance (getTargetCount route) _ [])
      with (selectMain haversineDistance (scoreSteps flat) route) in Hfull.
    set (mains := selectMain haversineDistance (scoreSteps flat) route) in *.
    set (selected := selectRehearsalSteps haversineDistance (scoreSteps flat) route) in *.
    assert (Hle : len mains <= len (filter isMain selected)); [|lia].
    unfold len. apply inj_le.
    rewrite <- (length_map asMain mains).
    apply NoDup_incl_length.
    + apply (NoDup_map_inv sel_orderIndex). rewrite map_map.
      apply (selectMain_NoDup haversineDistance (scoreSteps flat) route Hpositioned).
    + intros p Hp. apply in_map_iff in Hp. destruct Hp as [m [<- Hm]].
      apply filter_In. split; [now apply Hkept|reflexivity].
Qed.

(** X9.  [analyze] returns no point exactly when the first route has no
    candidate; and for every candidate the output holds a point that is not
    a lead-in and scores at least as much: a highest-scoring candidate is
    always rehearsed. *)
Theorem top_candidate_selected
  (route : Route) (rest : list Route) (out : list DecisionPoint) :
  analyze stripHtml computeHeading haversineDistance (Some (route :: rest)) = Ok out ->
  exists flat,
    flattenSteps stripHtml computeHeading route = Ok flat /\
    (out = [] <-> forall s, In s (scoreSteps flat) -> isCandidate s = false) /\
    forall c, In c (scoreSteps flat) -> isCandidate c = true ->
      exists p, In p out /\ dp_isLeadIn p = false /\ score (scored c) <= dp_score p.
Proof.
  cbn [analyze]. unfold selectedSteps.
  destruct (flattenSteps stripHtml computeHeading route) as [flat|] eqn:Hflat;
    cbn [bind]; [|discriminate].
  intros [= <-]. exists flat. split; [reflexivity|].
  pose proof (@scoreSteps_positioned flat
                (@flattenSteps_positions stripHtml computeHeading route flat Hflat))
    as Hpositioned.
  destruct (selectRehearsalSteps_count haversineDistance (scoreSteps flat) route)
    as [_ [_ Hkept]]. specialize (Hkept Hpositioned).
  assert (Htop : forall c, In c (scoreSteps flat) -> isCandidate c = true ->
            exists p, In p (mapi toDecisionPoint 0
                              (selectRehearsalSteps haversineDistance (scoreSteps flat) route))
                      /\ dp_isLeadIn p = false /\ score (scored c) <= dp_score p).
  { intros c Hin Hc.
    assert (Hsorted : In c (sortBy byScoreThenOrder (filter isCandidate (scoreSteps flat)))).
    { apply sortBy_In. apply filter_In. auto. }
    pose proof (sortBy_ahead (filter isCandidate (scoreSteps flat))) as Hs.
    assert (Hmain : exists h, In h (selectMain haversineDistance (scoreSteps flat) route)
                              /\ score (scored c) <= score (scored h)).
    { unfold selectMain. fold isCandidate.
      destruct (sortBy byScoreThenOrder (filter isCandidate (scoreSteps flat)))
        as [|h tl]; [contradiction|].
      exists h. split.
      - cbn [pickMain]. pose proof (ScorerFacts.getTargetCount_bounds route) as Hb.
        destruct (Z.geb_spec (len (@nil ScoredStep)) (getTargetCount route)) as [Hfull|_];
          [cbn in Hfull; lia|].
        cbn [isTooClose existsb app]. apply pickMain_extends. now left.
      - destruct Hsorted as [<-|Hin']; [lia|].
        inversion Hs as [|? ? _ Hhead]; subst.
        pose proof (proj1 (Forall_forall _ _) Hhead c Hin') as Ha.
        unfold ahead in Ha. lia. }
    destruct Hmain as [h [Hh Hscore]].
    destruct (In_mapi_image _ _ toDecisionPoint _ 0 (asMain h) (Hkept h Hh)) as [i Hi].
    exists (toDecisionPoint (asMain h) i). split; [assumption|]. split; [reflexivity|].
    exact Hscore. }
  split; [|exact Htop].
  split.
  - intros Hempty s Hs. destruct (isCandidate s) eqn:Hc; [|reflexivity].
    destruct (Htop s Hs Hc) as [p [Hp _]]. rewrite Hempty in Hp. contradiction.
  - intros Hnone.
    unfold selectRehearsalSteps, selectMain. fold isCandidate.
    assert (Hfilter : filter isCandidate (scoreSteps flat) = []).
    { clear - Hnone. induction (scoreSteps flat) as [|x xs IH]; cbn; [reflexivity|].
      rewrite (Hnone x (or_introl eq_refl)). apply IH. intros s Hs. apply Hnone. now right. }
    rewrite Hfilter. reflexivity.
Qed.

End Choice.

(** ** The flattening, step by step *)

Lemma forEach_invariant_at (St T : Type) (f : St -> T -> Z -> Result St)
      (P : Z -> St -> Prop) (l : list T) :
  forall (i : Z) (st st' : St),
    (forall j x st st',
        nth_error l j = Some x -> P (i + Z.of_nat j) st ->
        f st x (i + Z.of_nat j) = Ok st' -> P (i + Z.of_nat j + 1) st') ->
    P i st -> forEach f i l st = Ok st' -> P (i + len l) st'.
Proof.
  unfold len. induction l as [|x xs IH]; cbn [forEach List.length]; intros i st st' Hstep HP Hrun.
  - injection Hrun as <-. now rewrite Z.add_0_r.
  - destruct (f st x i) as [st1|] eqn:Hf; cbn [bind] in Hrun; [|discriminate].
    replace (i + Z.of_nat (S (List.length xs))) with (i + 1 + Z.of_nat (List.length xs)) by lia.
    apply (IH (i + 1) st1 st'); [| |assumption].
    + intros j y s s' Hy HPs Hfs.
      replace (i + 1 + Z.of_nat j) with (i + Z.of_nat (S j)) in * by lia.
      now apply (Hstep (S j) y s s').
    + specialize (Hstep 0%nat x st st1 eq_refl). cbn [Z.of_nat] in Hstep.
      rewrite Z.add_0_r in Hstep. auto.
Qed.

(** A loop that returned has returned at every element. *)
Lemma forEach_returned (St T : Type) (f : St -> T -> Z -> Result St) (l : list T) :
  forall (i : Z) (st st' : St),
    forEach f i l st = Ok st' ->
    forall x, In x l -> exists st0 j st1, f st0 x j = Ok st1.
Proof.
  induction l as [|y ys IH]; cbn [forEach]; intros i st st' Hrun x Hin; [contradiction|].
  destruct (f st y i) as [st1|] eqn:Hf; cbn [bind] in Hrun; [|discriminate].
  destruct Hin as [<-|Hin]; [now exists st, i, st1|].
  now apply (IH (i + 1) st1 st').
Qed.

Lemma orNull_idempotent (m : option string) : orNull (orNull m) = orNull m.
Proof.
  destruct m as [code|]; cbn; [|reflexivity].
  destruct (String.eqb code "") eqn:E; cbn; [reflexivity|]. now rewrite E.
Qed.

Section Addresses.
Variable stripHtml : string -> string.
Variable computeHeading : option LatLng -> option LatLng -> Result Q.
Variable haversineDistance : Q -> Q -> Q -> Q -> Q.

Lemma flattenStep_fields (oi li si : Z) (s : RawStep) (e : FlatStep) :
  flattenStep stripHtml computeHeading oi li si s = Ok e ->
  legIndex e = li /\ stepIndex e = si /\ step e = s /\
  exists start,
    start_location s = Some start /\
    lat e = lat_of start /\ lng e = lng_of start /\
    computeHeading (start_location s) (end_location s) = Ok (heading e) /\
    instructionHtml e = orEmpty (instructions s) /\
    instruction e = stripHtml (orEmpty (instructions s)) /\
    distanceMeters e = match distance s with Some d => value d | None => 0 end /\
    distanceText e = match distance s with Some d => text d | None => "" end /\
    entry_maneuver e = orNull (maneuver s).
Proof.
  unfold flattenStep.
  destruct (computeHeading _ _) as [h|]; cbn [bind]; [|discriminate].
  destruct (start_location s) as [start|]; cbn [bind]; [|discriminate].
  intros [= <-]. cbn. repeat split. exists start. repeat split.
Qed.

Lemma nth_Z_of_nat (A : Type) (l : list A) (j : nat) :
  nth_Z l (Z.of_nat j) = nth_error l j.
Proof.
  unfold nth_Z. destruct (Z.ltb_spec (Z.of_nat j) 0); [lia|]. now rewrite Nat2Z.id.
Qed.

Lemma flattenSteps_addresses (route : Route) (flat : list FlatStep) :
  flattenSteps stripHtml computeHeading route = Ok flat ->
  (forall e, In e flat -> flattenedFrom stripHtml computeHeading route e) /\
  routeOrdered flat.
Proof.
  unfold flattenSteps. intros Hrun.
  destruct (forEach _ 0 (legs route) ([], 0)) as [out|] eqn:Hloop; [|discriminate].
  cbn in Hrun. injection Hrun as <-.
  enough (Hinv : flattenedUpTo stripHtml computeHeading route (0 + len (legs route)) 0 out).
  { destruct Hinv as [Hall Hord]. split; [|assumption]. intros e He. now apply Hall. }
  revert Hloop.
  apply (forEach_invariant_at _ _ _ (fun li st => flattenedUpTo stripHtml computeHeading route li 0 st)).
  - intros lj leg st st' Hleg Hst Hinner. rewrite Z.add_0_l in *.
    enough (Hin : flattenedUpTo stripHtml computeHeading route (Z.of_nat lj) (0 + len (steps leg)) st').
    { destruct Hin as [Hall Hord]. split; [|assumption].
      intros e He. destruct (Hall e He) as [Hfrom Hpos]. split; [assumption|]. lia. }
    revert Hinner.
    apply (forEach_invariant_at _ _ _ (fun si st => flattenedUpTo stripHtml computeHeading route (Z.of_nat lj) si st)).
    + clear st st' Hst.
      intros sj s [flat oi] st' Hs [Hall Hord]. rewrite Z.add_0_l in *.
      cbn [fst] in Hall, Hord.
      destruct (flattenStep _ _ oi (Z.of_nat lj) (Z.of_nat sj) s) as [e|] eqn:He;
        cbn [bind]; [|discriminate].
      intros [= <-]. unfold flattenedUpTo. cbn [fst].
      apply flattenStep_fields in He.
      destruct He as [Hli [Hsi [Hstep [start Hfields]]]].
      assert (Hnew : flattenedFrom stripHtml computeHeading route e).
      { exists leg, start. rewrite Hli, Hsi, Hstep, !nth_Z_of_nat. auto. }
      split.
      * intros e' He'. apply in_app_or in He'. destruct He' as [He'|[<-|[]]].
        -- destruct (Hall e' He') as [Hfrom Hpos]. split; [assumption|]. lia.
        -- split; [assumption|]. lia.
      * intros i j a b Ha Hb Hij.
        destruct (Nat.lt_ge_cases j (List.length flat)) as [Hj|Hj].
        -- rewrite nth_error_app1 in Ha by lia. rewrite nth_error_app1 in Hb by lia.
           now apply (Hord i j).
        -- rewrite nth_error_app2 in Hb by assumption.
           destruct (j - List.length flat)%nat as [|n] eqn:Hd; cbn in Hb;
             [|destruct n; discriminate].
           injection Hb as <-.
           rewrite nth_error_app1 in Ha by lia.
           destruct (Hall a (nth_error_In _ _ Ha)) as [_ Hpos].
           unfold routeBefore. lia.
    + destruct Hst as [Hall Hord]. split; [|assumption].
      intros e He. destruct (Hall e He) as [Hfrom Hpos]. split; [assumption|]. lia.
  - split; [intros e []|]. intros [|i] j a b Ha; discriminate.
Qed.

(** Every step of a route that was flattened is located. *)
Lemma flattenSteps_located (route : Route) (flat : list FlatStep) :
  flattenSteps stripHtml computeHeading route = Ok flat ->
  located computeHeading route.
Proof.
  unfold flattenSteps. intros Hrun.
  destruct (forEach _ 0 (legs route) ([], 0)) as [out|] eqn:Hloop; [|discriminate].
  intros leg Hleg s Hs.
  destruct (forEach_returned _ _ _ _ _ _ _ Hloop leg Hleg) as [st0 [li [st1 Hinner]]].
  destruct (forEach_returned _ _ _ _ _ _ _ Hinner s Hs) as [[flat0 oi] [si [st2 Hstep]]].
  destruct (flattenStep stripHtml computeHeading oi li si s) as [e|] eqn:He;
    [|discriminate].
  apply flattenStep_fields in He.
  destruct He as [_ [_ [_ [start [Hstart [_ [_ [Hhead _]]]]]]]].
  rewrite Hhead, Hstart. split; [discriminate|reflexivity].
Qed.

(** X10.  [analyze] returns the empty list when there is no result or no route,
    and on a first route it returns exactly when every step of that route
    has a start location and a bearing: a step without a start location
    makes it throw, whatever the other routes are. *)
Theorem analyze_returns_when_located :
  analyze stripHtml computeHeading haversineDistance None = Ok [] /\
  analyze stripHtml computeHeading haversineDistance (Some []) = Ok [] /\
  forall route rest,
    returns (analyze stripHtml computeHeading haversineDistance (Some (route :: rest)))
    = true <-> located computeHeading route.
Proof.
  split; [reflexivity|]. split; [reflexivity|].
  intros route rest. split.
  - cbn [analyze]. unfold selectedSteps.
    destruct (flattenSteps stripHtml computeHeading route) as [flat|] eqn:Hflat;
      cbn [bind]; [|discriminate].
    intros _. exact (flattenSteps_located route flat Hflat).
  - intros Hloc. cbn [analyze]. unfold selectedSteps.
    pose proof (@flattenSteps_returns stripHtml computeHeading route Hloc) as Hret.
    destruct (flattenSteps stripHtml computeHeading route); [reflexivity|discriminate].
Qed.

Lemma selected_entry (flat : list FlatStep) (route : Route) (s : Selected) :
  In s (selectRehearsalSteps haversineDistance (scoreSteps flat) route) ->
  In (entry (sel s)) flat.
Proof.
  intros Hs. apply selected_origin in Hs.
  destruct Hs as [[m [Hm ->]]|[m [l [Hm [Hl ->]]]]]; cbn.
  - apply selectMain_candidates in Hm. now apply scoreSteps_scored.
  - apply getLeadInStep_origin in Hl. now apply scoreSteps_scored.
Qed.

(** X11.  Every point of the output identifies the step it was made from: its
    leg index and step index address a step of the first route, and its
    coordinates, bearing, text, distance and maneuver code are those of
    that step. *)
Theorem points_identify_steps
  (route : Route) (rest : list Route) (out : list DecisionPoint) (p : DecisionPoint) :
  analyze stripHtml computeHeading haversineDistance (Some (route :: rest)) = Ok out ->
  In p out ->
  exists leg s start,
    nth_Z (legs route) (dp_legIndex p) = Some leg /\
    nth_Z (steps leg) (dp_stepIndex p) = Some s /\
    start_location s = Some start /\
    dp_lat p = lat_of start /\ dp_lng p = lng_of start /\
    computeHeading (start_location s) (end_location s) = Ok (dp_heading p) /\
    dp_instruction p = stripHtml (orEmpty (instructions s)) /\
    dp_distanceMeters p = match distance s with Some d => value d | None => 0 end /\
    dp_distance p = match distance s with Some d => text d | None => "" end /\
    dp_maneuver p = orNull (maneuver s).
Proof.
  cbn [analyze]. unfold selectedSteps.
  destruct (flattenSteps stripHtml computeHeading route) as [flat|] eqn:Hflat;
    cbn [bind]; [|discriminate].
  intros [= <-] Hin. apply In_mapi in Hin. destruct Hin as [s [idx [Hs ->]]].
  apply selected_entry in Hs.
  destruct (flattenSteps_addresses route flat Hflat) as [Hall _].
  destruct (Hall _ Hs)
    as [leg [start [Hleg [Hstep [Hstart [Hlat [Hlng [Hhead [_ [Htext [Hd [Hdt Hm]]]]]]]]]]]].
  exists leg, (step (entry (sel s))), start. cbn.
  rewrite Hm, orNull_idempotent. repeat split; assumption.
Qed.


End Addresses.

(** ** The trimming *)

Section Trimming.
Variable stripHtml : string -> string.
Variable computeHeading : option LatLng -> option LatLng -> Result Q.
Variable haversineDistance : Q -> Q -> Q -> Q -> Q.

(** X19.  Trimming spares the main steps.  On the steps of a flattened
    route, every step the greedy loop selects is among the selected steps
    as a step of its own right, before and after the trimming to the cap:
    the steps that are not lead-ins are as many as the loop selected, at
    most the target count, and the loop of [trimToMaxPoints] that removes
    such steps never runs. *)
Theorem trimming_spares_main_steps (route : Route) (flat : list FlatStep) :
  flattenSteps stripHtml computeHeading route = Ok flat ->
  let mains := selectMain haversineDistance (scoreSteps flat) route in
  let selected := selectRehearsalSteps haversineDistance (scoreSteps flat) route in
  (forall m, In m mains -> In (asMain m) selected) /\
  (forall p, In p selected -> isLeadIn p = false -> exists m, In m mains /\ p = asMain m) /\
  len (filter isMain selected) = len mains /\
  len mains <= getTargetCount route /\
  forall points,
    uniqueKeys points -> fromMains mains points ->
    trimToMaxPoints points
    = sortBy byOrder (dropWhileOver (sortBy byScore (filter isLeadIn points)) points).
Proof.
  intros Hflat mains selected.
  pose proof (@scoreSteps_positioned flat
                (@flattenSteps_positions stripHtml computeHeading route flat Hflat))
    as Hpositioned.
  destruct (selectRehearsalSteps_count haversineDistance (scoreSteps flat) route)
    as [_ [_ Hkept]]. specialize (Hkept Hpositioned). fold mains selected in Hkept.
  destruct (selectRehearsalSteps_keeps haversineDistance (scoreSteps flat) route)
    as [Hu [Hfrom _]]. fold mains selected in Hu, Hfrom.
  pose proof (selectMain_length haversineDistance (scoreSteps flat) route) as Hlen.
  fold mains in Hlen.
  pose proof (ScorerFacts.getTargetCount_bounds route) as Hbounds.
  split; [exact Hkept|]. split; [exact Hfrom|]. split; [|split; [exact Hlen|]].
  - apply Z.le_antisymm; [now apply mains_counted|].
    unfold len. apply inj_le.
    rewrite <- (length_map asMain mains).
    apply NoDup_incl_length.
    + apply (NoDup_map_inv sel_orderIndex). rewrite map_map.
      apply (selectMain_NoDup haversineDistance (scoreSteps flat) route Hpositioned).
    + intros p Hp. apply in_map_iff in Hp. destruct Hp as [m [<- Hm]].
      apply filter_In. split; [now apply Hkept|reflexivity].
  - intros points Hup Hfp. apply (trimToMaxPoints_leadIns mains); auto.
    unfold MAX_TARGET_POINTS. lia.
Qed.

End Trimming.

(** ** The sample drive again *)

Lemma drive_flattened : flattenSteps sampleStripHtml sampleHeading drive = Ok driveFlat.
Proof. vm_compute. reflexivity. Qed.

Lemma drive_scored : scoreSteps driveFlat = driveScored.
Proof. vm_compute. reflexivity. Qed.

Lemma scores_in_range_witness :
  exists p,
    nth_error drivePoints 1 = Some p /\ dp_isLeadIn p = false /\ 1 <= dp_score p <= 21.
Proof.
  eexists. split; [reflexivity|]. split; [reflexivity|].
  destruct (scores_in_range sampleStripHtml sampleHeading sampleDistance
              (Some [drive]) drivePoints _ drive_analyzed
              (nth_error_In drivePoints 1 eq_refl)) as [Hrange Hmain].
  destruct (Hmain eq_refl) as [Hpos _]. split; [exact Hpos|apply Hrange].
Defined.

Lemma lead_in_tag_witness :
  exists p,
    nth_error drivePoints 0 = Some p /\ dp_isLeadIn p = true /\
    dp_isLeadIn p = includes (dp_reasons p) RLeadIn /\
    (40 < dp_distanceMeters p \/
     isPrepareStep (Regex.toLowerCase (dp_instruction p)) = true).
Proof.
  eexists. split; [reflexivity|]. split; [reflexivity|].
  destruct (lead_in_tag sampleStripHtml sampleHeading sampleDistance
              (Some [drive]) drivePoints _ drive_analyzed
              (nth_error_In drivePoints 0 eq_refl)) as [Htag Hcond].
  split; [exact Htag|exact (Hcond eq_refl)].
Defined.

Lemma commitment_and_decision_flag_witness :
  exists p,
    nth_error drivePoints 4 = Some p /\ dp_commitmentLevel p = High /\
    10 <= dp_score p /\ dp_isDecisionPoint p = true.
Proof.
  eexists. split; [reflexivity|]. split; [reflexivity|].
  destruct (commitment_and_decision_flag sampleStripHtml sampleHeading sampleDistance
              (Some [drive]) drivePoints _ drive_analyzed
              (nth_error_In drivePoints 4 eq_refl)) as [Hhigh _].
  exact (Hhigh eq_refl).
Defined.

Lemma primary_is_roundabout_witness :
  exists p,
    nth_error drivePoints 4 = Some p /\ dp_isPrimary p = true /\
    dp_type p = TRoundabout /\ dp_typeLabel p = "Roundabout".
Proof.
  eexists. split; [reflexivity|]. split; [reflexivity|].
  destruct (primary_is_roundabout sampleStripHtml sampleHeading sampleDistance
              (Some [drive]) drivePoints _ drive_analyzed
              (nth_error_In drivePoints 4 eq_refl)) as [_ Hprimary].
  exact (Hprimary eq_refl).
Defined.

Lemma bounded_count_witness :
  len drivePoints <= 12 /\
  len (filter (fun p => negb (dp_isLeadIn p)) drivePoints) <= getTargetCount drive.
Proof.
  destruct (bounded_count sampleStripHtml sampleHeading sampleDistance
              (Some [drive]) drivePoints drive_analyzed) as [Hcap Hmain].
  split; [exact Hcap|exact (Hmain drive [] eq_refl)].
Defined.

Lemma greedy_selection_complete_witness :
  exists c,
    nth_error driveScored 2 = Some c /\
    let selected := selectRehearsalSteps sampleDistance (scoreSteps driveFlat) drive in
    In (asMain c) selected \/
    (exists m, In (asMain m) selected /\ near sampleDistance c m /\
               (score (scored c) < score (scored m) \/
                (score (scored c) = score (scored m) /\
                 orderIndex (entry m) < orderIndex (entry c)))) \/
    getTargetCount drive <= len (filter isMain selected).
Proof.
  eexists. split; [reflexivity|].
  apply (greedy_selection_complete sampleStripHtml sampleHeading sampleDistance
           drive driveFlat _ drive_flattened).
  - rewrite drive_scored. apply nth_error_In with (n := 2%nat). reflexivity.
  - reflexivity.
  - reflexivity.
Defined.

Lemma top_candidate_selected_witness :
  exists c p,
    nth_error driveScored 4 = Some c /\ In p drivePoints /\
    dp_isLeadIn p = false /\ score (scored c) <= dp_score p.
Proof.
  destruct (top_candidate_selected sampleStripHtml sampleHeading sampleDistance
              drive [] drivePoints drive_analyzed) as [flat [Hflat [_ Htop]]].
  rewrite drive_flattened in Hflat. injection Hflat as <-.
  rewrite drive_scored in Htop.
  eexists.
  destruct (Htop _ (nth_error_In driveScored 4 eq_refl) eq_refl) as [p [Hp [Hlead Hscore]]].
  exists p. split; [reflexivity|]. repeat split; assumption.
Defined.

Lemma analyze_returns_when_located_witness :
  located sampleHeading drive /\ ~ located sampleHeading lostRoute.
Proof.
  destruct (analyze_returns_when_located sampleStripHtml sampleHeading sampleDistance)
    as [_ [_ Hiff]].
  split.
  - apply (Hiff drive []). vm_compute. reflexivity.
  - intros Hloc. apply (Hiff lostRoute []) in Hloc. vm_compute in Hloc. discriminate.
Defined.

Lemma points_identify_steps_witness :
  exists p leg s,
    nth_error drivePoints 1 = Some p /\
    nth_Z (legs drive) (dp_legIndex p) = Some leg /\
    nth_Z (steps leg) (dp_stepIndex p) = Some s /\
    dp_instruction p = sampleStripHtml (orEmpty (instructions s)) /\
    dp_maneuver p = orNull (maneuver s).
Proof.
  eexists.
  destruct (points_identify_steps sampleStripHtml sampleHeading sampleDistance
              drive [] drivePoints _ drive_analyzed
              (nth_error_In drivePoints 1 eq_refl))
    as [leg [s [start [Hleg [Hstep [_ [_ [_ [_ [Htext [_ [_ Hcode]]]]]]]]]]]].
  exists leg, s. split; [reflexivity|]. repeat split; assumption.
Defined.


Lemma trimming_spares_main_steps_witness :
  len (filter isMain (selectRehearsalSteps sampleDistance (scoreSteps driveFlat) drive))
  = len (selectMain sampleDistance (scoreSteps driveFlat) drive) /\
  len (selectMain sampleDistance (scoreSteps driveFlat) drive) <= getTargetCount drive.
Proof.
  destruct (trimming_spares_main_steps sampleStripHtml sampleHeading sampleDistance
              drive driveFlat drive_flattened) as [_ [_ [Hsame [Hcount _]]]].
  split; assumption.
Defined.

End OutputFacts.

(* ===================================================================== *)
(** * Further properties of the sequencer *)
(* ===================================================================== *)

Module SessionFacts.
Unset Implicit Arguments.
Import RehearsalPlayer Samples Documented PlayerFacts.
Open Scope list_scope.
Open Scope Z_scope.

(** ** The sequencer between two calls *)

Lemma bounded_transfer (st st' : Player) :
  currentIndex st' = currentIndex st ->
  timers st' = timers st -> playTimer st' = playTimer st ->
  isPlaying st' = isPlaying st -> panorama st' = panorama st ->
  len (thePoints st') = len (thePoints st) ->
  bounded st -> bounded st'.
Proof.
  intros Hci Ht Hh Hp Hpano Hlen [Hsound Hrange].
  split; [now apply (sound_transfer st st')|].
  unfold inRange. rewrite Hci, Hlen. intros Hne. apply Hrange.
  intros E. apply Hne. now apply (nil_iff_len _ _ _ Hlen).
Qed.

Lemma bounded_emitUpdate (st : Player) : bounded st -> bounded (emitUpdate st).
Proof.
  destruct (emitUpdate_fields st) as [_ [Hpano [_ [Hci [Hp [Hh [_ [_ [_ [Ht _]]]]]]]]]].
  apply bounded_transfer; auto. now rewrite thePoints_emitUpdate.
Qed.

Lemma bounded_recordCurrentDwell (now : Z) (st : Player) :
  bounded st -> bounded (recordCurrentDwell now st).
Proof.
  destruct (recordCurrentDwell_fields now st) as [Hpano [_ [Hci [Hp [Hh [_ [Ht _]]]]]]].
  apply bounded_transfer; auto. apply len_thePoints_recordCurrentDwell.
Qed.

Lemma idle_steady (st : Player) :
  bounded st -> isPlaying st = false -> timers st = [] -> steady st.
Proof.
  intros Hb Hidle Hnone. split; [assumption|]. split; [auto|]. congruence.
Qed.

Lemma steady_pause (st : Player) : bounded st -> steady (pause st).
Proof.
  intros [Hsound Hrange].
  destruct (pause_fields st) as [Hp [Hh [_ [_ [Hpano [Hci [_ [_ [_ Hclear]]]]]]]]].
  apply idle_steady; [|assumption|apply Hclear, Hsound].
  split; [now apply sound_pause|].
  unfold inRange. now rewrite Hci, thePoints_pause.
Qed.

Lemma bounded_clearPlayTimer (st : Player) :
  bounded st -> bounded (clearPlayTimer st) /\ timers (clearPlayTimer st) = [].
Proof.
  intros [Hsound Hrange].
  destruct (sound_clearPlayTimer st Hsound) as [Hsound' Hclear].
  destruct (clearPlayTimer_fields st) as [_ [Hci [Hpts _]]].
  split; [|assumption]. split; [assumption|].
  unfold inRange. now rewrite Hci, Hpts.
Qed.

Lemma showPoint_bounded (index now : Z) (st : Player) :
  bounded st ->
  exists st',
    showPoint index now st = Ok st' /\ bounded st' /\
    isPlaying st' = isPlaying st /\ speed st' = speed st /\
    timers st' = timers st /\
    len (thePoints st') = len (thePoints st) /\
    (0 <= index < len (thePoints st) -> currentIndex st' = index) /\
    (~ 0 <= index < len (thePoints st) -> st' = st).
Proof.
  intros Hb. pose proof Hb as [Hsound Hrange].
  destruct (Z.le_gt_cases 0 index) as [Hlo|Hlo];
    [destruct (Z.lt_ge_cases index (len (thePoints st))) as [Hhi|Hhi]|].
  - assert (Hpano : panorama st <> None).
    { apply Hsound. intros E. rewrite E in Hhi. cbn in Hhi. lia. }
    destruct (@showPoint_in_range index now st (conj Hlo Hhi) Hpano)
      as [st' [Hrun [Hci [Hp [Hs [Ht [Hh [Hpano' Hlen]]]]]]]].
    exists st'. split; [exact Hrun|].
    split; [|repeat split; auto; lia].
    split.
    + unfold sound. rewrite Hci, Hp. split; [lia|]. split; [|split; [|auto]].
      * exact (@timersOwned_fields st st' Ht Hh (proj1 (proj2 Hsound))).
      * intros E. apply Hsound. now apply (nil_iff_len _ _ _ Hlen).
    + unfold inRange. rewrite Hci, Hlen. intros _. lia.
  - exists st. unfold showPoint.
    destruct (Z.geb_spec index (len (thePoints st))); [|lia].
    rewrite orb_true_r. split; [reflexivity|]. split; [exact Hb|].
    repeat split; auto; lia.
  - exists st. unfold showPoint.
    destruct (Z.ltb_spec index 0); [|lia].
    cbn [orb]. split; [reflexivity|]. split; [exact Hb|].
    repeat split; auto; lia.
Qed.

Lemma scheduleNextWith_steady (nxt : Player -> Result Player) (now : Z) (st : Player) :
  bounded st ->
  (forall st2,
     bounded st2 -> timers st2 = [] ->
     currentIndex st2 = currentIndex st ->
     len (thePoints st2) = len (thePoints st) ->
     currentIndex st2 < len (thePoints st2) - 1 ->
     exists st', nxt st2 = Ok st' /\ steady st' /\
                 len (thePoints st') = len (thePoints st)) ->
  exists st', scheduleNextWith nxt now st = Ok st' /\ steady st' /\
              len (thePoints st') = len (thePoints st).
Proof.
  intros Hb Hnxt. unfold scheduleNextWith.
  destruct (bounded_clearPlayTimer st Hb) as [Hb2 Hclear].
  destruct (clearPlayTimer_fields st) as [Hp [Hci [Hpts _]]].
  set (st2 := clearPlayTimer st) in *.
  destruct (isPlaying st2) eqn:Hplay; cbn [negb].
  2: { exists st2. split; [reflexivity|]. split; [now apply idle_steady|].
       now rewrite Hpts. }
  destruct (Z.geb_spec (currentIndex st2) (len (thePoints st2) - 1)) as [Hlast|Hmore].
  - eexists. split; [reflexivity|].
    split; [now apply steady_pause, bounded_recordCurrentDwell|].
    now rewrite thePoints_pause, len_thePoints_recordCurrentDwell, Hpts.
  - destruct (Qeq_bool (speed st2) 0) eqn:Hskip.
    + apply Hnxt; auto. now rewrite Hpts.
    + eexists. split; [reflexivity|]. split; [|now rewrite <- Hpts].
      destruct Hb2 as [Hsound2 Hrange2]. split; [split|split].
      * now apply sound_armPlayTimer.
      * exact Hrange2.
      * cbn. congruence.
      * intros _. cbn. rewrite Hclear. repeat split; auto. discriminate.
Qed.

Lemma nextFuel_steady (now : Z) :
  forall (n fuel : nat) (st : Player),
    bounded st -> (isPlaying st = false -> timers st = []) ->
    len (thePoints st) - 1 - currentIndex st <= Z.of_nat n ->
    (n < fuel)%nat ->
    exists st', nextFuel fuel now st = Ok st' /\ steady st' /\
                len (thePoints st') = len (thePoints st).
Proof.
  induction n as [|n IH]; intros fuel st Hb Hidle Hleft Hfuel;
    (destruct fuel as [|fuel]; [lia|]); cbn [nextFuel];
    (destruct (Z.ltb_spec (currentIndex st) (len (thePoints st) - 1)) as [Hmore|Hlast];
     [|eexists; split; [reflexivity|];
       split; [now apply steady_pause, bounded_recordCurrentDwell|];
       now rewrite thePoints_pause, len_thePoints_recordCurrentDwell]);
    [lia|].
  destruct (showPoint_bounded (currentIndex st + 1) now st Hb)
    as [st1 [-> [Hb1 [Hp1 [_ [Ht1 [Hlen1 [Hci1 _]]]]]]]].
  cbn [bind].
  assert (Hci : currentIndex st1 = currentIndex st + 1)
    by (apply Hci1; destruct Hb as [[? _] _]; lia).
  destruct (isPlaying st1) eqn:Hplay1.
  - destruct (scheduleNextWith_steady (nextFuel fuel now) now st1 Hb1)
      as [st' [Hrun [Hsteady Hlen]]].
    + intros st2 Hb2 Ht2 Hci2 Hlen2 Hmore2.
      destruct (IH fuel st2 Hb2 (fun _ => Ht2)) as [st' [Hrun [Hsteady Hlen]]];
        [lia|lia|].
      exists st'. split; [exact Hrun|]. split; [exact Hsteady|]. congruence.
    + exists st'. split; [exact Hrun|]. split; [exact Hsteady|]. congruence.
  - exists st1. split; [reflexivity|]. split; [|assumption].
    apply idle_steady; auto. rewrite Ht1. apply Hidle. congruence.
Qed.

Lemma next_steady (now : Z) (st : Player) :
  bounded st -> (isPlaying st = false -> timers st = []) ->
  exists st', next now st = Ok st' /\ steady st' /\
              len (thePoints st') = len (thePoints st).
Proof.
  intros Hb Hidle. unfold next, fuelFor.
  apply nextFuel_steady with (n := List.length (thePoints st)); auto.
  destruct Hb as [[Hidx _] _]. unfold len. lia.
Qed.

Lemma scheduleNext_steady (now : Z) (st : Player) :
  bounded st ->
  exists st', scheduleNext now st = Ok st' /\ steady st' /\
              len (thePoints st') = len (thePoints st).
Proof.
  intros Hb. unfold scheduleNext. apply scheduleNextWith_steady; [assumption|].
  intros st2 Hb2 Ht2 _ Hlen2 _.
  destruct (next_steady now st2 Hb2 (fun _ => Ht2)) as [st' [Hrun [Hsteady Hlen]]].
  exists st'. split; [exact Hrun|]. split; [exact Hsteady|]. congruence.
Qed.

Lemma play_steady (now : Z) (st : Player) :
  steady st -> exists st', play now st = Ok st' /\ steady st'.
Proof.
  intros Hsteady. unfold play.
  destruct (Z.eqb_spec (len (thePoints st)) 0) as [Hz|Hnz]; [now exists st|].
  destruct Hsteady as [[Hsound Hrange] _].
  destruct (scheduleNext_steady now (emitUpdate (set_isPlaying true st)))
    as [st' [Hrun [Hs _]]]; [|now exists st'].
  apply bounded_emitUpdate. split; [|exact Hrange].
  apply sound_set_isPlaying_true; [assumption|].
  intros E. rewrite E in Hnz. now apply Hnz.
Qed.

Lemma shown_then_steady (index now : Z) (st : Player) :
  steady st ->
  exists st',
    (st1 <- showPoint index now st ;;
     if isPlaying st1 then scheduleNext now st1 else Ok st1) = Ok st' /\ steady st'.
Proof.
  intros [Hb [Hidle _]].
  destruct (showPoint_bounded index now st Hb)
    as [st1 [-> [Hb1 [Hp1 [_ [Ht1 _]]]]]].
  cbn [bind]. destruct (isPlaying st1) eqn:Hplay1.
  - destruct (scheduleNext_steady now st1 Hb1) as [st' [Hrun [Hs _]]]. now exists st'.
  - exists st1. split; [reflexivity|]. apply idle_steady; auto.
    rewrite Ht1. apply Hidle. congruence.
Qed.

Lemma setSpeed_steady (newSpeed : Q) (now : Z) (st : Player) :
  steady st -> exists st', setSpeed newSpeed now st = Ok st' /\ steady st'.
Proof.
  intros [Hb [Hidle Hplaying]]. unfold setSpeed.
  set (st1 := emitUpdate (set_speed newSpeed st)).
  assert (Hb1 : bounded st1) by (apply bounded_emitUpdate; exact Hb).
  destruct (emitUpdate_fields (set_speed newSpeed st))
    as [_ [_ [_ [Hci [Hp [_ [Hs [_ [_ [Ht _]]]]]]]]]].
  fold st1 in Hci, Hp, Hs, Ht. cbn in Hci, Hp, Hs, Ht.
  assert (Hpts : thePoints st1 = thePoints st)
    by exact (thePoints_emitUpdate (set_speed newSpeed st)).
  destruct (isPlaying st1 && Qeq_bool (speed st1) 0) eqn:Hskip.
  - destruct (bounded_clearPlayTimer st1 Hb1) as [Hb2 Hclear].
    destruct (next_steady now (clearPlayTimer st1) Hb2 (fun _ => Hclear))
      as [st' [Hrun [Hsteady _]]].
    now exists st'.
  - exists st1. split; [reflexivity|]. split; [assumption|].
    split; rewrite Hp, Ht; [exact Hidle|].
    intros Hplay. destruct (Hplaying Hplay) as [Hnone [Hmore _]].
    rewrite Hci, Hpts. repeat split; auto.
    rewrite Hp, Hplay in Hskip. exact Hskip.
Qed.

Lemma destroy_steady (now : Z) (st : Player) : steady st -> steady (destroy now st).
Proof.
  intros [[Hsound _] _].
  pose proof (destroy_sound now st Hsound) as Hsound'.
  unfold destroy in *.
  destruct (pause_fields st) as [Hp [_ [_ [_ [_ [_ [_ [_ [_ Hclear]]]]]]]]].
  destruct (recordCurrentDwell_fields now (pause st)) as [_ [_ [_ [Hp2 [_ [_ [Ht2 _]]]]]]].
  apply idle_steady.
  - split; [exact Hsound'|]. intros Hne. exfalso. now apply Hne.
  - cbn [isPlaying set_lastShownAt set_points set_panorama]. congruence.
  - cbn [timers set_lastShownAt set_points set_panorama]. rewrite Ht2.
    apply Hclear, Hsound.
Qed.

Lemma timerFires_steady (h : nat) (now : Z) (st : Player) :
  steady st -> exists st', timerFires h now st = Ok st' /\ steady st'.
Proof.
  intros Hsteady. unfold timerFires.
  destruct (existsb _ (timers st)) eqn:Hpending; [|now exists st].
  destruct Hsteady as [[Hsound Hrange] _].
  assert (Hclear : timers (clearTimeout h st) = []).
  { destruct Hsound as [_ [[Hnone|[h' [d [Hone _]]]] _]].
    - rewrite Hnone in Hpending. discriminate.
    - rewrite Hone in Hpending. cbn in Hpending. rewrite orb_false_r in Hpending.
      unfold clearTimeout. cbn. rewrite Hone. cbn. now rewrite Hpending. }
  destruct (next_steady now (clearTimeout h st)) as [st' [Hrun [Hs _]]];
    [|auto|now exists st'].
  split; [|exact Hrange].
  destruct Hsound as [Hidx [Howned [Hidle Hhas]]].
  unfold sound. repeat split; auto. left. exact Hclear.
Qed.

Lemma init_steady (a : nat) (callback : bool) (now : Z) (st : Player) :
  sound st ->
  (forall st', init a callback now st = Ok st' -> steady st') /\
  (init a callback now st = Throw TypeError -> steady (initReset a callback st)).
Proof.
  intros Hsound.
  assert (H0 : currentIndex (initReset a callback st) = 0 /\
               isPlaying (initReset a callback st) = false /\
               timers (initReset a callback st) = []).
  { unfold initReset.
    match goal with |- context [clearPlayTimer ?x] =>
      destruct (clearPlayTimer_fields x) as [-> [-> _]];
      assert (Hx : timersOwned x) by exact (proj1 (proj2 Hsound));
      rewrite (clearPlayTimer_owned Hx)
    end.
    repeat split. }
  destruct H0 as [Hci0 [Hp0 Ht0]].
  unfold init. remember (initReset a callback st) as st0 eqn:Hst0. clear Hst0.
  destruct (nth_Z (thePoints st0) 0) as [p0|] eqn:Hhead.
  - match goal with |- context [showPoint 0 now ?x] => remember x as st1 eqn:Hst1 end.
    assert (Hfields : currentIndex st1 = 0 /\ isPlaying st1 = false /\ timers st1 = [] /\
                      thePoints st1 = thePoints st0 /\ panorama st1 <> None).
    { subst st1. cbn. repeat split; auto. discriminate. }
    clear Hst1. destruct Hfields as [Hci1 [Hp1 [Ht1 [Hpts1 Hpano1]]]].
    assert (Hne : thePoints st0 <> []) by (destruct (thePoints st0); discriminate).
    assert (Hb1 : bounded st1).
    { split.
      - unfold sound, timersOwned. rewrite Hci1, Hp1, Ht1, Hpts1.
        repeat split; auto; try lia; intros E; contradiction.
      - unfold inRange. rewrite Hci1, Hpts1.
        destruct (thePoints st0); [contradiction|]. intros _. unfold len. cbn. lia. }
    destruct (showPoint_bounded 0 now st1 Hb1) as [st2 [Hrun2 [Hb2 [Hp2 [_ [Ht2 _]]]]]].
    rewrite Hrun2. split; [|discriminate]. intros st' [= <-].
    apply idle_steady; [assumption|rewrite Hp2; exact Hp1|rewrite Ht2; exact Ht1].
  - split; [discriminate|]. intros _.
    apply nth_Z_nil_head in Hhead.
    apply idle_steady; auto.
    split.
    + unfold sound, timersOwned. rewrite Hci0, Hp0, Ht0, Hhead.
      repeat split; auto; try lia.
    + intros Hne. contradiction.
Qed.

(** Every state the module reaches is steady. *)
Lemma reachable_steady (st : Player) : reachable st -> steady st.
Proof.
  induction 1 as [h|st st' a cb now Hreach IH Hrun|st a cb now Hreach IH Hrun
                 |st st' now _ IH Hrun|st _ IH|st st' now _ IH Hrun
                 |st st' now _ IH Hrun|st st' now _ IH Hrun
                 |st st' s now _ IH Hrun|st st' i now _ IH Hrun
                 |st now _ IH|st st' h now _ IH Hrun].
  - apply idle_steady; try reflexivity.
    split; [apply sound_loaded|]. intros Hne. exfalso. now apply Hne.
  - now apply (proj1 (init_steady a cb now st (reachable_sound st Hreach))).
  - now apply (proj2 (init_steady a cb now st (reachable_sound st Hreach))).
  - destruct (play_steady now st IH) as [st1 [Hok Hs]]; congruence.
  - apply steady_pause, IH.
  - unfold togglePlay in Hrun. destruct (isPlaying st).
    + injection Hrun as <-. apply steady_pause, IH.
    + destruct (play_steady now st IH) as [st1 [Hok Hs]]; congruence.
  - destruct IH as [Hb [Hidle _]].
    destruct (next_steady now st Hb Hidle) as [st1 [Hok [Hs _]]]; congruence.
  - unfold prev in Hrun. destruct (currentIndex st >? 0).
    + destruct (shown_then_steady (currentIndex st - 1) now st IH) as [st1 [Hok Hs]];
        congruence.
    + now injection Hrun as <-.
  - destruct (setSpeed_steady s now st IH) as [st1 [Hok Hs]]; congruence.
  - destruct (shown_then_steady i now st IH) as [st1 [Hok Hs]].
    unfold goTo in Hrun. congruence.
  - now apply destroy_steady.
  - destruct (timerFires_steady h now st IH) as [st1 [Hok Hs]]; congruence.
Qed.

(** X14.  The sequencer between two calls.  In every state the module reaches:
    a timer is pending exactly while it plays; while it plays, one timer is
    pending, the handle of that timer is the one the module holds, the
    current point is not the last and the speed is not the skip value; and
    with points loaded the index is an index of the list. *)
Theorem playing_iff_timer_pending (st : Player) :
  reachable st ->
  (isPlaying st = true <-> timers st <> []) /\
  (isPlaying st = true ->
   exists h delay,
     timers st = [(h, delay)] /\ playTimer st = Some h /\
     currentIndex st < len (thePoints st) - 1 /\
     Qeq_bool (speed st) 0 = false) /\
  (thePoints st <> [] -> 0 <= currentIndex st < len (thePoints st)).
Proof.
  intros Hreach.
  destruct (reachable_steady st Hreach)
    as [[[Hidx [Howned _]] Hrange] [Hidle Hplaying]].
  split; [|split].
  - split; [intros Hplay; now apply Hplaying|].
    intros Hpending. destruct (isPlaying st); [reflexivity|].
    exfalso. now apply Hpending, Hidle.
  - intros Hplay. destruct (Hplaying Hplay) as [Hpending [Hmore Hspeed]].
    destruct Howned as [Hnone|[h [d [Hone Hh]]]]; [contradiction|].
    exists h, d. auto.
  - intros Hne. split; [assumption|now apply Hrange].
Qed.

(** ** The snapshots passed to the update callback *)

Lemma consistent_getState (st : Player) : bounded st -> consistent (getState st).
Proof.
  intros [[Hidx [_ [Hidle _]]] Hrange]. unfold consistent, getState. cbn.
  split; [exact Hidx|]. split.
  - intros Hpos.
    assert (Hne : thePoints st <> []) by (intros E; rewrite E in Hpos; cbn in Hpos; lia).
    specialize (Hrange Hne). split; [exact Hrange|].
    destruct (@nth_Z_in_range _ (thePoints st) (currentIndex st)) as [p Hp]; [lia|].
    rewrite Hp. discriminate.
  - intros Hzero.
    assert (Hnil : thePoints st = []).
    { destruct (thePoints st); [reflexivity|]. unfold len in Hzero. cbn in Hzero. lia. }
    split; [|now apply Hidle].
    rewrite Hnil. unfold nth_Z. destruct (currentIndex st <? 0); [reflexivity|].
    now destruct (Z.to_nat (currentIndex st)).
Qed.

Lemma getState_emitUpdate (st : Player) : getState (emitUpdate st) = getState st.
Proof. unfold emitUpdate. destruct (onUpdate st); reflexivity. Qed.

Lemma logged_same (st st' : Player) : emitted st' = emitted st -> logged st -> logged st'.
Proof. unfold logged. intros ->. auto. Qed.

Lemma logged_emitUpdate (st : Player) :
  logged st -> bounded (emitUpdate st) -> logged (emitUpdate st).
Proof.
  intros Hlog Hb s Hs.
  assert (Hcases : In s (emitted st) \/ s = getState (emitUpdate st)).
  { rewrite getState_emitUpdate. unfold emitUpdate in Hs.
    destruct (onUpdate st); [|now left].
    cbn in Hs. apply in_app_or in Hs. destruct Hs as [Hs|[<-|[]]]; auto. }
  destruct Hcases as [Hold| ->]; [now apply Hlog|now apply consistent_getState].
Qed.

Lemma emitted_recordCurrentDwell (now : Z) (st : Player) :
  emitted (recordCurrentDwell now st) = emitted st.
Proof.
  unfold recordCurrentDwell, writeDwell.
  destruct (lastShownAt st), (nth_Z (thePoints st) (currentIndex st)), (points st);
    reflexivity.
Qed.

Lemma emitted_clearPlayTimer (st : Player) : emitted (clearPlayTimer st) = emitted st.
Proof. unfold clearPlayTimer. destruct (playTimer st); reflexivity. Qed.

Lemma logged_pause (st : Player) : bounded st -> logged st -> logged (pause st).
Proof.
  intros Hb Hlog. pose proof (steady_pause st Hb) as [Hb' _].
  unfold pause in *. apply logged_emitUpdate; [|exact Hb'].
  revert Hlog. apply logged_same. cbn. destruct (playTimer st); reflexivity.
Qed.

Lemma showPoint_logged (index now : Z) (st st' : Player) :
  bounded st -> logged st -> showPoint index now st = Ok st' -> logged st'.
Proof.
  intros Hb Hlog Hrun.
  destruct (showPoint_bounded index now st Hb) as [st2 [Hrun2 [Hb2 _]]].
  assert (E : st2 = st') by congruence. subst st2. clear Hrun2.
  unfold showPoint in Hrun.
  destruct ((index <? 0) || (index >=? len (thePoints st))).
  { injection Hrun as <-. exact Hlog. }
  match type of Hrun with
  | match ?a with _ => _ end = _ => destruct a; [|discriminate]
  end.
  match type of Hrun with
  | match ?a with _ => _ end = _ => destruct a; [|discriminate]
  end.
  injection Hrun as <-.
  apply logged_emitUpdate; [|exact Hb2].
  revert Hlog. apply logged_same. cbn. apply emitted_recordCurrentDwell.
Qed.

Lemma scheduleNextWith_logged (nxt : Player -> Result Player) (now : Z) (st st' : Player) :
  bounded st -> logged st ->
  (forall st2 st3, bounded st2 -> logged st2 -> nxt st2 = Ok st3 -> logged st3) ->
  scheduleNextWith nxt now st = Ok st' -> logged st'.
Proof.
  intros Hb Hlog Hnxt Hrun. unfold scheduleNextWith in Hrun.
  destruct (bounded_clearPlayTimer st Hb) as [Hb2 _].
  assert (Hlog2 : logged (clearPlayTimer st))
    by (revert Hlog; apply logged_same, emitted_clearPlayTimer).
  set (st2 := clearPlayTimer st) in *. clearbody st2.
  destruct (negb (isPlaying st2)); [now injection Hrun as <-|].
  destruct (currentIndex st2 >=? len (thePoints st2) - 1).
  { injection Hrun as <-. apply logged_pause.
    - now apply bounded_recordCurrentDwell.
    - revert Hlog2. apply logged_same, emitted_recordCurrentDwell. }
  destruct (Qeq_bool (speed st2) 0); [now apply (Hnxt st2 st')|].
  injection Hrun as <-. revert Hlog2. apply logged_same. reflexivity.
Qed.

Lemma nextFuel_logged (now : Z) :
  forall (fuel : nat) (st st' : Player),
    bounded st -> logged st -> nextFuel fuel now st = Ok st' -> logged st'.
Proof.
  induction fuel as [|fuel IH]; intros st st' Hb Hlog Hrun; cbn [nextFuel] in Hrun;
    [discriminate|].
  destruct (currentIndex st <? len (thePoints st) - 1).
  - destruct (showPoint_bounded (currentIndex st + 1) now st Hb)
      as [st1 [Hshow [Hb1 _]]].
    rewrite Hshow in Hrun. cbn [bind] in Hrun.
    pose proof (showPoint_logged _ _ _ _ Hb Hlog Hshow) as Hlog1.
    destruct (isPlaying st1); [|now injection Hrun as <-].
    apply (scheduleNextWith_logged (nextFuel fuel now) now st1 st'); auto.
  - injection Hrun as <-. apply logged_pause.
    + now apply bounded_recordCurrentDwell.
    + revert Hlog. apply logged_same, emitted_recordCurrentDwell.
Qed.

Lemma next_logged (now : Z) (st st' : Player) :
  bounded st -> logged st -> next now st = Ok st' -> logged st'.
Proof. unfold next. apply nextFuel_logged. Qed.

Lemma scheduleNext_logged (now : Z) (st st' : Player) :
  bounded st -> logged st -> scheduleNext now st = Ok st' -> logged st'.
Proof.
  intros Hb Hlog. unfold scheduleNext. apply scheduleNextWith_logged; auto.
  intros st2 st3. apply next_logged.
Qed.

Lemma play_logged (now : Z) (st st' : Player) :
  steady st -> logged st -> play now st = Ok st' -> logged st'.
Proof.
  intros [[Hsound Hrange] _] Hlog Hrun. unfold play in Hrun.
  destruct (Z.eqb_spec (len (thePoints st)) 0) as [Hz|Hnz]; [now injection Hrun as <-|].
  assert (Hb1 : bounded (emitUpdate (set_isPlaying true st))).
  { apply bounded_emitUpdate. split; [|exact Hrange].
    apply sound_set_isPlaying_true; [assumption|].
    intros E. rewrite E in Hnz. now apply Hnz. }
  apply (scheduleNext_logged now _ st' Hb1); [|exact Hrun].
  apply logged_emitUpdate; [|exact Hb1]. exact Hlog.
Qed.

Lemma shown_then_logged (index now : Z) (st st' : Player) :
  bounded st -> logged st ->
  (st1 <- showPoint index now st ;;
   if isPlaying st1 then scheduleNext now st1 else Ok st1) = Ok st' -> logged st'.
Proof.
  intros Hb Hlog Hrun.
  destruct (showPoint_bounded index now st Hb) as [st1 [Hshow [Hb1 _]]].
  rewrite Hshow in Hrun. cbn [bind] in Hrun.
  pose proof (showPoint_logged _ _ _ _ Hb Hlog Hshow) as Hlog1.
  destruct (isPlaying st1); [|now injection Hrun as <-].
  now apply (scheduleNext_logged now st1 st').
Qed.

Lemma setSpeed_logged (newSpeed : Q) (now : Z) (st st' : Player) :
  bounded st -> logged st -> setSpeed newSpeed now st = Ok st' -> logged st'.
Proof.
  intros Hb Hlog Hrun. unfold setSpeed in Hrun.
  set (st1 := emitUpdate (set_speed newSpeed st)) in *.
  assert (Hb1 : bounded st1) by (apply bounded_emitUpdate; exact Hb).
  assert (Hlog1 : logged st1) by (apply logged_emitUpdate; [exact Hlog|exact Hb1]).
  clearbody st1.
  destruct (isPlaying st1 && Qeq_bool (speed st1) 0); [|now injection Hrun as <-].
  destruct (bounded_clearPlayTimer st1 Hb1) as [Hb2 _].
  apply (next_logged now (clearPlayTimer st1) st' Hb2); [|exact Hrun].
  revert Hlog1. apply logged_same, emitted_clearPlayTimer.
Qed.

Lemma destroy_logged (now : Z) (st : Player) :
  bounded st -> logged st -> logged (destroy now st).
Proof.
  intros Hb Hlog. pose proof (logged_pause st Hb Hlog) as Hlog1.
  revert Hlog1. apply logged_same. unfold destroy. cbn.
  apply emitted_recordCurrentDwell.
Qed.

Lemma timerFires_logged (h : nat) (now : Z) (st st' : Player) :
  bounded st -> logged st -> timerFires h now st = Ok st' -> logged st'.
Proof.
  intros [Hsound Hrange] Hlog Hrun. unfold timerFires in Hrun.
  destruct (existsb _ (timers st)) eqn:Hpending; [|now injection Hrun as <-].
  assert (Hclear : timers (clearTimeout h st) = []).
  { destruct Hsound as [_ [[Hnone|[h' [d [Hone _]]]] _]].
    - rewrite Hnone in Hpending. discriminate.
    - rewrite Hone in Hpending. cbn in Hpending. rewrite orb_false_r in Hpending.
      unfold clearTimeout. cbn. rewrite Hone. cbn. now rewrite Hpending. }
  apply (next_logged now (clearTimeout h st) st'); [|exact Hlog|exact Hrun].
  split; [|exact Hrange].
  destruct Hsound as [Hidx [Howned [Hidle Hhas]]].
  unfold sound. repeat split; auto. left. exact Hclear.
Qed.

Lemma emitted_initReset (a : nat) (callback : bool) (st : Player) :
  emitted (initReset a callback st) = emitted st.
Proof. unfold initReset. now rewrite emitted_clearPlayTimer. Qed.

Lemma init_logged (a : nat) (callback : bool) (now : Z) (st st' : Player) :
  sound st -> logged st -> init a callback now st = Ok st' -> logged st'.
Proof.
  intros Hsound Hlog Hrun.
  assert (H0 : currentIndex (initReset a callback st) = 0 /\
               isPlaying (initReset a callback st) = false /\
               timers (initReset a callback st) = []).
  { unfold initReset.
    match goal with |- context [clearPlayTimer ?x] =>
      destruct (clearPlayTimer_fields x) as [-> [-> _]];
      assert (Hx : timersOwned x) by exact (proj1 (proj2 Hsound));
      rewrite (clearPlayTimer_owned Hx)
    end.
    repeat split. }
  destruct H0 as [Hci0 [Hp0 Ht0]].
  pose proof (emitted_initReset a callback st) as He0.
  unfold init in Hrun. remember (initReset a callback st) as st0 eqn:Hst0. clear Hst0.
  destruct (nth_Z (thePoints st0) 0) as [p0|] eqn:Hhead; [|discriminate].
  match type of Hrun with showPoint 0 now ?x = _ => remember x as st1 eqn:Hst1 end.
  assert (Hfields : currentIndex st1 = 0 /\ isPlaying st1 = false /\ timers st1 = [] /\
                    thePoints st1 = thePoints st0 /\ panorama st1 <> None /\
                    emitted st1 = emitted st0).
  { subst st1. cbn. repeat split; auto. discriminate. }
  clear Hst1. destruct Hfields as [Hci1 [Hp1 [Ht1 [Hpts1 [Hpano1 He1]]]]].
  assert (Hne : thePoints st0 <> []) by (destruct (thePoints st0); discriminate).
  assert (Hb1 : bounded st1).
  { split.
    - unfold sound, timersOwned. rewrite Hci1, Hp1, Ht1, Hpts1.
      repeat split; auto; try lia; intros E; contradiction.
    - unfold inRange. rewrite Hci1, Hpts1.
      destruct (thePoints st0); [contradiction|]. intros _. unfold len. cbn. lia. }
  apply (showPoint_logged 0 now st1 st' Hb1); [|exact Hrun].
  revert Hlog. apply logged_same. congruence.
Qed.

(** Every snapshot the update callback has received is consistent. *)
Lemma reachable_logged (st : Player) : reachable st -> logged st.
Proof.
  induction 1 as [h|st st' a cb now Hreach IH Hrun|st a cb now Hreach IH Hrun
                 |st st' now Hreach IH Hrun|st Hreach IH|st st' now Hreach IH Hrun
                 |st st' now Hreach IH Hrun|st st' now Hreach IH Hrun
                 |st st' s now Hreach IH Hrun|st st' i now Hreach IH Hrun
                 |st now Hreach IH|st st' h now Hreach IH Hrun];
    try (pose proof (reachable_steady st Hreach) as Hsteady;
         pose proof (proj1 Hsteady) as Hb).
  - intros s [].
  - exact (init_logged a cb now st st' (reachable_sound st Hreach) IH Hrun).
  - revert IH. apply logged_same, emitted_initReset.
  - exact (play_logged now st st' Hsteady IH Hrun).
  - now apply logged_pause.
  - unfold togglePlay in Hrun. destruct (isPlaying st).
    + injection Hrun as <-. now apply logged_pause.
    + exact (play_logged now st st' Hsteady IH Hrun).
  - exact (next_logged now st st' Hb IH Hrun).
  - unfold prev in Hrun. destruct (currentIndex st >? 0).
    + exact (shown_then_logged (currentIndex st - 1) now st st' Hb IH Hrun).
    + now injection Hrun as <-.
  - exact (setSpeed_logged s now st st' Hb IH Hrun).
  - exact (shown_then_logged i now st st' Hb IH Hrun).
  - now apply destroy_logged.
  - exact (timerFires_logged h now st st' Hb IH Hrun).
Qed.

(** X15.  [getState], in every state the module reaches.  Between two calls,
    with points loaded: the snapshot holds the current point (never null),
    the index is an index of the list, and the snapshot does not report
    playback at the last point.  During a call: every snapshot the update
    callback has received has an index that is not negative; taken with
    points, it has an index of the list and its point; taken without
    points, it has no point and reports no playback. *)
Theorem getState_with_points (st : Player) :
  reachable st ->
  (thePoints st <> [] ->
   (exists p, point (getState st) = Some p /\
              nth_Z (thePoints st) (currentIndex st) = Some p) /\
   1 <= total (getState st) /\
   0 <= s_currentIndex (getState st) < total (getState st) /\
   (isLast (getState st) = true -> s_isPlaying (getState st) = false)) /\
  (forall s, In s (emitted st) ->
     0 <= s_currentIndex s /\
     (0 < total s -> s_currentIndex s < total s /\ point s <> None) /\
     (total s = 0 -> point s = None /\ s_isPlaying s = false)).
Proof.
  intros Hreach. split; [|exact (reachable_logged st Hreach)].
  intros Hne.
  destruct (reachable_steady st Hreach) as [[[Hidx _] Hrange] [_ Hplaying]].
  specialize (Hrange Hne). unfold getState. cbn.
  set (n := len (thePoints st)) in *. set (i := currentIndex st) in *.
  assert (Hn : 1 <= n).
  { unfold n, len. destruct (thePoints st); [contradiction|]. cbn. lia. }
  split; [|split; [|split]].
  - destruct (@nth_Z_in_range _ (thePoints st) i) as [p Hp]; [fold n; lia|].
    exists p. auto.
  - exact Hn.
  - lia.
  - intros Hlast. apply Z.eqb_eq in Hlast.
    destruct (isPlaying st) eqn:Hplay; [|reflexivity].
    destruct (Hplaying eq_refl) as [_ [Hmore _]]. fold n i in Hmore. lia.
Qed.

(** ** The dwell measurement when the point changes *)

Lemma nth_error_update_other (A : Type) (f : A -> A) (l : list A) :
  forall i j, i <> j -> nth_error (update i f l) j = nth_error l j.
Proof.
  induction l as [|y ys IH]; intros [|i] [|j] Hij; cbn; auto; try lia.
Qed.

(** A write of the dwell leaves the place of every point as it was. *)
Lemma nth_Z_update_place (pts : list DecisionPoint) (i j : Z) (v : Q) (q : DecisionPoint) :
  0 <= i -> nth_Z pts j = Some q ->
  exists q', nth_Z (update (Z.to_nat i) (set_dwellSeconds v) pts) j = Some q' /\
             dp_lat q' = dp_lat q /\ dp_lng q' = dp_lng q /\
             dp_heading q' = dp_heading q /\
             dp_isDecisionPoint q' = dp_isDecisionPoint q /\
             (i <> j -> q' = q).
Proof.
  intros Hi Hq. destruct (Z.eq_dec i j) as [->|Hne].
  - exists (set_dwellSeconds v q). split; [now apply nth_Z_update_same|].
    repeat split. intros E. now contradiction E.
  - exists q. unfold nth_Z in *. destruct (j <? 0) eqn:Hj; [discriminate|].
    rewrite nth_error_update_other; [auto 10|]. apply Z.ltb_ge in Hj. lia.
Qed.

(** [showPoint] on a point of the list while a point is shown: the time
    the current point was shown for is written into it, the index and the
    panorama move to the new point and a new measurement starts. *)
Lemma showPoint_writes
      (st : Player) (index now shownAt : Z) (a : nat)
      (pts : list DecisionPoint) (p q : DecisionPoint) :
  points st = Some a -> nth_error (heap st) a = Some pts ->
  panorama st <> None -> 0 <= currentIndex st ->
  lastShownAt st = Some shownAt ->
  nth_Z pts (currentIndex st) = Some p ->
  nth_Z pts index = Some q ->
  let dwell := (inject_Z (now - shownAt) / inject_Z 1000)%Q in
  let pts' := update (Z.to_nat (currentIndex st)) (set_dwellSeconds dwell) pts in
  exists st',
    showPoint index now st = Ok st' /\
    currentIndex st' = index /\ lastShownAt st' = Some now /\
    points st' = Some a /\ nth_error (heap st') a = Some pts' /\
    panorama st' = Some {| position := (dp_lat q, dp_lng q);
                           pov_heading := dp_heading q |} /\
    isPlaying st' = isPlaying st /\ timers st' = timers st /\
    playTimer st' = playTimer st /\ speed st' = speed st /\
    nextHandle st' = nextHandle st.
Proof.
  intros Hpts Harr Hpano Hidx Hshown Hcur Hq dwell pts'.
  pose proof (@thePoints_at st a pts Hpts Harr) as Hthe.
  assert (Hrange : 0 <= index < len pts).
  { apply SelectorFacts.nth_Z_position in Hq. destruct Hq as [Hlo Hq].
    split; [assumption|]. unfold len.
    assert (Z.to_nat index < List.length pts)%nat; [|lia].
    apply nth_error_Some. congruence. }
  assert (Hrec : recordCurrentDwell now st =
                 set_lastShownAt None (writeDwell (currentIndex st) dwell st)).
  { unfold recordCurrentDwell. rewrite Hshown, Hthe, Hcur. reflexivity. }
  unfold showPoint. rewrite Hthe.
  destruct (Z.ltb_spec index 0); [lia|].
  destruct (Z.geb_spec index (len pts)); [lia|]. cbn [orb].
  rewrite Hrec.
  assert (Hthe' : thePoints (set_currentIndex index
                    (set_lastShownAt None (writeDwell (currentIndex st) dwell st))) = pts').
  { change (thePoints (writeDwell (currentIndex st) dwell st) = pts').
    now rewrite thePoints_writeDwell, Hthe. }
  rewrite Hthe'.
  destruct (nth_Z_update_place pts (currentIndex st) index dwell q Hidx Hq)
    as [q' [Hq' [Hlat [Hlng [Hhead _]]]]].
  fold pts' in Hq'. rewrite Hq'.
  assert (Hpano' : panorama (set_currentIndex index
                     (set_lastShownAt None (writeDwell (currentIndex st) dwell st)))
                   = panorama st).
  { unfold writeDwell. rewrite Hpts. reflexivity. }
  rewrite Hpano'. destruct (panorama st) as [pano|]; [|contradiction].
  eexists. split; [reflexivity|].
  match goal with |- context [emitUpdate ?x] =>
    destruct (emitUpdate_fields x)
      as [-> [-> [-> [-> [-> [-> [-> [_ [-> [-> ->]]]]]]]]]]
  end.
  unfold writeDwell. rewrite Hpts. cbn. rewrite Hlat, Hlng, Hhead.
  repeat split; auto. now apply nth_error_update_same.
Qed.

(** X16.  Stepping while paused.  In every state the module reaches while it is
    paused on a shown point, [goTo] to a point of the list writes the time
    the current point was shown for, (now - shownAt) / 1000 seconds, into
    the current point of the caller's array (in place of any earlier
    value), moves the index and the panorama to the new point and starts
    the measurement of that point; the sequencer stays paused with no
    timer.  [next] and [prev] do the same for the neighbouring points. *)
Theorem goTo_records_dwell
  (st : Player) (index now shownAt : Z) (a : nat)
  (pts : list DecisionPoint) (p q : DecisionPoint) :
  reachable st -> isPlaying st = false ->
  points st = Some a -> nth_error (heap st) a = Some pts ->
  lastShownAt st = Some shownAt ->
  nth_Z pts (currentIndex st) = Some p ->
  nth_Z pts index = Some q ->
  let dwell := (inject_Z (now - shownAt) / inject_Z 1000)%Q in
  let pts' := update (Z.to_nat (currentIndex st)) (set_dwellSeconds dwell) pts in
  exists st',
    goTo index now st = Ok st' /\
    currentIndex st' = index /\ lastShownAt st' = Some now /\
    nth_error (heap st') a = Some pts' /\
    nth_Z pts' (currentIndex st) = Some (set_dwellSeconds dwell p) /\
    panorama st' = Some {| position := (dp_lat q, dp_lng q);
                           pov_heading := dp_heading q |} /\
    isPlaying st' = false /\ timers st' = [] /\
    (index = currentIndex st + 1 -> next now st = Ok st') /\
    (index = currentIndex st - 1 -> prev now st = Ok st').
Proof.
  intros Hreach Hidle Hpts Harr Hshown Hcur Hq dwell pts'.
  destruct (reachable_steady st Hreach) as [[[Hidx [_ [_ Hhas]]] _] [Hnone _]].
  pose proof (@thePoints_at st a pts Hpts Harr) as Hthe.
  assert (Hne : thePoints st <> []).
  { rewrite Hthe. intros E. rewrite E in Hcur. unfold nth_Z in Hcur.
    destruct (currentIndex st <? 0); [discriminate|].
    now destruct (Z.to_nat (currentIndex st)). }
  destruct (showPoint_writes st index now shownAt a pts p q
              Hpts Harr (Hhas Hne) Hidx Hshown Hcur Hq)
    as [st' [Hrun [Hci [Hlast [_ [Hheap [Hpano [Hplay [Ht _]]]]]]]]].
  assert (Hrange : 0 <= index < len pts).
  { apply SelectorFacts.nth_Z_position in Hq. destruct Hq as [Hlo Hq].
    split; [assumption|]. unfold len.
    assert (Z.to_nat index < List.length pts)%nat; [|lia].
    apply nth_error_Some. congruence. }
  exists st'. unfold goTo. rewrite Hrun. cbn [bind]. rewrite Hplay, Hidle.
  split; [reflexivity|]. repeat split; auto.
  - now apply nth_Z_update_same.
  - rewrite Ht. now apply Hnone.
  - intros E. unfold next, fuelFor. cbn [nextFuel]. rewrite Hthe.
    destruct (Z.ltb_spec (currentIndex st) (len pts - 1)); [|lia].
    rewrite <- E, Hrun. cbn [bind]. now rewrite Hplay, Hidle.
  - intros E. unfold prev.
    destruct (Z.gtb_spec (currentIndex st) 0); [|lia].
    rewrite <- E, Hrun. cbn [bind]. now rewrite Hplay, Hidle.
Qed.

(** ** The expiry of the play timer *)

(** X17.  The auto-advance.  In every state the module reaches while it plays a
    shown point, the expiry of the pending timer moves the sequencer to the
    next point and writes the time the left point was shown for,
    (now - shownAt) / 1000 seconds with [now] the clock when the expiry
    closes that measurement, into that point.  When the new point is not
    the last, playback goes on: one new timer is pending, with the delay of
    the new point (5000 / speed, times 1.6 for a decision point), and the
    measurement of the new point runs.  When the new point is the last,
    playback stops with no timer, and the measurement of the last point is
    closed in the same call: a dwell is written into the last point and no
    measurement is left running. *)
Theorem timer_expiry_advances
  (st : Player) (h : nat) (delay : Q) (now shownAt : Z) (a : nat)
  (pts : list DecisionPoint) (p : DecisionPoint) :
  reachable st -> timers st = [(h, delay)] ->
  points st = Some a -> nth_error (heap st) a = Some pts ->
  lastShownAt st = Some shownAt ->
  nth_Z pts (currentIndex st) = Some p ->
  let dwell := (inject_Z (now - shownAt) / inject_Z 1000)%Q in
  let pts' := update (Z.to_nat (currentIndex st)) (set_dwellSeconds dwell) pts in
  exists st' q,
    timerFires h now st = Ok st' /\
    nth_Z pts (currentIndex st + 1) = Some q /\
    currentIndex st' = currentIndex st + 1 /\
    panorama st' = Some {| position := (dp_lat q, dp_lng q);
                           pov_heading := dp_heading q |} /\
    (currentIndex st + 1 < len pts - 1 ->
     isPlaying st' = true /\ lastShownAt st' <> None /\
     nth_error (heap st') a = Some pts' /\
     exists h',
       playTimer st' = Some h' /\
       timers st' =
         [(h', if dp_isDecisionPoint q
               then (BASE_DWELL / speed st * DECISION_DWELL_MULTIPLIER)%Q
               else (BASE_DWELL / speed st)%Q)]) /\
    (currentIndex st + 1 = len pts - 1 ->
     isPlaying st' = false /\ timers st' = [] /\ lastShownAt st' = None /\
     exists d,
       nth_error (heap st') a =
         Some (update (Z.to_nat (currentIndex st + 1)) (set_dwellSeconds d) pts')).
Proof.
  intros Hreach Hpending Hpts Harr Hshown Hcur dwell pts'.
  destruct (reachable_steady st Hreach)
    as [[[Hidx [Howned [_ Hhas]]] _] [Hidle Hplaying]].
  pose proof (@thePoints_at st a pts Hpts Harr) as Hthe.
  assert (Hplay : isPlaying st = true).
  { destruct (isPlaying st); [reflexivity|].
    rewrite (Hidle eq_refl) in Hpending. discriminate. }
  destruct (Hplaying Hplay) as [_ [Hmore Hspeed]]. rewrite Hthe in Hmore.
  assert (Hne : thePoints st <> []).
  { rewrite Hthe. intros E. rewrite E in Hmore. cbn in Hmore. lia. }
  destruct (@nth_Z_in_range _ pts (currentIndex st + 1)) as [q Hq]; [lia|].
  (* the timer is taken off, then [next] runs *)
  unfold timerFires. rewrite Hpending. cbn [existsb fst orb]. rewrite Nat.eqb_refl. cbn [orb].
  set (st0 := clearTimeout h st).
  assert (H0 : points st0 = Some a /\ heap st0 = heap st /\ panorama st0 = panorama st /\
               currentIndex st0 = currentIndex st /\ lastShownAt st0 = lastShownAt st /\
               isPlaying st0 = true /\ speed st0 = speed st /\ timers st0 = [] /\
               thePoints st0 = pts).
  { unfold st0, clearTimeout. cbn. rewrite Hpending. cbn. rewrite Nat.eqb_refl. cbn.
    repeat split; auto. }
  destruct H0 as [Hpts0 [Hheap0 [Hpano0 [Hci0 [Hshown0 [Hplay0 [Hspeed0 [Ht0 Hthe0]]]]]]]].
  clearbody st0.
  unfold next, fuelFor. cbn [nextFuel]. rewrite Hthe0, Hci0.
  destruct (Z.ltb_spec (currentIndex st) (len pts - 1)); [|lia].
  destruct (showPoint_writes st0 (currentIndex st + 1) now shownAt a pts p q)
    as [st1 [Hrun [Hci1 [Hshown1 [Hpts1 [Hheap1 [Hpano1 [Hplay1 [Ht1 [Hh1 [Hs1 Hn1]]]]]]]]]]];
    try congruence; try (rewrite Hci0; assumption).
  { rewrite Hpano0. now apply Hhas. }
  rewrite Hci0 in Hheap1. fold dwell pts' in Hheap1.
  rewrite Hrun. cbn [bind]. rewrite Hplay1, Hplay0.
  pose proof (@thePoints_at st1 a pts' Hpts1 Hheap1) as Hthe1.
  assert (Hlen' : len pts' = len pts).
  { unfold pts', len. now rewrite length_update. }
  destruct (nth_Z_update_place pts (currentIndex st) (currentIndex st + 1) dwell q Hidx Hq)
    as [q' [Hq' [_ [_ [_ [_ Hsame]]]]]].
  rewrite (Hsame ltac:(lia)) in Hq'. fold pts' in Hq'. clear q' Hsame.
  (* [scheduleNext] on the new point *)
  unfold scheduleNextWith.
  destruct (clearPlayTimer_fields st1) as [Hplay2 [Hci2 [Hthe2 [Hspeed2 [Hpano2 Hh2]]]]].
  assert (Ht2 : timers (clearPlayTimer st1) = []).
  { apply clearPlayTimer_owned. left. congruence. }
  assert (H2 : points (clearPlayTimer st1) = points st1 /\
               heap (clearPlayTimer st1) = heap st1 /\
               lastShownAt (clearPlayTimer st1) = lastShownAt st1 /\
               nextHandle (clearPlayTimer st1) = nextHandle st1).
  { unfold clearPlayTimer, clearTimeout. destruct (playTimer st1); repeat split. }
  destruct H2 as [Hpts2 [Hheap2 [Hshown2 Hn2]]].
  set (st2 := clearPlayTimer st1) in *.
  rewrite Hplay1, Hplay0 in Hplay2. rewrite Hci1 in Hci2. rewrite Hthe1 in Hthe2.
  rewrite Hs1, Hspeed0 in Hspeed2. rewrite Hpts1 in Hpts2. rewrite Hshown1 in Hshown2.
  clearbody st2.
  rewrite Hplay2, Hci2, Hthe2, Hlen', Hspeed2, Hspeed. cbn [negb].
  destruct (Z.geb_spec (currentIndex st + 1) (len pts - 1)) as [Hlast|Hnotlast].
  - (* the last point *)
    assert (Hrec : recordCurrentDwell now st2 =
                   set_lastShownAt None
                     (writeDwell (currentIndex st + 1)
                        (inject_Z (now - now) / inject_Z 1000)%Q st2)).
    { unfold recordCurrentDwell. rewrite Hshown2, Hthe2, Hci2, Hq'. reflexivity. }
    eexists. exists q. split; [reflexivity|]. split; [assumption|].
    destruct (pause_fields (recordCurrentDwell now st2))
      as [Hp [_ [Hheap [_ [Hpano [Hci [_ [Hlastp [_ Hclear]]]]]]]]].
    assert (Htp : timers (pause (recordCurrentDwell now st2)) = []).
    { apply Hclear. left.
      destruct (recordCurrentDwell_fields now st2) as [_ [_ [_ [_ [_ [_ [-> _]]]]]]].
      exact Ht2. }
    rewrite Hci, Hpano, Hp, Hheap, Hlastp, Htp, Hrec.
    unfold writeDwell. rewrite Hpts2. cbn. rewrite Hci2, Hpano2, Hpano1, Hheap2.
    split; [reflexivity|]. split; [reflexivity|].
    split; [intros; lia|]. intros _.
    repeat split. eexists. now apply nth_error_update_same.
  - (* a point before the last: the timer of the new point *)
    rewrite Hq'. eexists. exists q. split; [reflexivity|]. split; [assumption|].
    unfold armPlayTimer.
    cbn [currentIndex panorama isPlaying lastShownAt heap timers playTimer
         set_playTimer set_nextHandle set_timers].
    rewrite Hci2, Hpano2, Hpano1, Hplay2, Hshown2, Hheap2, Ht2. cbn [app].
    split; [reflexivity|]. split; [reflexivity|].
    split; [|intros; lia]. intros _.
    repeat split; auto; try discriminate.
    exists (nextHandle st2). split; [reflexivity|].
    destruct (dp_isDecisionPoint q); reflexivity.
Qed.

(** ** The ends of the list *)

(** Closing the measurement of a shown point and pausing. *)
Lemma pause_after_record
      (st : Player) (now shownAt : Z) (a : nat)
      (pts : list DecisionPoint) (p : DecisionPoint) :
  points st = Some a -> nth_error (heap st) a = Some pts ->
  timersOwned st ->
  lastShownAt st = Some shownAt ->
  nth_Z pts (currentIndex st) = Some p ->
  let dwell := (inject_Z (now - shownAt) / inject_Z 1000)%Q in
  let st' := pause (recordCurrentDwell now st) in
  isPlaying st' = false /\ timers st' = [] /\ playTimer st' = None /\
  currentIndex st' = currentIndex st /\ lastShownAt st' = None /\
  panorama st' = panorama st /\ points st' = Some a /\
  nth_error (heap st') a =
    Some (update (Z.to_nat (currentIndex st)) (set_dwellSeconds dwell) pts).
Proof.
  intros Hpts Harr Howned Hshown Hcur dwell st'.
  pose proof (@thePoints_at st a pts Hpts Harr) as Hthe.
  assert (Hrec : recordCurrentDwell now st =
                 set_lastShownAt None (writeDwell (currentIndex st) dwell st)).
  { unfold recordCurrentDwell. rewrite Hshown, Hthe, Hcur. reflexivity. }
  destruct (recordCurrentDwell_fields now st)
    as [Hpano [Hp [Hci [_ [Hh [_ [Ht Hlast]]]]]]].
  destruct (pause_fields (recordCurrentDwell now st))
    as [Hplay' [Hh' [Hheap' [Hp' [Hpano' [Hci' [_ [Hlast' [_ Hclear]]]]]]]]].
  unfold st'. rewrite Hci', Hci, Hlast', Hlast, Hpano', Hpano, Hp', Hp, Hheap'.
  repeat split; auto.
  - apply Hclear. exact (@timersOwned_fields st (recordCurrentDwell now st) Ht Hh Howned).
  - rewrite Hrec. unfold writeDwell. rewrite Hpts. cbn.
    now apply nth_error_update_same.
Qed.

(** X20.  The end of the list.  In every state the module reaches at the
    last point of its list, while that point is shown: [next] and [play]
    both leave the sequencer paused at the last point with no timer, and
    both close the measurement of the last point: the time it was shown
    for, (now - shownAt) / 1000 seconds, is written into the caller's array
    and no measurement is left running. *)
Theorem end_of_list_closes_dwell
  (st : Player) (now shownAt : Z) (a : nat)
  (pts : list DecisionPoint) (p : DecisionPoint) :
  reachable st ->
  points st = Some a -> nth_error (heap st) a = Some pts ->
  currentIndex st = len pts - 1 ->
  lastShownAt st = Some shownAt ->
  nth_Z pts (currentIndex st) = Some p ->
  let dwell := (inject_Z (now - shownAt) / inject_Z 1000)%Q in
  let pts' := update (Z.to_nat (currentIndex st)) (set_dwellSeconds dwell) pts in
  forall call,
    call = next now \/ call = play now ->
    exists st',
      call st = Ok st' /\
      isPlaying st' = false /\ timers st' = [] /\
      currentIndex st' = currentIndex st /\ lastShownAt st' = None /\
      panorama st' = panorama st /\
      nth_error (heap st') a = Some pts' /\
      nth_Z pts' (currentIndex st) = Some (set_dwellSeconds dwell p).
Proof.
  intros Hreach Hpts Harr Hlast Hshown Hcur dwell pts' call Hcall.
  destruct (reachable_steady st Hreach) as [[[Hidx [Howned _]] _] _].
  pose proof (@thePoints_at st a pts Hpts Harr) as Hthe.
  destruct Hcall as [-> | ->].
  - unfold next, fuelFor. cbn [nextFuel]. rewrite Hthe.
    destruct (Z.ltb_spec (currentIndex st) (len pts - 1)); [lia|].
    destruct (pause_after_record st now shownAt a pts p Hpts Harr Howned Hshown Hcur)
      as [Hplay [Ht [_ [Hci [Hl [Hpano [_ Hheap]]]]]]].
    eexists. split; [reflexivity|]. repeat split; auto.
    now apply nth_Z_update_same.
  - unfold play. rewrite Hthe.
    assert (Hlen : 0 < len pts).
    { apply SelectorFacts.nth_Z_position in Hcur. lia. }
    destruct (Z.eqb_spec (len pts) 0); [lia|].
    unfold scheduleNext, scheduleNextWith.
    set (st1 := emitUpdate (set_isPlaying true st)).
    destruct (emitUpdate_fields (set_isPlaying true st))
      as [Hheap1 [Hpano1 [Hpts1 [Hci1 [Hplay1 [Hh1 [_ [_ [Hshown1 [Ht1 _]]]]]]]]]].
    fold st1 in Hheap1, Hpano1, Hpts1, Hci1, Hplay1, Hh1, Hshown1, Ht1.
    cbn in Hheap1, Hpano1, Hpts1, Hci1, Hplay1, Hh1, Hshown1, Ht1.
    assert (Howned1 : timersOwned st1)
      by exact (@timersOwned_fields st st1 Ht1 Hh1 Howned).
    destruct (clearPlayTimer_fields st1) as [Hplay2 [Hci2 [Hthe2 [_ [Hpano2 Hh2]]]]].
    pose proof (clearPlayTimer_owned Howned1) as Ht2.
    assert (H2 : points (clearPlayTimer st1) = points st1 /\
                 heap (clearPlayTimer st1) = heap st1 /\
                 lastShownAt (clearPlayTimer st1) = lastShownAt st1).
    { unfold clearPlayTimer, clearTimeout. destruct (playTimer st1); repeat split. }
    destruct H2 as [Hpts2 [Hheap2 Hshown2]].
    set (st2 := clearPlayTimer st1) in *.
    assert (Hthe1 : thePoints st1 = pts).
    { apply (@thePoints_at st1 a pts); congruence. }
    rewrite Hplay2, Hplay1, Hci2, Hci1, Hthe2, Hthe1. cbn [negb].
    destruct (Z.geb_spec (currentIndex st) (len pts - 1)); [|lia].
    destruct (pause_after_record st2 now shownAt a pts p)
      as [Hplay [Ht [_ [Hci [Hl [Hpano [_ Hheap]]]]]]]; try congruence.
    { left. exact Ht2. }
    eexists. split; [reflexivity|].
    rewrite Hci2, Hci1 in Hci, Hheap. rewrite Hpano2, Hpano1 in Hpano.
    repeat split; auto.
    now apply nth_Z_update_same.
Qed.

(** X21.  An index outside the list.  In every state the module reaches,
    [goTo] with an index that is not an index of the list shows no point
    and writes no dwell.  While paused the state is as it was (not even
    the callback is called).  While playing only the timer changes: the
    pending timer is cancelled and a new one is armed for the point that
    stays current, with its full delay, so the wait starts again. *)
Theorem goTo_outside_the_list (st : Player) (index now : Z) :
  reachable st ->
  ~ 0 <= index < len (thePoints st) ->
  (isPlaying st = false -> goTo index now st = Ok st) /\
  (isPlaying st = true ->
   exists st' pt,
     goTo index now st = Ok st' /\
     nth_Z (thePoints st) (currentIndex st) = Some pt /\
     timers st' =
       [(nextHandle st,
         if dp_isDecisionPoint pt
         then (BASE_DWELL / speed st * DECISION_DWELL_MULTIPLIER)%Q
         else (BASE_DWELL / speed st)%Q)] /\
     playTimer st' = Some (nextHandle st) /\
     isPlaying st' = true /\ currentIndex st' = currentIndex st /\
     heap st' = heap st /\ lastShownAt st' = lastShownAt st /\
     panorama st' = panorama st /\ emitted st' = emitted st).
Proof.
  intros Hreach Hout.
  destruct (reachable_steady st Hreach) as [[[Hidx [Howned _]] _] [_ Hplaying]].
  assert (Hshow : showPoint index now st = Ok st).
  { unfold showPoint.
    destruct (Z.ltb_spec index 0); [reflexivity|].
    destruct (Z.geb_spec index (len (thePoints st))); [reflexivity|lia]. }
  unfold goTo. rewrite Hshow. cbn [bind].
  split; intros Hplay; rewrite Hplay; [reflexivity|].
  destruct (Hplaying Hplay) as [_ [Hmore Hspeed]].
  destruct (@nth_Z_in_range _ (thePoints st) (currentIndex st)) as [pt Hpt]; [lia|].
  unfold scheduleNext, scheduleNextWith.
  destruct (clearPlayTimer_fields st) as [Hplay2 [Hci2 [Hthe2 [Hspeed2 [Hpano2 Hh2]]]]].
  pose proof (clearPlayTimer_owned Howned) as Ht2.
  assert (H2 : heap (clearPlayTimer st) = heap st /\
               lastShownAt (clearPlayTimer st) = lastShownAt st /\
               nextHandle (clearPlayTimer st) = nextHandle st /\
               emitted (clearPlayTimer st) = emitted st).
  { unfold clearPlayTimer, clearTimeout. destruct (playTimer st); repeat split. }
  destruct H2 as [Hheap2 [Hshown2 [Hn2 He2]]].
  set (st2 := clearPlayTimer st) in *.
  rewrite Hplay2, Hplay, Hci2, Hthe2, Hspeed2, Hspeed, Hpt. cbn [negb].
  destruct (Z.geb_spec (currentIndex st) (len (thePoints st) - 1)); [lia|].
  eexists. exists pt. split; [reflexivity|]. split; [reflexivity|].
  unfold armPlayTimer.
  cbn [currentIndex panorama isPlaying lastShownAt heap timers playTimer emitted
       set_playTimer set_nextHandle set_timers].
  rewrite Ht2, Hn2, Hplay2, Hci2, Hheap2, Hshown2, Hpano2, He2. cbn [app].
  repeat split; auto.
Qed.

(** ** The sample sessions again *)

Lemma exported_functions_return_witness :
  exists st,
    shown = Ok st /\ returns (next 2000 st) = true /\
    returns (init 1 true 2000 st) = false.
Proof.
  destruct shown as [st|] eqn:Hshown; [|vm_compute in Hshown; discriminate].
  pose proof (shown_reachable st Hshown) as Hreach.
  destruct (exported_functions_return st 2000 0 1%Q 0%nat Hreach)
    as [_ [_ [Hnext [_ [_ [_ [_ Hinit]]]]]]].
  exists st. split; [reflexivity|]. split; [exact Hnext|].
  destruct (returns (init 1 true 2000 st)) eqn:Hret; [|reflexivity].
  apply Hinit in Hret. exfalso. apply Hret.
  vm_compute in Hshown. injection Hshown as <-. reflexivity.
Defined.

Lemma playing_iff_timer_pending_witness :
  exists st h delay,
    playing = Ok st /\ isPlaying st = true /\
    timers st = [(h, delay)] /\ playTimer st = Some h /\
    currentIndex st < len (thePoints st) - 1.
Proof.
  destruct playing as [st|] eqn:Hplaying; [|vm_compute in Hplaying; discriminate].
  pose proof (playing_reachable st Hplaying) as Hreach.
  assert (Hplay : isPlaying st = true).
  { vm_compute in Hplaying. injection Hplaying as <-. reflexivity. }
  destruct (playing_iff_timer_pending st Hreach) as [_ [Harmed _]].
  destruct (Harmed Hplay) as [h [delay [Htimers [Hhandle [Hmore _]]]]].
  exists st, h, delay. repeat split; assumption.
Defined.

Lemma getState_with_points_witness :
  exists st p,
    (st0 <- shown ;; st1 <- play 1000 st0 ;; goTo 4 2000 st1) = Ok st /\
    point (getState st) = Some p /\
    isLast (getState st) = true /\ s_isPlaying (getState st) = false /\
    Forall (fun s => 0 <= s_currentIndex s < total s) (emitted st).
Proof.
  destruct (st0 <- shown ;; st1 <- play 1000 st0 ;; goTo 4 2000 st1) as [st|] eqn:Hst;
    [|vm_compute in Hst; discriminate].
  assert (Hreach : reachable st).
  { destruct shown as [st0|] eqn:Hshown; [|vm_compute in Hst; discriminate].
    cbn [bind] in Hst.
    destruct (play 1000 st0) as [st1|] eqn:Hplay; [|discriminate].
    cbn [bind] in Hst.
    apply (@reach_goTo st1 st 4 2000); [|exact Hst].
    apply (@reach_play st0 st1 1000); [|exact Hplay].
    now apply shown_reachable. }
  assert (Hfacts : thePoints st <> [] /\ isLast (getState st) = true /\
                   Forall (fun s => 0 < total s) (emitted st)).
  { vm_compute in Hst. injection Hst as <-.
    split; [discriminate|]. split; [reflexivity|].
    vm_compute. repeat constructor. }
  destruct Hfacts as [Hne [Hlast Htotals]].
  destruct (getState_with_points st Hreach) as [Hbetween Hcallback].
  destruct (Hbetween Hne) as [[p [Hp _]] [_ [_ Hidle]]].
  exists st, p. split; [reflexivity|]. split; [exact Hp|].
  split; [exact Hlast|]. split; [exact (Hidle Hlast)|].
  apply Forall_forall. intros s Hs.
  destruct (Hcallback s Hs) as [Hlo [Hin _]].
  pose proof (proj1 (Forall_forall _ _) Htotals s Hs) as Hpos.
  destruct (Hin Hpos) as [Hhi _]. lia.
Defined.

(** The callback sees more than the states between two calls: [goTo] to
    the last point while the sequencer plays passes it a snapshot that is
    both playing and at the last point, before playback is stopped in the
    same call. *)
Example callback_sees_playing_at_last :
  exists st s,
    (st0 <- shown ;; st1 <- play 1000 st0 ;; goTo 4 2000 st1) = Ok st /\
    nth_error (emitted st) 2 = Some s /\
    s_isPlaying s = true /\ isLast s = true /\ s_currentIndex s = 4 /\
    s_isPlaying (getState st) = false.
Proof.
  destruct (st0 <- shown ;; st1 <- play 1000 st0 ;; goTo 4 2000 st1) as [st|] eqn:Hst;
    [|vm_compute in Hst; discriminate].
  vm_compute in Hst. injection Hst as <-.
  eexists. eexists. split; [reflexivity|].
  split; [vm_compute; reflexivity|]. vm_compute. repeat split.
Qed.

Lemma goTo_records_dwell_witness :
  exists st st',
    shown = Ok st /\ goTo 2 4000 st = Ok st' /\
    currentIndex st' = 2 /\ lastShownAt st' = Some 4000 /\
    nth_error (heap st') 0 =
      Some (update 0 (set_dwellSeconds (inject_Z (4000 - 1000) / inject_Z 1000)%Q)
              drivePoints).
Proof.
  destruct shown as [st|] eqn:Hshown; [|vm_compute in Hshown; discriminate].
  pose proof (shown_reachable st Hshown) as Hreach.
  assert (Hst : isPlaying st = false /\ points st = Some 0%nat /\
                nth_error (heap st) 0 = Some drivePoints /\
                currentIndex st = 0 /\ lastShownAt st = Some 1000).
  { vm_compute in Hshown. injection Hshown as <-. repeat split. }
  destruct Hst as [Hidle [Hpts [Harr [Hidx Hlast]]]].
  destruct (nth_Z drivePoints 0) as [p|] eqn:Hp; [|discriminate].
  destruct (nth_Z drivePoints 2) as [q|] eqn:Hq; [|discriminate].
  assert (Hcur : nth_Z drivePoints (currentIndex st) = Some p) by now rewrite Hidx.
  destruct (goTo_records_dwell st 2 4000 1000 0%nat drivePoints p q
              Hreach Hidle Hpts Harr Hlast Hcur Hq)
    as [st' [Hrun [Hci [Hshown' [Hheap _]]]]].
  exists st, st'. rewrite Hidx in Hheap. repeat split; assumption.
Defined.

Lemma timer_expiry_advances_witness :
  exists st st',
    playing = Ok st /\ timerFires 1 6000 st = Ok st' /\
    currentIndex st' = 1 /\ isPlaying st' = true /\ lastShownAt st' <> None /\
    nth_error (heap st') 0 =
      Some (update 0 (set_dwellSeconds (inject_Z (6000 - 1000) / inject_Z 1000)%Q)
              drivePoints).
Proof.
  destruct playing as [st|] eqn:Hplaying; [|vm_compute in Hplaying; discriminate].
  pose proof (playing_reachable st Hplaying) as Hreach.
  assert (Hst : timers st = [(1%nat, 5000%Q)] /\ points st = Some 0%nat /\
                nth_error (heap st) 0 = Some drivePoints /\
                currentIndex st = 0 /\ lastShownAt st = Some 1000).
  { vm_compute in Hplaying. injection Hplaying as <-. repeat split. }
  destruct Hst as [Htimers [Hpts [Harr [Hidx Hlast]]]].
  destruct (nth_Z drivePoints 0) as [p|] eqn:Hp; [|discriminate].
  assert (Hcur : nth_Z drivePoints (currentIndex st) = Some p) by now rewrite Hidx.
  destruct (timer_expiry_advances st 1%nat 5000%Q 6000 1000 0%nat drivePoints p
              Hreach Htimers Hpts Harr Hlast Hcur)
    as [st' [q [Hrun [_ [Hci [_ [Hgoes _]]]]]]].
  rewrite Hidx in Hci, Hgoes.
  destruct Hgoes as [Hplay [Hshown' [Hheap _]]]; [vm_compute; reflexivity|].
  exists st, st'. repeat split; assumption.
Defined.

Lemma end_of_list_closes_dwell_witness :
  exists st st',
    (st0 <- shown ;; goTo 4 2000 st0) = Ok st /\
    next 9000 st = Ok st' /\
    isPlaying st' = false /\ lastShownAt st' = None /\
    nth_error (heap st') 0 =
      Some (update 4 (set_dwellSeconds (inject_Z (9000 - 2000) / inject_Z 1000)%Q)
              (update 0 (set_dwellSeconds (inject_Z (2000 - 1000) / inject_Z 1000)%Q)
                 drivePoints)).
Proof.
  destruct shown as [st0|] eqn:Hshown; [|vm_compute in Hshown; discriminate].
  pose proof (shown_reachable st0 Hshown) as Hreach0.
  cbn [bind].
  destruct (goTo 4 2000 st0) as [st|] eqn:Hgo;
    [|vm_compute in Hshown; injection Hshown as <-; vm_compute in Hgo; discriminate].
  pose proof (@reach_goTo st0 st 4 2000 Hreach0 Hgo) as Hreach.
  set (pts := update 0 (set_dwellSeconds (inject_Z (2000 - 1000) / inject_Z 1000)%Q)
                drivePoints).
  assert (Hst : points st = Some 0%nat /\ nth_error (heap st) 0 = Some pts /\
                currentIndex st = 4 /\ lastShownAt st = Some 2000).
  { vm_compute in Hshown. injection Hshown as <-.
    vm_compute in Hgo. injection Hgo as <-. repeat split. }
  destruct Hst as [Hpts [Harr [Hidx Hlast]]].
  destruct (nth_Z pts 4) as [p|] eqn:Hp; [|discriminate].
  assert (Hcur : nth_Z pts (currentIndex st) = Some p) by now rewrite Hidx.
  assert (Hend : currentIndex st = len pts - 1) by (rewrite Hidx; reflexivity).
  destruct (end_of_list_closes_dwell st 9000 2000 0%nat pts p
              Hreach Hpts Harr Hend Hlast Hcur (next 9000) (or_introl eq_refl))
    as [st' [Hrun [Hplay [_ [_ [Hshown' [_ [Hheap _]]]]]]]].
  exists st, st'. rewrite Hidx in Hheap. repeat split; assumption.
Defined.

Lemma goTo_outside_the_list_witness :
  exists st st',
    playing = Ok st /\ goTo 7 3000 st = Ok st' /\
    currentIndex st' = 0 /\ heap st' = heap st /\
    playTimer st' = Some (nextHandle st).
Proof.
  destruct playing as [st|] eqn:Hplaying; [|vm_compute in Hplaying; discriminate].
  pose proof (playing_reachable st Hplaying) as Hreach.
  assert (Hst : isPlaying st = true /\ currentIndex st = 0 /\ len (thePoints st) = 5).
  { vm_compute in Hplaying. injection Hplaying as <-. repeat split. }
  destruct Hst as [Hplay [Hidx Hlen]].
  destruct (goTo_outside_the_list st 7 3000 Hreach) as [_ Hre]; [rewrite Hlen; lia|].
  destruct (Hre Hplay) as [st' [pt [Hrun [_ [_ [Hh [_ [Hci [Hheap _]]]]]]]]].
  exists st, st'. rewrite Hidx in Hci. repeat split; assumption.
Defined.

End SessionFacts.

(* ===================================================================== *)
(** * Properties of the most lingered points *)
(* ===================================================================== *)

Module AppFacts.
Unset Implicit Arguments.
Import App Samples Documented SelectorFacts.
Open Scope list_scope.
Open Scope Z_scope.

Lemma byStress_atLeast (a b : Lingered) : byStress a b <= 0 <-> atLeast a b.
Proof.
  unfold byStress, signOf, atLeast, Qle.
  rewrite Z.sgn_nonpos. unfold Qminus, Qplus, Qopp. cbn [Qnum Qden]. lia.
Qed.

Lemma atLeast_trans (a b c : Lingered) : atLeast a b -> atLeast b c -> atLeast a c.
Proof. unfold atLeast. intros H1 H2. now apply (Qle_trans _ (stressScore b)). Qed.

Lemma atLeast_total (a b : Lingered) : atLeast a b \/ atLeast b a.
Proof.
  unfold atLeast. destruct (Qlt_le_dec (stressScore a) (stressScore b)) as [H|H].
  - right. now apply Qlt_le_weak.
  - now left.
Qed.

Lemma insertBy_atLeast (x : Lingered) (l : list Lingered) :
  StronglySorted atLeast l -> StronglySorted atLeast (insertBy byStress x l).
Proof.
  induction l as [|y ys IH]; cbn; intros Hs.
  - repeat constructor.
  - inversion Hs as [|? ? Hys Hall]; subst.
    destruct (Z.leb_spec (byStress x y) 0) as [Hle|Hgt].
    + apply byStress_atLeast in Hle.
      constructor; [assumption|]. constructor; [assumption|].
      eapply Forall_impl; [|exact Hall]. intros z Hz. now apply (atLeast_trans x y z).
    + assert (Hyx : atLeast y x).
      { destruct (atLeast_total x y) as [H|H]; [|assumption].
        apply byStress_atLeast in H. lia. }
      constructor; [now apply IH|].
      apply (Permutation_Forall (Permutation_sym (insertBy_perm byStress x ys))).
      constructor; assumption.
Qed.

Lemma sortBy_atLeast (l : list Lingered) : StronglySorted atLeast (sortBy byStress l).
Proof.
  induction l as [|x xs IH]; cbn; [constructor|]. now apply insertBy_atLeast.
Qed.

(** The sort leaves a list that is already in order as it is. *)
Lemma sortBy_sorted_same (l : list Lingered) :
  StronglySorted atLeast l -> sortBy byStress l = l.
Proof.
  induction l as [|x xs IH]; cbn; intros Hs; [reflexivity|].
  inversion Hs as [|? ? Hxs Hall]; subst. rewrite (IH Hxs).
  destruct xs as [|y ys]; cbn; [reflexivity|].
  inversion Hall as [|? ? Hxy _]; subst.
  apply byStress_atLeast in Hxy.
  destruct (Z.leb_spec (byStress x y) 0); [reflexivity|lia].
Qed.

Lemma StronglySorted_app_cross (A : Type) (R : A -> A -> Prop) (l1 l2 : list A) :
  StronglySorted R (l1 ++ l2) ->
  StronglySorted R l1 /\ forall x y, In x l1 -> In y l2 -> R x y.
Proof.
  induction l1 as [|a l1 IH]; cbn; intros Hs.
  - split; [constructor|]. intros x y [].
  - inversion Hs as [|? ? Hrest Hall]; subst.
    destruct (IH Hrest) as [Hs1 Hcross]. split.
    + constructor; [assumption|]. apply Forall_forall. intros z Hz.
      apply (proj1 (Forall_forall _ _) Hall). apply in_or_app. now left.
    + intros x y [<-|Hx] Hy; [|now apply Hcross].
      apply (proj1 (Forall_forall _ _) Hall). apply in_or_app. now right.
Qed.

(** The product of doubles: 0.1 times 1.5 is more than 0.15. *)
Lemma doubleTimes_rounds :
  (toDouble (15 # 100) < doubleTimes (toDouble (1 # 10)) (3 # 2))%Q /\
  (doubleTimes (toDouble (1 # 10)) (3 # 2) == 5404319552844596 # (2 ^ 55))%Q.
Proof. split; reflexivity. Qed.

Lemma doubleTimes_zero (w : Q) : (doubleTimes 0 w == 0)%Q.
Proof. unfold doubleTimes, toDouble. cbn. reflexivity. Qed.

(** X18.  The most lingered points, whatever the product [times] of two
    numbers gives.  [getMostLingered] returns three entries, or as many as
    there are points; each is a point of the list with its stress score,
    the product of its dwell time (0 for a point that was never left) and
    the weight of its commitment level; the entries come in descending
    order of that score, no point left out has a higher score than an
    entry, and a list that is already in descending order of the score
    gives its first three points.  With the product of doubles, a point
    that was never left has the score 0. *)
Theorem most_lingered_top_three (times : Q -> Q -> Q) (points : list DecisionPoint) :
  let top := getMostLingered times points in
  len top = Z.min 3 (len points) /\
  (forall x, In x top ->
     In (lingered x) points /\ x = withStress times (lingered x) /\
     stressScore x =
       times (match dwellSeconds (lingered x) with Some seconds => seconds | None => 0%Q end)
             (weightOf (dp_commitmentLevel (lingered x)))) /\
  StronglySorted (fun a b => (stressScore b <= stressScore a)%Q) top /\
  (exists others,
     Permutation (map (withStress times) points) (top ++ others) /\
     forall x y, In x top -> In y others -> (stressScore y <= stressScore x)%Q) /\
  (StronglySorted (fun a b => (stressScore b <= stressScore a)%Q)
                  (map (withStress times) points) ->
   top = firstn 3 (map (withStress times) points)) /\
  (forall pt, dwellSeconds pt = None -> (stressScore (withStress doubleTimes pt) == 0)%Q).
Proof.
  cbv zeta. unfold getMostLingered.
  set (sorted := sortBy byStress (map (withStress times) points)).
  assert (Hperm : Permutation sorted (map (withStress times) points)) by apply sortBy_perm.
  assert (Hsorted : StronglySorted atLeast sorted) by apply sortBy_atLeast.
  rewrite <- (firstn_skipn 3 sorted) in Hsorted.
  destruct (StronglySorted_app_cross _ _ _ _ Hsorted) as [Htop Hcross].
  split; [|split; [|split; [|split; [|split]]]].
  - unfold len. rewrite length_firstn.
    rewrite (Permutation_length Hperm), length_map. lia.
  - intros x Hx.
    assert (Hin : In x sorted)
      by (rewrite <- (firstn_skipn 3 sorted); apply in_or_app; now left).
    clear Hx. rename Hin into Hx.
    apply (Permutation_in _ Hperm) in Hx. apply in_map_iff in Hx.
    destruct Hx as [pt [<- Hpt]]. cbn. repeat split; auto.
  - exact Htop.
  - exists (skipn 3 sorted). split; [|exact Hcross].
    rewrite firstn_skipn. now apply Permutation_sym.
  - intros Hdesc. unfold sorted. now rewrite sortBy_sorted_same.
  - intros pt Hnone. unfold withStress. rewrite Hnone. cbn [stressScore].
    apply doubleTimes_zero.
Qed.

Lemma most_lingered_top_three_witness :
  len (getMostLingered doubleTimes rehearsedPoints) = Z.min 3 (len rehearsedPoints) /\
  map (fun x => dp_index (lingered x)) (getMostLingered doubleTimes rehearsedPoints)
  = [1; 0; 4] /\
  StronglySorted (fun a b => (stressScore b <= stressScore a)%Q)
                 (getMostLingered doubleTimes rehearsedPoints).
Proof.
  pose proof (most_lingered_top_three doubleTimes rehearsedPoints) as Htop.
  cbv zeta in Htop.
  destruct Htop as [Hlen [_ [Hsorted _]]].
  split; [exact Hlen|]. split; [vm_compute; reflexivity|exact Hsorted].
Defined.

(** The doubles decide the ranking.  After 0.15 s at two points of low
    commitment and 0.1 s at a point of medium commitment, the point of
    medium commitment comes first: its score 0.1 * 1.5 is the double above
    0.15.  After 0.12 s at a point of low commitment and 0.08 s at a later
    point of medium commitment the two scores are the same double, 0.12,
    and the points stay in route order; the exact product of 0.08 and 1.5
    is more than the double 0.12 and would put the later point first. *)
Example rounded_product_decides_order :
  map (fun x => dp_index (lingered x)) (getMostLingered doubleTimes briefVisits)
  = [2; 0; 3] /\
  map (fun x => dp_index (lingered x)) (getMostLingered doubleTimes tiedVisits)
  = [0; 2; 1] /\
  map (fun x => dp_index (lingered x)) (getMostLingered Qmult tiedVisits)
  = [2; 0; 1].
Proof. repeat split; vm_compute; reflexivity. Qed.

End AppFacts.
